(** * tiny-http: the chained hash table of [src/hash_table.c]

    A shallow embedding of the string-to-string hash table (universal
    hashing, separate chaining with doubly linked lists, table doubling
    and halving) together with the properties its description states.

    The C code works on a heap of [node_t] records linked by raw
    pointers and on a bucket array obtained from [malloc].  The
    embedding keeps both: nodes live in a finite map from addresses to
    records, the bucket array is a list of pointers, and every C
    function is a computation in a state-and-fault monad.  Undefined
    behaviour of the C program (a null or dangling dereference, an
    index out of the array, a division by zero, a signed overflow of an
    [int], a loop that never exits) is a [Fault].

    What the environment decides is a parameter: the two numbers [a]
    and [b] drawn by [init_hash], the signedness of [char], the address
    [malloc] gives a new node, and the content of the block [malloc]
    gives for a bucket array, which the code does not clear.  Strings
    are taken by value.  [free_hash_table] returns the heap it leaves
    behind, and [hash_print] the text it writes. *)

From Equations Require Import Equations.
From Stdlib Require Import ZArith String Ascii Lia.
From stdpp Require Import base option list gmap strings.

Local Open Scope Z_scope.

(** ** Machine integers *)

(** [int64_t] arithmetic as the platform does it, two's complement:
    the value is brought back into [-2^63, 2^63) after each operation.
    The digest and the product [a * k] are meant to wrap (the loop of
    [mod] below is there for the negative values this gives). *)
Definition wrap64 (z : Z) : Z := (z + 2 ^ 63) mod 2 ^ 64 - 2 ^ 63.

Definition INT_MAX : Z := 2 ^ 31 - 1.
Definition INT_MIN : Z := - 2 ^ 31.

(** [#define MIN_TABLE_SIZE 16] *)
Definition MIN_TABLE_SIZE : Z := 16.

(** ** Faults and results *)

Inductive fault : Type :=
| NullDeref      (* dereference of the NULL pointer *)
| WildPointer    (* dereference of an address that holds no live node *)
| OutOfBounds    (* bucket index outside the bucket array *)
| DivByZero      (* [x % 0] *)
| Overflow       (* signed overflow of an [int] *)
| Diverges.      (* a loop that never reaches its exit *)

Inductive result (A : Type) : Type :=
| Ok (x : A)
| Fault (f : fault).
Arguments Ok {A} x.
Arguments Fault {A} f.

(** ** The hash function *)

(** The loop [while (x < 0) x += y;] of [mod].  With [0 < y] the sum
    [x + y] of a negative [x] cannot leave the [int64_t] range.  With
    [y <= 0] a negative [x] never becomes non-negative: the C loop
    either spins ([y = 0]) or runs into signed overflow. *)
Equations? mod_loop (x y : Z) : result Z by wf (Z.to_nat (- x)) lt :=
  mod_loop x y with Z_lt_dec x 0 := {
    | right _ => Ok x ;
    | left _ with Z_lt_dec 0 y := {
      | left _ => mod_loop (x + y) y ;
      | right _ => Fault Diverges } }.
Proof. lia. Qed.

(** [static int64_t mod(int64_t x, int64_t y)] ([mod] is a reserved
    word here, hence the name); C's [%] truncates towards zero
    ([Z.rem]). *)
Definition mod_c (x y : Z) : result Z :=
  match mod_loop x y with
  | Ok x' => if y =? 0 then Fault DivByZero else Ok (Z.rem x' y)
  | Fault f => Fault f
  end.

(** [p = 2305843009213693951], set by [init_hash]. *)
Definition p : Z := 2305843009213693951.

Section Hash.

(** The two random parameters drawn by [init_hash], and the
    signedness of plain [char] on the platform. *)
Variables (a b : Z) (char_signed : bool).

(** [c = *str++]: a [char] read into an [int]. *)
Definition char_to_int (c : ascii) : Z :=
  let v := Z.of_N (N_of_ascii c) in
  if char_signed && (128 <=? v) then v - 256 else v.

(** The body of the loop of [prehash], [hash = ((hash << 5) + hash) + c],
    on a string given by the characters before its terminator. *)
Fixpoint prehash_loop (hash : Z) (str : string) : Z :=
  match str with
  | EmptyString => hash
  | String c str' =>
      prehash_loop
        (wrap64 (wrap64 (wrap64 (Z.shiftl hash 5) + hash) + char_to_int c))
        str'
  end.

Definition prehash (str : string) : Z := prehash_loop 5381 str.

(** [static int hash(const char *str, int m)].  The value of the
    outer [mod] is below [|m|] and so fits the [int] returned. *)
Definition hash (str : string) (m : Z) : result Z :=
  let k := prehash str in
  match mod_c (wrap64 (wrap64 (a * k) + b)) p with
  | Ok r => mod_c r m
  | Fault f => Fault f
  end.

(** The formula of the description, the arithmetic on [a], [b] and
    the digest being that of [int64_t]. *)
Definition hash_formula (str : string) (m : Z) : Z :=
  (wrap64 (a * prehash str + b) mod p) mod m.

End Hash.

(** ** Memory *)

(** A pointer to a node is [NULL] ([None]) or an address. *)
Definition addr := positive.
Abbreviation ptr := (option addr).

(** [struct node]: the two chain links and the two owned strings.  A
    string is given by the characters before its terminator; [strdup]
    makes an equal string and [strcmp] tests equality. *)
Record node_t := Node {
  next : ptr;
  prev : ptr;
  key : string;
  value : string
}.

(** [hasht_t]: the bucket array is held in place, [table = NULL] being
    the empty list (no index into it is valid). *)
Record hasht_t := HashT {
  m : Z;
  n : Z;
  table : list ptr
}.

(** The table under consideration and the heap of live nodes. *)
Record state := State {
  ht : hasht_t;
  heap : gmap addr node_t
}.

Definition with_m (z : Z) (s : state) : state :=
  State (HashT z (n (ht s)) (table (ht s))) (heap s).
Definition with_n (z : Z) (s : state) : state :=
  State (HashT (m (ht s)) z (table (ht s))) (heap s).
Definition with_table (t : list ptr) (s : state) : state :=
  State (HashT (m (ht s)) (n (ht s)) t) (heap s).
Definition with_heap (h : gmap addr node_t) (s : state) : state :=
  State (ht s) h.

(** ** The monad of C computations *)

Definition M (A : Type) : Type := state -> result (A * state).

#[global] Instance M_ret : MRet M := fun A x s => Ok (x, s).
#[global] Instance M_bind : MBind M := fun A B f c s =>
  match c s with
  | Ok (x, s') => f x s'
  | Fault e => Fault e
  end.

Definition throw {A} (e : fault) : M A := fun _ => Fault e.
Definition lift {A} (r : result A) : M A := fun s =>
  match r with Ok x => Ok (x, s) | Fault e => Fault e end.
Definition gets {A} (f : state -> A) : M A := fun s => Ok (f s, s).
Definition modify (f : state -> state) : M unit := fun s => Ok (tt, f s).

(** Reads and writes of the fields of [*ht]. *)
Definition get_m : M Z := gets (fun s => m (ht s)).
Definition get_n : M Z := gets (fun s => n (ht s)).
Definition put_m (z : Z) : M unit := modify (with_m z).
Definition put_n (z : Z) : M unit := modify (with_n z).
Definition put_table (t : list ptr) : M unit := modify (with_table t).

(** [t[i]] and [t[i] = v] on an array of pointers. *)
Definition array_get (t : list ptr) (i : Z) : result ptr :=
  if (i <? 0) || (Z.of_nat (length t) <=? i) then Fault OutOfBounds
  else match t !! Z.to_nat i with
       | Some v => Ok v
       | None => Fault OutOfBounds
       end.
Definition array_set (t : list ptr) (i : Z) (v : ptr) : result (list ptr) :=
  if (i <? 0) || (Z.of_nat (length t) <=? i) then Fault OutOfBounds
  else Ok (<[Z.to_nat i := v]> t).

(** [ht->table[i]] and [ht->table[i] = v]. *)
Definition table_get (i : Z) : M ptr :=
  t ← gets (fun s => table (ht s)); lift (array_get t i).
Definition table_set (i : Z) (v : ptr) : M unit :=
  t ← gets (fun s => table (ht s)); t' ← lift (array_set t i v); put_table t'.

(** [*q] and [*q = nd] for a node pointer [q]. *)
Definition load (q : ptr) : M node_t := fun s =>
  match q with
  | None => Fault NullDeref
  | Some x => match heap s !! x with
              | Some nd => Ok (nd, s)
              | None => Fault WildPointer
              end
  end.
Definition store (q : ptr) (nd : node_t) : M unit := fun s =>
  match q with
  | None => Fault NullDeref
  | Some x => match heap s !! x with
              | Some _ => Ok (tt, with_heap (<[x := nd]> (heap s)) s)
              | None => Fault WildPointer
              end
  end.

(** Field accesses [q->next], [q->prev], [q->value] and the
    assignments to them. *)
Definition get_next (q : ptr) : M ptr := nd ← load q; mret (next nd).
Definition get_prev (q : ptr) : M ptr := nd ← load q; mret (prev nd).
Definition set_next (q v : ptr) : M unit :=
  nd ← load q; store q (Node v (prev nd) (key nd) (value nd)).
Definition set_prev (q v : ptr) : M unit :=
  nd ← load q; store q (Node (next nd) v (key nd) (value nd)).
Definition set_value (q : ptr) (v : string) : M unit :=
  nd ← load q; store q (Node (next nd) (prev nd) (key nd) v).

(** Addition and multiplication on [int]: leaving the range is
    undefined behaviour. *)
Definition int_range (z : Z) : M Z :=
  if (z <? INT_MIN) || (INT_MAX <? z) then throw Overflow else mret z.

(** [hasht_t *new_hash_table()]: [m = n = 0] and [table = NULL], in a
    process whose heap already holds the nodes [h]. *)
Definition new_hash_table (h : gmap addr node_t) : state :=
  State (HashT 0 0 []) h.

(** ** The table operations *)

Section Table.

(** The environment of the table: the hash parameters [a] and [b],
    the signedness of [char], what a block returned by [malloc] for
    a bucket array holds at each index before the program writes to
    it, and the address [malloc] picks for a new node. *)
Variables (a b : Z) (char_signed : bool).
Variable stale : nat -> ptr.
Variable node_alloc : gmap addr node_t -> addr.

(** [(node_t ** ) malloc(len * sizeof(node_t * ))]: the cells hold
    whatever the block held; a request for no cell, or for a negative
    number of cells (a huge [size_t]), yields no cell at all. *)
Definition malloc_table (len : Z) : list ptr :=
  stale <$> seq 0 (Z.to_nat len).

(** [node_t *new_hash_node(key, value)] *)
Definition new_hash_node (key' value' : string) : M ptr := fun s =>
  let x := node_alloc (heap s) in
  Ok (Some x, with_heap (<[x := Node None None key' value']> (heap s)) s).

(** [void free_hash_node(node_t *n)] *)
Definition free_hash_node (q : ptr) : M unit :=
  match q with
  | None => mret tt
  | Some x => _ ← load q; modify (fun s => with_heap (delete x (heap s)) s)
  end.

(** The loop of [hash_search_node] over the chain that starts at [q].
    The loop only reads; a walk that has loaded as many nodes as the
    heap holds and still goes on is caught in a cycle. *)
Fixpoint search_list (fuel : nat) (q : ptr) (key' : string) : M ptr :=
  match q with
  | None => mret None
  | Some _ =>
      match fuel with
      | O => throw Diverges
      | S fuel' =>
          nd ← load q;
          if String.eqb (key nd) key' then mret q
          else search_list fuel' (next nd) key'
      end
  end.

(** [static node_t *hash_search_node(hasht_t *ht, const char *key)] *)
Definition hash_search_node (key' : string) : M ptr :=
  m0 ← get_m;
  if m0 =? 0 then mret None
  else
    slot ← lift (hash a b char_signed key' m0);
    head ← table_get slot;
    fuel ← gets (fun s => size (heap s));
    search_list fuel head key'.

(** [int hash_contains(hasht_t *ht, const char *key)] *)
Definition hash_contains (key' : string) : M Z :=
  q ← hash_search_node key';
  mret (match q with None => 0 | Some _ => 1 end).

(** [char *hash_search(hasht_t *ht, const char *key)]: [NULL], or a
    copy of the stored value. *)
Definition hash_search (key' : string) : M (option string) :=
  q ← hash_search_node key';
  match q with
  | None => mret None
  | Some _ => nd ← load q; mret (Some (value nd))
  end.

(** The [while] loop of [resize_hash_table] over one old chain: each
    node is unlinked and put at the head of its chain in the new
    array [t].  A chain of distinct nodes is walked in no more steps
    than the heap holds nodes; a walk that takes more is cut off. *)
Fixpoint rehash_list (fuel : nat) (newm : Z) (q : ptr) (t : list ptr)
  : M (list ptr) :=
  match q with
  | None => mret t
  | Some _ =>
      match fuel with
      | O => throw Diverges
      | S fuel' =>
          nxt ← get_next q;
          nd ← load q;
          slot ← lift (hash a b char_signed (key nd) newm);
          set_prev q None;;
          set_next q None;;
          hd ← lift (array_get t slot);
          match hd with
          | Some _ => set_prev hd q;; set_next q hd
          | None => mret tt
          end;;
          t' ← lift (array_set t slot q);
          rehash_list fuel' newm nxt t'
      end
  end.

(** The [for] loop of [resize_hash_table] over the old slots
    [l, l + 1, ...], [cnt] of them. *)
Fixpoint rehash_table (cnt : nat) (l : Z) (newm : Z) (t : list ptr)
  : M (list ptr) :=
  match cnt with
  | O => mret t
  | S cnt' =>
      q ← table_get l;
      fuel ← gets (fun s => size (heap s));
      t' ← rehash_list fuel newm q t;
      rehash_table cnt' (l + 1) newm t'
  end.

(** [static void resize_hash_table(hasht_t *ht, int newm)] *)
Definition resize_hash_table (newm : Z) : M unit :=
  let t := malloc_table newm in
  m0 ← get_m;
  t' ← rehash_table (Z.to_nat m0) 0 newm t;
  put_table t';;
  put_m newm.

(** [static void grow_hash_table(hasht_t *ht)] *)
Definition grow_hash_table : M unit :=
  m0 ← get_m;
  if m0 =? 0 then
    put_m MIN_TABLE_SIZE;;
    m1 ← get_m;
    put_table (malloc_table m1)
  else
    newm ← int_range (2 * m0);
    resize_hash_table newm.

(** [void hash_insert(hasht_t *ht, const char *key, const char *value)] *)
Definition hash_insert (key' value' : string) : M unit :=
  found ← hash_search_node key';
  match found with
  | Some _ => set_value found value'
  | None =>
      n0 ← get_n;
      m0 ← get_m;
      (if n0 =? m0 then grow_hash_table else mret tt);;
      n1 ← get_n;
      n2 ← int_range (n1 + 1);
      put_n n2;;
      q ← new_hash_node key' value';
      m1 ← get_m;
      slot ← lift (hash a b char_signed key' m1);
      head ← table_get slot;
      match head with
      | Some _ => set_next q head;; set_prev head q
      | None => mret tt
      end;;
      table_set slot q
  end.

(** [static void shrink_hash_table(hasht_t *ht)]; [/] on [int]
    truncates towards zero ([Z.quot]). *)
Definition shrink_hash_table : M unit :=
  m0 ← get_m;
  if m0 <? MIN_TABLE_SIZE * 2 then mret tt
  else resize_hash_table (Z.quot m0 2).

(** [void hash_remove(hasht_t *ht, const char *key)] *)
Definition hash_remove (key' : string) : M unit :=
  q0 ← hash_search_node key';
  match q0 with
  | None => mret tt
  | Some _ =>
      n0 ← get_n;
      m0 ← get_m;
      q ← (if Z.quot n0 4 <=? m0
           then shrink_hash_table;; hash_search_node key'
           else mret q0);
      n1 ← get_n;
      n2 ← int_range (n1 - 1);
      put_n n2;;
      nx ← get_next q;
      match nx with
      | Some _ => pv ← get_prev q; set_prev nx pv
      | None => mret tt
      end;;
      pv ← get_prev q;
      match pv with
      | Some _ => nx ← get_next q; set_next pv nx
      | None =>
          m1 ← get_m;
          slot ← lift (hash a b char_signed key' m1);
          nx ← get_next q;
          table_set slot nx
      end;;
      free_hash_node q
  end.

(** [static void free_list_nodes(node_t *head)].  Every turn of the
    loop frees a live node, so the loop makes no more turns than the
    heap holds nodes: the walk is given one step more, for the
    dereference that faults when there are none left. *)
Fixpoint free_list_nodes (fuel : nat) (head : ptr) : M unit :=
  match head with
  | None => mret tt
  | Some _ =>
      match fuel with
      | O => throw Diverges
      | S fuel' =>
          nxt ← get_next head;
          free_hash_node head;;
          free_list_nodes fuel' nxt
      end
  end.

(** The [for] loop of [free_hash_table] over the slots [l, l + 1,
    ...], [cnt] of them. *)
Fixpoint free_table_lists (cnt : nat) (l : Z) : M unit :=
  match cnt with
  | O => mret tt
  | S cnt' =>
      q ← table_get l;
      fuel ← gets (fun s => S (size (heap s)));
      free_list_nodes fuel q;;
      free_table_lists cnt' (l + 1)
  end.

(** [void free_hash_table(hasht_t *ht)]: the table is gone once the
    call returns, what is left is the heap of nodes. *)
Definition free_hash_table (s : state) : result (gmap addr node_t) :=
  match free_table_lists (Z.to_nat (m (ht s))) 0 s with
  | Ok (_, s') => Ok (heap s')
  | Fault e => Fault e
  end.

(** The text that [printf] with the format of [hash_print] writes for
    one node: the key and the value between double quotes, a colon
    between them, a comma and a space after them. *)
Definition dquote : string := String "034"%char EmptyString.
Definition newline : string := String "010"%char EmptyString.
Definition print_entry (nd : node_t) : string :=
  (dquote ++ key nd ++ dquote ++ ":" ++ dquote ++ value nd ++ dquote
   ++ ", ")%string.

(** The [while] loop of [hash_print] over one chain, giving the text
    it writes. *)
Fixpoint print_list (fuel : nat) (q : ptr) : M string :=
  match q with
  | None => mret EmptyString
  | Some _ =>
      match fuel with
      | O => throw Diverges
      | S fuel' =>
          nd ← load q;
          rest ← print_list fuel' (next nd);
          mret (print_entry nd ++ rest)%string
      end
  end.

(** The [for] loop of [hash_print]. *)
Fixpoint print_table (cnt : nat) (l : Z) : M string :=
  match cnt with
  | O => mret EmptyString
  | S cnt' =>
      q ← table_get l;
      fuel ← gets (fun s => size (heap s));
      out ← print_list fuel q;
      rest ← print_table cnt' (l + 1);
      mret (out ++ rest)%string
  end.

(** [void hash_print(hasht_t *ht)], giving the text written to the
    standard output. *)
Definition hash_print : M string :=
  m0 ← get_m;
  body ← print_table (Z.to_nat m0) 0;
  mret ("{" ++ body ++ "}" ++ newline)%string.

End Table.

(** * Specification *)

(** ** Frames, chains and heaps *)

(** A computation [c] keeps the relation [P] between the state it
    starts from and the state it returns. *)
Definition preserves {A} (P : relation state) (c : M A) : Prop :=
  forall s x s', c s = Ok (x, s') -> P s s'.

(** The relation of a state to a later one with the same fields of
    [*ht]. *)
Definition same_ht (s s' : state) : Prop := ht s' = ht s.

(** The relation of a state to a later one with the same number of
    buckets [m]. *)
Definition same_m (s s' : state) : Prop := m (ht s') = m (ht s).

(** [dll h pv q l]: in the heap [h] the pointer [q] starts a doubly
    linked chain through exactly the nodes [l], the first of which has
    [pv] for predecessor. *)
Fixpoint dll (h : gmap addr node_t) (pv q : ptr) (l : list addr) : Prop :=
  match l with
  | [] => q = None
  | x :: l' =>
      q = Some x /\
      exists nd, h !! x = Some nd /\ prev nd = pv
                 /\ dll h (Some x) (next nd) l'
  end.

(** The first node of [l] that carries the key [k]. *)
Fixpoint find_key (h : gmap addr node_t) (k : string) (l : list addr) : ptr :=
  match l with
  | [] => None
  | x :: l' =>
      match h !! x with
      | Some nd => if String.eqb (key nd) k then Some x else find_key h k l'
      | None => None
      end
  end.

(** The heap after the node [x], carrying [k] and [v], has been linked
    in front of the chain that starts at [hd]. *)
Definition link_head (h : gmap addr node_t) (x : addr) (k v : string)
    (hd : ptr) : gmap addr node_t :=
  match hd with
  | None => <[x := Node None None k v]> h
  | Some y =>
      match h !! y with
      | Some ny =>
          <[x := Node (Some y) None k v]>
            (<[y := Node (next ny) (Some x) (key ny) (value ny)]> h)
      | None => h
      end
  end.

(** The key and the value of a node. *)
Definition payload (nd : node_t) : string * string := (key nd, value nd).

(** The heap after the node [x], whose record is [nd], has been
    bypassed by its two neighbours and freed. *)
Definition unlink_heap (h : gmap addr node_t) (x : addr) (nd : node_t)
    : gmap addr node_t :=
  let h1 :=
    match next nd with
    | Some z =>
        alter (fun nz => Node (next nz) (prev nd) (key nz) (value nz)) z h
    | None => h
    end in
  let h2 :=
    match prev nd with
    | Some y =>
        alter (fun ny => Node (next nd) (prev ny) (key ny) (value ny)) y h1
    | None => h1
    end in
  delete x h2.

(** The relation of a state to a later one with the same [m] and the
    same [n]. *)
Definition same_sizes (s s' : state) : Prop :=
  m (ht s') = m (ht s) /\ n (ht s') = n (ht s).

(** Bernstein's hash over the integers: [h * 33 + c] for every
    character, from the left. *)
Fixpoint bernstein (char_signed : bool) (h : Z) (str : string) : Z :=
  match str with
  | EmptyString => h
  | String c str' =>
      bernstein char_signed (33 * h + char_to_int char_signed c) str'
  end.

(** The records of the nodes [l], in the order of [l]. *)
Definition chain_nodes (h : gmap addr node_t) (l : list addr)
    : list node_t :=
  omap (fun x => h !! x) l.

(** What [hash_print] writes for the nodes [nds], one after the
    other. *)
Definition print_nodes (nds : list node_t) : string :=
  foldr (fun nd acc => (print_entry nd ++ acc)%string) EmptyString nds.

(** ** Well-formed tables *)

Section Specification.

Variables (a b : Z) (char_signed : bool).
Variable stale : nat -> ptr.
Variable node_alloc : gmap addr node_t -> addr.

#[local] Abbreviation hash := (hash a b char_signed).
#[local] Abbreviation hash_search_node := (hash_search_node a b char_signed).
#[local] Abbreviation hash_search := (hash_search a b char_signed).
#[local] Abbreviation shrink_hash_table :=
  (shrink_hash_table a b char_signed stale).
#[local] Abbreviation grow_hash_table :=
  (grow_hash_table a b char_signed stale).
#[local] Abbreviation hash_insert :=
  (hash_insert a b char_signed stale node_alloc).
#[local] Abbreviation hash_remove := (hash_remove a b char_signed stale).

(** Every slot of the array [t] heads the chain of its bucket. *)
Definition chains (h : gmap addr node_t) (t : list ptr)
    (bs : list (list addr)) : Prop :=
  Forall2 (dll h None) t bs.

(** Every node sits in the bucket its key hashes to, among [mm]. *)
Definition routed (h : gmap addr node_t) (mm : Z)
    (bs : list (list addr)) : Prop :=
  forall i l x nd,
    bs !! i = Some l -> x ∈ l -> h !! x = Some nd ->
    hash (key nd) mm = Ok (Z.of_nat i).

(** No two of the nodes [L] carry the same key. *)
Definition unique_keys (h : gmap addr node_t) (L : list addr) : Prop :=
  forall x y nx ny,
    x ∈ L -> y ∈ L -> h !! x = Some nx -> h !! y = Some ny ->
    key nx = key ny -> x = y.

(** [Repr s bs]: the state [s] is a well-formed table whose buckets
    hold, in chain order, the nodes [bs]. *)
Record Repr (s : state) (bs : list (list addr)) : Prop := {
  repr_len : Z.of_nat (length (table (ht s))) = m (ht s);
  repr_int : m (ht s) <= INT_MAX /\ n (ht s) <= INT_MAX;
  repr_chains : chains (heap s) (table (ht s)) bs;
  repr_nodup : NoDup (concat bs);
  repr_routed : routed (heap s) (m (ht s)) bs;
  repr_keys : unique_keys (heap s) (concat bs);
  repr_n : n (ht s) = Z.of_nat (length (concat bs))
}.

(** What a lookup of [k] among the nodes [L] must return. *)
Definition node_for (h : gmap addr node_t) (L : list addr) (k : string)
    (q : ptr) : Prop :=
  match q with
  | Some x => x ∈ L /\ exists nd, h !! x = Some nd /\ key nd = k
  | None => forall x nd, x ∈ L -> h !! x = Some nd -> key nd <> k
  end.

(** The value stored under [k] among the nodes [L], if any. *)
Definition stored (h : gmap addr node_t) (L : list addr) (k : string)
    (r : option string) : Prop :=
  match r with
  | Some v => exists x nd, x ∈ L /\ h !! x = Some nd /\ key nd = k
                           /\ value nd = v
  | None => forall x nd, x ∈ L -> h !! x = Some nd -> key nd <> k
  end.

(** What [malloc] hands out for a bucket array reads as empty. *)
Definition stale_empty : Prop := forall i, stale i = None.

(** The state of a rehash in progress: the nodes [done] of the old
    table (heap [h0]) have been moved to the new array [t], whose
    buckets are [nbs]; the other nodes are as they were. *)
Record Rehashing (h0 : gmap addr node_t) (newm : Z) (done : list addr)
    (h : gmap addr node_t) (t : list ptr) (nbs : list (list addr))
    : Prop := {
  rh_len : length t = Z.to_nat newm;
  rh_chains : chains h t nbs;
  rh_perm : concat nbs ≡ₚ done;
  rh_rest : forall x, x ∉ done -> h !! x = h0 !! x;
  rh_payload : forall x, payload <$> h !! x = payload <$> h0 !! x;
  rh_routed : routed h newm nbs
}.

(** [malloc] returns an address that holds no live node. *)
Definition alloc_fresh : Prop := forall h, h !! node_alloc h = None.

(** The two phases of [hash_insert] for a key that is not there: the
    growth test, and the placing of the new node. *)
Definition insert_grow : M unit :=
  n0 ← get_n;
  m0 ← get_m;
  if n0 =? m0 then grow_hash_table else mret tt.

Definition insert_place (k v : string) : M unit :=
  n1 ← get_n;
  n2 ← int_range (n1 + 1);
  put_n n2;;
  q ← new_hash_node node_alloc k v;
  m1 ← get_m;
  slot ← lift (hash k m1);
  head ← table_get slot;
  match head with
  | Some _ => set_next q head;; set_prev head q
  | None => mret tt
  end;;
  table_set slot q.

(** The two phases of [hash_remove] once the key has been found at
    [q0]: the shrink check, which hands back the node to unlink, and
    the unlinking of that node. *)
Definition remove_check (k : string) (q0 : ptr) : M ptr :=
  n0 ← get_n;
  m0 ← get_m;
  if Z.quot n0 4 <=? m0
  then shrink_hash_table;; hash_search_node k
  else mret q0.

Definition remove_unlink (k : string) (q : ptr) : M unit :=
  n1 ← get_n;
  n2 ← int_range (n1 - 1);
  put_n n2;;
  nx ← get_next q;
  match nx with
  | Some _ => pv ← get_prev q; set_prev nx pv
  | None => mret tt
  end;;
  pv ← get_prev q;
  match pv with
  | Some _ => nx ← get_next q; set_next pv nx
  | None =>
      m1 ← get_m;
      slot ← lift (hash k m1);
      nx ← get_next q;
      table_set slot nx
  end;;
  free_hash_node q.

(** The states a client can bring a table to: a new table, then
    insertions and removals that return. *)
Inductive reachable : state -> Prop :=
| reach_new h : reachable (new_hash_table h)
| reach_insert s k v s' :
    reachable s -> hash_insert k v s = Ok (tt, s') -> reachable s'
| reach_remove s k s' :
    reachable s -> hash_remove k s = Ok (tt, s') -> reachable s'.

(** The [int] arithmetic of an insertion stays in range: there is
    room for one more entry, and for the doubling if it is due. *)
Definition room_to_insert (s : state) : Prop :=
  n (ht s) < INT_MAX /\ (n (ht s) = m (ht s) -> 2 * m (ht s) <= INT_MAX).

(** The tables filled by insertions alone. *)
Inductive filled : state -> Prop :=
| filled_new h : filled (new_hash_table h)
| filled_insert s k v s' :
    filled s -> hash_insert k v s = Ok (tt, s') -> filled s'.

(** [models s M]: the table in state [s] holds the finite map [M]:
    every lookup returns what [M] has under the key, and [n] is the
    number of keys of [M]. *)
Definition models (s : state) (M : gmap string string) : Prop :=
  (forall k, hash_search k s = Ok (M !! k, s))
  /\ n (ht s) = Z.of_nat (size M).

End Specification.

(** ** Tables and the heap around them *)

(** [wchain h q l]: in the heap [h] the pointer [q] leads through the
    nodes [l] by their [next] fields; what comes after them, and their
    [prev] fields, are left open. *)
Fixpoint wchain (h : gmap addr node_t) (q : ptr) (l : list addr) : Prop :=
  match l with
  | [] => True
  | x :: l' =>
      q = Some x /\ exists nd, h !! x = Some nd /\ wchain h (next nd) l'
  end.

(** The state of a rehash into a block of any content: the nodes
    [done] of the old table (heap [h0]) have been put in front of the
    slots of the new array [t], those of slot [i] being [nbs !! i],
    last one first; every node has the key and the value it had, and
    the nodes still to come have the [next] field they had. *)
Record Relinking (a b : Z) (char_signed : bool) (h0 : gmap addr node_t)
    (newm : Z) (done : list addr) (h : gmap addr node_t) (t : list ptr)
    (nbs : list (list addr)) : Prop := {
  rl_chains : Forall2 (wchain h) t nbs;
  rl_perm : concat nbs ≡ₚ done;
  rl_payload : forall x, payload <$> h !! x = payload <$> h0 !! x;
  rl_next : forall x, x ∉ done -> next <$> h !! x = next <$> h0 !! x;
  rl_routed : forall i l x nd,
      nbs !! i = Some l -> x ∈ l -> h !! x = Some nd ->
      hash a b char_signed (key nd) newm = Ok (Z.of_nat i)
}.

(** [owns h0 s bs]: the heap of [s] is the heap [h0] together with the
    nodes [bs] of the table, and these are not in [h0]. *)
Definition owns (a b : Z) (char_signed : bool) (h0 : gmap addr node_t)
    (s : state) (bs : list (list addr)) : Prop :=
  Repr a b char_signed s bs
  /\ (forall z, z ∉ concat bs -> heap s !! z = h0 !! z)
  /\ (forall z, z ∈ concat bs -> h0 !! z = None).

(** The tables built, through the interface, in a process whose heap
    held the nodes [h0] when the table was made. *)
Inductive built (a b : Z) (char_signed : bool) (stale : nat -> ptr)
    (node_alloc : gmap addr node_t -> addr) (h0 : gmap addr node_t)
    : state -> Prop :=
| built_new : built a b char_signed stale node_alloc h0 (new_hash_table h0)
| built_insert s k v s' :
    built a b char_signed stale node_alloc h0 s ->
    hash_insert a b char_signed stale node_alloc k v s = Ok (tt, s') ->
    built a b char_signed stale node_alloc h0 s'
| built_remove s k s' :
    built a b char_signed stale node_alloc h0 s ->
    hash_remove a b char_signed stale k s = Ok (tt, s') ->
    built a b char_signed stale node_alloc h0 s'.

(** ** Concrete tables to run the operations on *)

(** An environment to run the operations in: [a = 3], [b = 5], signed
    [char], and a [malloc] that gives each new node the first address
    that holds no live node.  The bucket arrays it hands out read as
    empty ([zeroed]), hold a stale word in every cell ([garbage]), or
    are clean in their first sixteen cells only ([late_garbage]). *)
Definition zeroed : nat -> ptr := fun _ => None.
Definition garbage : nat -> ptr := fun _ => Some 99%positive.
Definition late_garbage : nat -> ptr :=
  fun i => if (i <? 16)%nat then None else Some 99%positive.
Definition first_fit (h : gmap addr node_t) : addr := fresh (dom h).

(** Calls of the two operations that change a table, and sequences of
    them. *)
Inductive op : Type :=
| Insert (k v : string)
| Remove (k : string).

Definition step (stale : nat -> ptr) (o : op) : M unit :=
  match o with
  | Insert k v => hash_insert 3 5 true stale first_fit k v
  | Remove k => hash_remove 3 5 true stale k
  end.

Fixpoint run (stale : nat -> ptr) (ops : list op) : M unit :=
  match ops with
  | [] => mret tt
  | o :: ops' => step stale o;; run stale ops'
  end.

(** The state a new table is in after the calls [ops]. *)
Definition state_after (stale : nat -> ptr) (ops : list op) : state :=
  match run stale ops (new_hash_table ∅) with
  | Ok (_, s) => s
  | Fault _ => new_hash_table ∅
  end.

(** Seventeen keys, one more than [MIN_TABLE_SIZE], each inserted with
    itself for value. *)
Definition keys17 : list string :=
  ["a"; "b"; "c"; "d"; "e"; "f"; "g"; "h"; "i"; "j"; "k"; "l"; "m"; "n";
   "o"; "p"; "q"]%string.
Definition inserts (cnt : nat) : list op :=
  (fun k => Insert k k) <$> take cnt keys17.

Definition table16 : state := state_after zeroed (inserts 16).
Definition table17 : state := state_after zeroed (inserts 17).

(** What a call does to the finite map a table holds. *)
Definition apply_op (o : op) (M : gmap string string) : gmap string string :=
  match o with
  | Insert k v => <[k := v]> M
  | Remove k => delete k M
  end.

(** The finite map after the calls [ops], from the map [M]. *)
Fixpoint apply_ops (ops : list op) (M : gmap string string)
    : gmap string string :=
  match ops with
  | [] => M
  | o :: ops' => apply_ops ops' (apply_op o M)
  end.

(** A heap that holds a node of another owner before the table is
    made, and the table of seventeen keys less one made in it. *)
Definition guest_heap : gmap addr node_t :=
  {[ 7%positive := Node (Some 9%positive) None "guest" "node" ]}.

Definition guest_table : state :=
  match run zeroed (inserts 17 ++ [Remove "c"]) (new_hash_table guest_heap)
  with
  | Ok (_, s) => s
  | Fault _ => new_hash_table guest_heap
  end.

(** Eighteen insertions and one removal: the removal has halved the
    bucket array of a table that holds seventeen keys. *)
Definition table_overfull : state :=
  state_after zeroed (inserts 17 ++ [Insert "r" "r"; Remove "a"]).

(** A block whose every cell holds the address 8: the address
    [first_fit] gives the first node in a heap that holds one node at
    7, so a word left behind by an earlier use of that memory. *)
Definition recycled : nat -> ptr := fun _ => Some 8%positive.

(** A block that holds what the bucket array of [table16] held: the
    array that the doubling has freed, handed out again. *)
Definition old_array : nat -> ptr :=
  fun i => default None (table (ht table16) !! i).

(** The table after one insertion into a new table whose bucket array
    came with the address of the new node in every cell. *)
Definition stained_table : state :=
  match hash_insert 3 5 true recycled first_fit "a" "1"
          (new_hash_table guest_heap)
  with
  | Ok (_, s) => s
  | Fault _ => new_hash_table guest_heap
  end.

(** * Properties *)

(** ** The hash function *)

Lemma wrap64_range z : - 2 ^ 63 <= wrap64 z < 2 ^ 63.
Proof.
  unfold wrap64.
  pose proof (Z.mod_pos_bound (z + 2 ^ 63) (2 ^ 64) ltac:(lia)). lia.
Qed.

Lemma wrap64_id z : - 2 ^ 63 <= z < 2 ^ 63 -> wrap64 z = z.
Proof.
  intros Hz. unfold wrap64. rewrite Z.mod_small; lia.
Qed.

Lemma wrap64_add_l x y : wrap64 (wrap64 x + y) = wrap64 (x + y).
Proof.
  unfold wrap64.
  replace (x + 2 ^ 63) with (x + 2 ^ 63 + 0) by lia.
  f_equal.
  replace ((x + 2 ^ 63 + 0) mod 2 ^ 64 - 2 ^ 63 + y + 2 ^ 63)
    with ((x + 2 ^ 63) mod 2 ^ 64 + y) by (rewrite Z.add_0_r; lia).
  rewrite Zplus_mod_idemp_l. f_equal. lia.
Qed.

(** The loop of [mod] leaves a non-negative [x] alone and brings a
    negative one to its residue. *)
Lemma mod_loop_pos x y :
  0 < y -> mod_loop x y = Ok (if Z_lt_dec x 0 then x mod y else x).
Proof.
  intros Hy. funelim (mod_loop x y); try lia.
  - destruct (Z_lt_dec x 0); [lia | reflexivity].
  - rewrite H by assumption. rewrite Heq0.
    f_equal.
    destruct (Z_lt_dec (x + y) 0).
    + rewrite <- (Z_mod_plus_full x 1 y). f_equal. lia.
    + rewrite <- (Z_mod_plus_full x 1 y), Z.mod_small; lia.
Qed.

Lemma mod_loop_nonneg x y : 0 <= x -> mod_loop x y = Ok x.
Proof.
  intros Hx. funelim (mod_loop x y); try lia. reflexivity.
Qed.

(** For a positive modulus [mod] is the mathematical residue. *)
Lemma mod_c_pos x y : 0 < y -> mod_c x y = Ok (x mod y).
Proof.
  intros Hy. unfold mod_c. rewrite mod_loop_pos by assumption.
  destruct (Z.eqb_spec y 0); [lia | ].
  f_equal.
  destruct (Z_lt_dec x 0).
  - pose proof (Z.mod_pos_bound x y Hy).
    rewrite Z.rem_mod_nonneg by lia. apply Z.mod_mod. lia.
  - apply Z.rem_mod_nonneg; lia.
Qed.

Lemma mod_c_zero x : 0 <= x -> mod_c x 0 = Fault DivByZero.
Proof.
  intros Hx. unfold mod_c. rewrite mod_loop_nonneg by assumption.
  reflexivity.
Qed.

Section HashFacts.

Variables (a b : Z) (char_signed : bool).

#[local] Abbreviation hash_formula := (hash_formula a b char_signed).

Lemma hash_pos str m :
  0 < m -> hash a b char_signed str m = Ok (hash_formula str m).
Proof.
  intros Hm. unfold hash, hash_formula.
  rewrite wrap64_add_l.
  rewrite mod_c_pos by (unfold p; lia).
  apply mod_c_pos. assumption.
Qed.

Lemma hash_formula_range str m : 0 < m -> 0 <= hash_formula str m < m.
Proof. intros Hm. apply Z.mod_pos_bound. assumption. Qed.

Lemma hash_zero str : hash a b char_signed str 0 = Fault DivByZero.
Proof.
  unfold hash. rewrite mod_c_pos by (unfold p; lia).
  apply mod_c_zero. apply Z.mod_pos_bound. unfold p. lia.
Qed.

(** C9.  For every key and every [m > 0], [hash(key, m)] returns
    [((a * prehash(key) + b) mod p) mod m] and the value returned
    lies in [[0, m)].  The product and the sum are those the code
    computes, in [int64_t]; where they do not leave its range the
    formula is the one over the integers.  [mod] is the residue
    that is never negative, whatever the sign of its operand. *)
Theorem hash_value_and_range :
  forall (str : string) (m : Z),
    0 < m ->
    hash a b char_signed str m
      = Ok ((wrap64 (a * prehash char_signed str + b) mod p) mod m)
    /\ 0 <= (wrap64 (a * prehash char_signed str + b) mod p) mod m < m
    /\ (- 2 ^ 63 <= a * prehash char_signed str + b < 2 ^ 63 ->
        hash a b char_signed str m
        = Ok (((a * prehash char_signed str + b) mod p) mod m))
    /\ (forall x y, 0 < y -> mod_c x y = Ok (x mod y) /\ 0 <= x mod y < y).
Proof.
  intros str m Hm. split; [ | split; [ | split]].
  - apply hash_pos. assumption.
  - apply hash_formula_range. assumption.
  - intros Hfit. rewrite hash_pos by assumption. unfold hash_formula.
    rewrite wrap64_id by assumption. reflexivity.
  - intros x y Hy. split; [apply mod_c_pos | apply Z.mod_pos_bound];
      assumption.
Qed.

End HashFacts.

(** ** Running computations *)

Lemma run_bind {A B} (c : M A) (f : A -> M B) s :
  (c ≫= f) s
  = match c s with Ok (x, s') => f x s' | Fault e => Fault e end.
Proof. reflexivity. Qed.

Lemma run_bind_ok {A B} (c : M A) (f : A -> M B) s x s' :
  c s = Ok (x, s') -> (c ≫= f) s = f x s'.
Proof. intros H. rewrite run_bind, H. reflexivity. Qed.

Lemma bind_inv {A B} (c : M A) (f : A -> M B) s y s2 :
  (c ≫= f) s = Ok (y, s2) ->
  exists x s1, c s = Ok (x, s1) /\ f x s1 = Ok (y, s2).
Proof.
  rewrite run_bind. destruct (c s) as [[x s1] | e]; [ | discriminate].
  intros H. exists x, s1. split; [reflexivity | assumption].
Qed.

Lemma lift_inv {A} (r : result A) s x s' :
  lift r s = Ok (x, s') -> r = Ok x /\ s' = s.
Proof. destruct r; simpl; intros H; inversion H; auto. Qed.

Lemma int_range_inv z s x s' :
  int_range z s = Ok (x, s') -> x = z /\ s' = s /\ INT_MIN <= z <= INT_MAX.
Proof.
  unfold int_range.
  destruct (Z.ltb_spec z INT_MIN), (Z.ltb_spec INT_MAX z); simpl;
    intros Hr; inversion Hr; subst; repeat split; lia.
Qed.

Lemma int_range_ok z s :
  INT_MIN <= z <= INT_MAX -> int_range z s = Ok (z, s).
Proof.
  intros Hz. unfold int_range.
  destruct (Z.ltb_spec z INT_MIN), (Z.ltb_spec INT_MAX z); simpl;
    try lia; reflexivity.
Qed.

Section Preserves.

Context (P : relation state) {HP : PreOrder P}.

Lemma preserves_ret {A} (x : A) : preserves P (mret x).
Proof. intros s y s' H. inversion H. reflexivity. Qed.

Lemma preserves_throw {A} e : preserves P (@throw A e).
Proof. intros s y s' H. discriminate. Qed.

Lemma preserves_gets {A} (f : state -> A) : preserves P (gets f).
Proof. intros s y s' H. inversion H. reflexivity. Qed.

Lemma preserves_lift {A} (r : result A) : preserves P (lift r).
Proof. intros s y s' H. apply lift_inv in H as [_ ->]. reflexivity. Qed.

Lemma preserves_load q : preserves P (load q).
Proof.
  intros s y s' H. unfold load in H.
  destruct q as [x | ]; [ | discriminate].
  destruct (heap s !! x); inversion H. reflexivity.
Qed.

Lemma preserves_bind {A B} (c : M A) (f : A -> M B) :
  preserves P c -> (forall x, preserves P (f x)) -> preserves P (c ≫= f).
Proof.
  intros Hc Hf s y s2 H.
  apply bind_inv in H as (x & s1 & H1 & H2).
  transitivity s1; [eapply Hc | eapply Hf]; eassumption.
Qed.

Lemma preserves_int_range z : preserves P (int_range z).
Proof.
  intros s y s' H. apply int_range_inv in H as (_ & -> & _). reflexivity.
Qed.

End Preserves.

#[local] Instance same_ht_preorder : PreOrder same_ht.
Proof.
  split; [intros s; reflexivity | ].
  intros s1 s2 s3 H12 H23. unfold same_ht in *. congruence.
Qed.

#[local] Instance eq_state_preorder : PreOrder (@eq state).
Proof. split; [intros s; reflexivity | intros s1 s2 s3; congruence]. Qed.

Lemma preserves_store q nd : preserves same_ht (store q nd).
Proof.
  intros s y s' H. unfold store in H.
  destruct q as [x | ]; [ | discriminate].
  destruct (heap s !! x); inversion H. reflexivity.
Qed.

(** Goals [preserves P c] are settled along the structure of [c]. *)
Create HintDb pres discriminated.

#[local] Hint Resolve preserves_ret preserves_throw preserves_gets
  preserves_lift preserves_load preserves_int_range preserves_store : pres.

Ltac pres_step :=
  match goal with
  | |- preserves _ (_ ≫= _) =>
      apply preserves_bind; [ typeclasses eauto | | intros ? ]
  | |- preserves _ (match ?q with _ => _ end) => destruct q
  | |- preserves _ _ => solve [ auto with pres typeclass_instances ]
  end.
Ltac pres := repeat pres_step.

Lemma preserves_set_next q v : preserves same_ht (set_next q v).
Proof. unfold set_next. pres. Qed.
Lemma preserves_set_prev q v : preserves same_ht (set_prev q v).
Proof. unfold set_prev. pres. Qed.
Lemma preserves_set_value q w : preserves same_ht (set_value q w).
Proof. unfold set_value. pres. Qed.
Lemma preserves_get_m P `{!PreOrder P} : preserves P get_m.
Proof. apply preserves_gets. assumption. Qed.
Lemma preserves_get_n P `{!PreOrder P} : preserves P get_n.
Proof. apply preserves_gets. assumption. Qed.
Lemma preserves_get_next P `{!PreOrder P} q : preserves P (get_next q).
Proof. unfold get_next. pres. Qed.
Lemma preserves_get_prev P `{!PreOrder P} q : preserves P (get_prev q).
Proof. unfold get_prev. pres. Qed.

#[local] Hint Resolve preserves_set_next preserves_set_prev
  preserves_set_value preserves_get_next preserves_get_prev
  preserves_get_m preserves_get_n : pres.

Lemma preserves_weaken {A} (P Q : relation state) (c : M A) :
  (forall s s', P s s' -> Q s s') -> preserves P c -> preserves Q c.
Proof. intros HPQ Hc s x s' Hrun. apply HPQ. exact (Hc s x s' Hrun). Qed.

#[local] Instance same_m_preorder : PreOrder same_m.
Proof.
  split; [intros s; reflexivity | ].
  intros s1 s2 s3 H12 H23. unfold same_m in *. congruence.
Qed.

Lemma same_ht_same_m {A} (c : M A) :
  preserves same_ht c -> preserves same_m c.
Proof.
  apply preserves_weaken. unfold same_ht, same_m. intros s s' ->. reflexivity.
Qed.

Lemma preserves_modify (P : relation state) f :
  (forall s, P s (f s)) -> preserves P (modify f).
Proof. intros Hf s x s' Hrun. inversion Hrun. apply Hf. Qed.

Lemma preserves_put_n z : preserves same_m (put_n z).
Proof. apply preserves_modify. reflexivity. Qed.

Lemma preserves_put_table t : preserves same_m (put_table t).
Proof. apply preserves_modify. reflexivity. Qed.

Lemma preserves_table_set i v : preserves same_m (table_set i v).
Proof. unfold table_set. pres. apply preserves_put_table. Qed.

Lemma preserves_table_get P `{!PreOrder P} i : preserves P (table_get i).
Proof. unfold table_get. pres. Qed.

#[local] Hint Resolve preserves_put_n preserves_put_table preserves_table_set
  preserves_table_get : pres.
#[local] Hint Extern 5 (preserves same_m _) =>
  apply same_ht_same_m; solve [auto with pres] : pres.

Section Frame.

Variables (a b : Z) (char_signed : bool).
Variable stale : nat -> ptr.
Variable node_alloc : gmap addr node_t -> addr.

#[local] Abbreviation hash := (hash a b char_signed).
#[local] Abbreviation hash_search_node := (hash_search_node a b char_signed).
#[local] Abbreviation hash_search := (hash_search a b char_signed).
#[local] Abbreviation hash_contains := (hash_contains a b char_signed).
#[local] Abbreviation rehash_list := (rehash_list a b char_signed).
#[local] Abbreviation rehash_table := (rehash_table a b char_signed).
#[local] Abbreviation resize_hash_table := (resize_hash_table a b char_signed stale).
#[local] Abbreviation grow_hash_table := (grow_hash_table a b char_signed stale).
#[local] Abbreviation shrink_hash_table := (shrink_hash_table a b char_signed stale).
#[local] Abbreviation hash_insert := (hash_insert a b char_signed stale node_alloc).
#[local] Abbreviation hash_remove := (hash_remove a b char_signed stale).

(** *** Lookups only read *)

Lemma search_list_reads fuel q k : preserves eq (search_list fuel q k).
Proof.
  revert q. induction fuel as [ | fuel IH]; intros [x | ]; simpl; pres.
Qed.

#[local] Hint Resolve search_list_reads : pres.

Lemma hash_search_node_reads k : preserves eq (hash_search_node k).
Proof. unfold hash_search_node. pres. Qed.

#[local] Hint Resolve hash_search_node_reads : pres.

Lemma hash_search_reads k : preserves eq (hash_search k).
Proof. unfold hash_search. pres. Qed.

Lemma hash_contains_reads k : preserves eq (hash_contains k).
Proof. unfold hash_contains. pres. Qed.

(** *** What the operations do to [m] *)

Lemma rehash_list_ht fuel newm q t :
  preserves same_ht (rehash_list fuel newm q t).
Proof.
  revert q t. induction fuel as [ | fuel IH]; intros [x | ] t; simpl; pres.
Qed.

#[local] Hint Resolve rehash_list_ht : pres.

Lemma rehash_table_ht cnt l newm t :
  preserves same_ht (rehash_table cnt l newm t).
Proof.
  revert l t. induction cnt as [ | cnt IH]; intros l t; simpl; pres.
Qed.

Lemma resize_m newm s u s' :
  resize_hash_table newm s = Ok (u, s') ->
  m (ht s') = newm /\ n (ht s') = n (ht s).
Proof.
  unfold resize_hash_table. intros Hrun.
  apply bind_inv in Hrun as (m0 & s1 & H1 & Hrun). inversion H1; subst.
  apply bind_inv in Hrun as (t' & s2 & H2 & Hrun).
  apply rehash_table_ht in H2. unfold same_ht in H2.
  apply bind_inv in Hrun as ([] & s3 & H3 & Hrun).
  inversion H3; subst. inversion Hrun; subst. simpl.
  rewrite H2. auto.
Qed.

Lemma grow_m s u s' :
  grow_hash_table s = Ok (u, s') ->
  n (ht s') = n (ht s) /\
  (m (ht s) = 0 /\ m (ht s') = MIN_TABLE_SIZE
   \/ m (ht s) <> 0 /\ m (ht s') = 2 * m (ht s) /\ 2 * m (ht s) <= INT_MAX).
Proof.
  unfold grow_hash_table. intros Hrun.
  apply bind_inv in Hrun as (m0 & s1 & H1 & Hrun). inversion H1; subst.
  destruct (Z.eqb_spec (m (ht s1)) 0) as [Hz | Hnz].
  - inversion Hrun; subst. simpl. auto.
  - apply bind_inv in Hrun as (newm & s2 & H2 & Hrun).
    apply int_range_inv in H2 as (-> & -> & Hr).
    apply resize_m in Hrun as [-> ->]. split; [reflexivity | ].
    right. repeat split; [assumption | lia].
Qed.

Lemma shrink_m s u s' :
  shrink_hash_table s = Ok (u, s') ->
  n (ht s') = n (ht s) /\
  m (ht s') = (if m (ht s) <? MIN_TABLE_SIZE * 2 then m (ht s)
               else Z.quot (m (ht s)) 2).
Proof.
  unfold shrink_hash_table. intros Hrun.
  apply bind_inv in Hrun as (m0 & s1 & H1 & Hrun). inversion H1; subst.
  destruct (m (ht s1) <? MIN_TABLE_SIZE * 2).
  - inversion Hrun; subst. auto.
  - apply resize_m in Hrun. tauto.
Qed.

Lemma new_hash_node_ht k v : preserves same_ht (new_hash_node node_alloc k v).
Proof. intros s x s' Hrun. inversion Hrun. reflexivity. Qed.

Lemma free_hash_node_ht q : preserves same_ht (free_hash_node q).
Proof.
  unfold free_hash_node. destruct q; pres.
  apply preserves_modify. reflexivity.
Qed.

#[local] Hint Resolve new_hash_node_ht free_hash_node_ht : pres.

Lemma hash_insert_m k v s u s' :
  hash_insert k v s = Ok (u, s') ->
  m (ht s') = m (ht s)
  \/ m (ht s) = 0 /\ m (ht s') = MIN_TABLE_SIZE
  \/ m (ht s) <> 0 /\ m (ht s') = 2 * m (ht s) /\ 2 * m (ht s) <= INT_MAX.
Proof.
  unfold hash_insert. intros Hrun.
  apply bind_inv in Hrun as (found & s1 & H1 & Hrun).
  apply hash_search_node_reads in H1 as <-.
  destruct found as [x | ].
  { left. apply preserves_set_value in Hrun. unfold same_ht in Hrun.
    congruence. }
  apply bind_inv in Hrun as (n0 & s1 & H1 & Hrun). inversion H1; subst.
  apply bind_inv in Hrun as (m0 & s2 & H2 & Hrun). inversion H2; subst.
  apply bind_inv in Hrun as ([] & s3 & H3 & Hrun).
  assert (Htail : m (ht s') = m (ht s3)).
  { match type of Hrun with ?c _ = _ =>
      assert (Hp : preserves same_m c) by pres end.
    exact (Hp _ _ _ Hrun). }
  rewrite Htail.
  destruct (n (ht s2) =? m (ht s2)).
  - apply grow_m in H3 as [_ H3]. tauto.
  - inversion H3; subst. auto.
Qed.

Lemma hash_remove_m k s u s' :
  hash_remove k s = Ok (u, s') ->
  m (ht s') = m (ht s)
  \/ MIN_TABLE_SIZE * 2 <= m (ht s) /\ m (ht s') = Z.quot (m (ht s)) 2.
Proof.
  unfold hash_remove. intros Hrun.
  apply bind_inv in Hrun as (q0 & s1 & H1 & Hrun).
  apply hash_search_node_reads in H1 as <-.
  destruct q0 as [x | ]; [ | inversion Hrun; auto].
  apply bind_inv in Hrun as (n0 & s1 & H1 & Hrun). inversion H1; subst.
  apply bind_inv in Hrun as (m0 & s2 & H2 & Hrun). inversion H2; subst.
  apply bind_inv in Hrun as (q & s3 & H3 & Hrun).
  assert (Htail : m (ht s') = m (ht s3)).
  { match type of Hrun with ?c _ = _ =>
      assert (Hp : preserves same_m c) by pres end.
    exact (Hp _ _ _ Hrun). }
  rewrite Htail.
  destruct (Z.quot (n (ht s2)) 4 <=? m (ht s2)).
  - apply bind_inv in H3 as ([] & s4 & H3 & H4).
    apply hash_search_node_reads in H4 as <-.
    apply shrink_m in H3 as [_ ->].
    destruct (Z.ltb_spec (m (ht s2)) (MIN_TABLE_SIZE * 2)); auto.
  - inversion H3; subst. auto.
Qed.

End Frame.

(** ** Chains and the representation of a table *)

Lemma dll_ext h h' pv q l :
  (forall x nd, x ∈ l -> h !! x = Some nd ->
     exists nd', h' !! x = Some nd' /\ next nd' = next nd
                 /\ prev nd' = prev nd) ->
  dll h pv q l -> dll h' pv q l.
Proof.
  revert pv q. induction l as [ | x l IH]; intros pv q Hext; simpl; [auto | ].
  intros (-> & nd & Hx & Hpv & Hl).
  split; [reflexivity | ].
  destruct (Hext x nd) as (nd' & Hx' & Hn & Hp); [left | assumption | ].
  exists nd'. rewrite Hn, Hp. repeat split; try assumption.
  apply IH; [ | assumption].
  intros y ny Hy. apply Hext. right. assumption.
Qed.

Lemma dll_in_heap h pv q l x : dll h pv q l -> x ∈ l -> is_Some (h !! x).
Proof.
  revert pv q. induction l as [ | y l IH]; intros pv q; simpl.
  - intros _ Hx. inversion Hx.
  - intros (-> & nd & Hy & _ & Hl) Hx.
    apply elem_of_cons in Hx as [-> | Hx]; [eauto | ].
    eapply IH; eassumption.
Qed.

Lemma dll_head h pv q l : dll h pv q l -> q = head l.
Proof. destruct l; simpl; [auto | intros [-> _]; reflexivity]. Qed.

(** A list of distinct live addresses is no longer than the heap is
    large. *)
Lemma length_le_size (h : gmap addr node_t) (l : list addr) :
  NoDup l -> (forall x, x ∈ l -> is_Some (h !! x)) ->
  (length l <= size h)%nat.
Proof.
  intros Hnd Hin.
  rewrite <- (size_list_to_set (C := gset addr) l Hnd), <- size_dom.
  apply subseteq_size. intros x Hx.
  apply elem_of_list_to_set in Hx. apply elem_of_dom. auto.
Qed.

Lemma find_key_Some h k l x :
  find_key h k l = Some x ->
  x ∈ l /\ exists nd, h !! x = Some nd /\ key nd = k.
Proof.
  induction l as [ | y l IH]; simpl; [discriminate | ].
  destruct (h !! y) as [ny | ] eqn:Hy; [ | discriminate].
  destruct (String.eqb_spec (key ny) k) as [Hk | Hk].
  - intros [= <-]. split; [left | eauto].
  - intros Hf. destruct (IH Hf) as [Hin Hnd]. split; [right | ]; assumption.
Qed.

Lemma find_key_None h k l :
  (forall x, x ∈ l -> is_Some (h !! x)) ->
  find_key h k l = None ->
  forall x nd, x ∈ l -> h !! x = Some nd -> key nd <> k.
Proof.
  induction l as [ | y l IH]; simpl; intros Hin Hf x nd Hx Hnd.
  - inversion Hx.
  - destruct (Hin y) as [ny Hy]; [left | ]. rewrite Hy in Hf.
    destruct (String.eqb_spec (key ny) k) as [Hk | Hk]; [discriminate | ].
    apply elem_of_cons in Hx as [-> | Hx]; [congruence | ].
    eapply IH; try eassumption.
    intros z Hz. apply Hin. right. assumption.
Qed.

(** *** Primitive steps on a known state *)

Lemma load_ok s x nd : heap s !! x = Some nd -> load (Some x) s = Ok (nd, s).
Proof. intros H. unfold load. rewrite H. reflexivity. Qed.

Lemma store_ok s x nd nd' :
  heap s !! x = Some nd ->
  store (Some x) nd' s = Ok (tt, with_heap (<[x := nd']> (heap s)) s).
Proof. intros H. unfold store. rewrite H. reflexivity. Qed.

Lemma get_next_ok s x nd :
  heap s !! x = Some nd -> get_next (Some x) s = Ok (next nd, s).
Proof.
  intros H. unfold get_next. rewrite (run_bind_ok _ _ _ _ _ (load_ok _ _ _ H)).
  reflexivity.
Qed.

Lemma get_prev_ok s x nd :
  heap s !! x = Some nd -> get_prev (Some x) s = Ok (prev nd, s).
Proof.
  intros H. unfold get_prev. rewrite (run_bind_ok _ _ _ _ _ (load_ok _ _ _ H)).
  reflexivity.
Qed.

Lemma set_next_ok s x nd v :
  heap s !! x = Some nd ->
  set_next (Some x) v s
  = Ok (tt, with_heap (<[x := Node v (prev nd) (key nd) (value nd)]> (heap s)) s).
Proof.
  intros H. unfold set_next. rewrite (run_bind_ok _ _ _ _ _ (load_ok _ _ _ H)).
  eapply store_ok. eassumption.
Qed.

Lemma set_prev_ok s x nd v :
  heap s !! x = Some nd ->
  set_prev (Some x) v s
  = Ok (tt, with_heap (<[x := Node (next nd) v (key nd) (value nd)]> (heap s)) s).
Proof.
  intros H. unfold set_prev. rewrite (run_bind_ok _ _ _ _ _ (load_ok _ _ _ H)).
  eapply store_ok. eassumption.
Qed.

Lemma set_value_ok s x nd v :
  heap s !! x = Some nd ->
  set_value (Some x) v s
  = Ok (tt, with_heap (<[x := Node (next nd) (prev nd) (key nd) v]> (heap s)) s).
Proof.
  intros H. unfold set_value. rewrite (run_bind_ok _ _ _ _ _ (load_ok _ _ _ H)).
  eapply store_ok. eassumption.
Qed.

Lemma array_get_ok (t : list ptr) (i : nat) v :
  t !! i = Some v -> array_get t (Z.of_nat i) = Ok v.
Proof.
  intros H. unfold array_get. pose proof (lookup_lt_Some _ _ _ H).
  destruct (Z.ltb_spec (Z.of_nat i) 0); [lia | ].
  destruct (Z.leb_spec (Z.of_nat (length t)) (Z.of_nat i)); [lia | ].
  simpl. rewrite Nat2Z.id, H. reflexivity.
Qed.

Lemma array_set_ok (t : list ptr) (i : nat) v :
  (i < length t)%nat ->
  array_set t (Z.of_nat i) v = Ok (<[i := v]> t).
Proof.
  intros H. unfold array_set.
  destruct (Z.ltb_spec (Z.of_nat i) 0); [lia | ].
  destruct (Z.leb_spec (Z.of_nat (length t)) (Z.of_nat i)); [lia | ].
  simpl. rewrite Nat2Z.id. reflexivity.
Qed.

Lemma table_get_ok s (i : nat) v :
  table (ht s) !! i = Some v -> table_get (Z.of_nat i) s = Ok (v, s).
Proof.
  intros H. unfold table_get. rewrite run_bind. simpl.
  rewrite (array_get_ok _ _ _ H). reflexivity.
Qed.

Lemma table_set_ok s (i : nat) v :
  (i < length (table (ht s)))%nat ->
  table_set (Z.of_nat i) v s
  = Ok (tt, with_table (<[i := v]> (table (ht s))) s).
Proof.
  intros H. unfold table_set. rewrite run_bind. simpl.
  rewrite run_bind, (array_set_ok _ _ _ H). reflexivity.
Qed.

(** The loop of [hash_search_node] finds the first node of the chain
    that carries the key. *)
Lemma search_list_ok s pv q l k fuel :
  dll (heap s) pv q l -> (length l <= fuel)%nat ->
  search_list fuel q k s = Ok (find_key (heap s) k l, s).
Proof.
  revert pv q fuel. induction l as [ | x l IH]; intros pv q fuel; simpl.
  - intros -> _. destruct fuel; reflexivity.
  - intros (-> & nd & Hx & _ & Hl) Hfuel.
    destruct fuel as [ | fuel]; [lia | ]. simpl.
    rewrite (run_bind_ok _ _ _ _ _ (load_ok _ _ _ Hx)), Hx.
    destruct (String.eqb (key nd) k); [reflexivity | ].
    eapply IH; [eassumption | lia].
Qed.

(** *** Buckets side by side *)

Lemma elem_of_concat {A} (x : A) (bs : list (list A)) :
  x ∈ concat bs <-> exists i l, bs !! i = Some l /\ x ∈ l.
Proof.
  rewrite list_elem_of_In, in_concat. split.
  - intros (l & Hl & Hx). apply list_elem_of_In, list_elem_of_lookup in Hl.
    destruct Hl as [i Hi]. exists i, l. split; [assumption | ].
    apply list_elem_of_In. assumption.
  - intros (i & l & Hi & Hx). exists l. split.
    + apply list_elem_of_In, list_elem_of_lookup. eauto.
    + apply list_elem_of_In. assumption.
Qed.

Lemma concat_lookup_split {A} (bs : list (list A)) i l :
  bs !! i = Some l ->
  concat bs = concat (take i bs) ++ l ++ concat (drop (S i) bs).
Proof.
  intros Hi. rewrite <- (take_drop_middle bs i l Hi) at 1.
  rewrite concat_app. reflexivity.
Qed.

Lemma concat_insert {A} (bs : list (list A)) i l l' :
  bs !! i = Some l ->
  concat (<[i := l']> bs) = concat (take i bs) ++ l' ++ concat (drop (S i) bs).
Proof.
  intros Hi. rewrite insert_take_drop by (eapply lookup_lt_Some; eassumption).
  rewrite concat_app. reflexivity.
Qed.

Lemma concat_insert_cons {A} (bs : list (list A)) i l x :
  bs !! i = Some l -> concat (<[i := x :: l]> bs) ≡ₚ x :: concat bs.
Proof.
  intros Hi. rewrite (concat_insert _ _ _ _ Hi), (concat_lookup_split _ _ _ Hi).
  simpl. symmetry. apply Permutation_middle.
Qed.

Lemma concat_insert_remove {A} (bs : list (list A)) i l1 l2 x :
  bs !! i = Some (l1 ++ x :: l2) ->
  x :: concat (<[i := l1 ++ l2]> bs) ≡ₚ concat bs.
Proof.
  intros Hi. rewrite (concat_insert _ _ _ _ Hi), (concat_lookup_split _ _ _ Hi).
  rewrite Permutation_middle. apply Permutation_app_head.
  rewrite <- !app_assoc. simpl. rewrite Permutation_middle.
  reflexivity.
Qed.

Lemma NoDup_concat_lookup {A} (bs : list (list A)) i l :
  NoDup (concat bs) -> bs !! i = Some l -> NoDup l.
Proof.
  intros Hnd Hi. rewrite (concat_lookup_split _ _ _ Hi) in Hnd.
  apply NoDup_app in Hnd as (_ & _ & Hnd).
  apply NoDup_app in Hnd as (Hnd & _). assumption.
Qed.

Lemma NoDup_concat_disjoint {A} (bs : list (list A)) i j l l' x :
  NoDup (concat bs) -> bs !! i = Some l -> bs !! j = Some l' ->
  x ∈ l -> x ∈ l' -> i = j.
Proof.
  revert i j. induction bs as [ | l0 bs IH]; intros i j Hnd Hi Hj Hx Hx'.
  - rewrite lookup_nil in Hi. discriminate.
  - simpl in Hnd. apply NoDup_app in Hnd as (_ & Hdisj & Hnd).
    destruct i as [ | i], j as [ | j]; simpl in Hi, Hj.
    + reflexivity.
    + injection Hi as <-. exfalso. apply (Hdisj x Hx).
      apply elem_of_concat. eauto.
    + injection Hj as <-. exfalso. apply (Hdisj x Hx').
      apply elem_of_concat. eauto.
    + f_equal. eapply IH; eassumption.
Qed.

Lemma concat_replicate_nil {A} (k : nat) : concat (replicate k (@nil A)) = [].
Proof. induction k; simpl; auto. Qed.

(** *** Searching a well-formed table *)

Section Representation.

Variables (a b : Z) (char_signed : bool).

#[local] Abbreviation routed := (routed a b char_signed).
#[local] Abbreviation Repr := (Repr a b char_signed).
#[local] Abbreviation hash := (hash a b char_signed).
#[local] Abbreviation hash_search_node := (hash_search_node a b char_signed).
#[local] Abbreviation hash_search := (hash_search a b char_signed).
#[local] Abbreviation hash_contains := (hash_contains a b char_signed).

Lemma chains_in_heap h t bs x :
  chains h t bs -> x ∈ concat bs -> is_Some (h !! x).
Proof.
  intros Hch Hx. apply elem_of_concat in Hx as (i & l & Hi & Hx).
  destruct (Forall2_lookup_r _ _ _ _ _ Hch Hi) as (q & _ & Hq).
  eapply dll_in_heap; eassumption.
Qed.

Lemma node_for_unique h L k q q' :
  unique_keys h L -> (forall x, x ∈ L -> is_Some (h !! x)) ->
  node_for h L k q -> node_for h L k q' -> q = q'.
Proof.
  intros Hu Hin. destruct q as [x | ], q' as [y | ]; simpl.
  - intros (Hx & nx & Hnx & Hkx) (Hy & ny & Hny & Hky).
    f_equal. eapply Hu; try eassumption. congruence.
  - intros (Hx & nx & Hnx & Hkx) Hno. destruct (Hno x nx Hx Hnx Hkx).
  - intros Hno (Hy & ny & Hny & Hky). destruct (Hno y ny Hy Hny Hky).
  - reflexivity.
Qed.

Lemma stored_unique h L k r r' :
  unique_keys h L -> stored h L k r -> stored h L k r' -> r = r'.
Proof.
  intros Hu. destruct r as [v | ], r' as [v' | ]; simpl.
  - intros (x & nx & Hx & Hnx & Hkx & Hvx) (y & ny & Hy & Hny & Hky & Hvy).
    assert (x = y) by (eapply Hu; try eassumption; congruence).
    subst y. congruence.
  - intros (x & nx & Hx & Hnx & Hkx & _) Hno.
    destruct (Hno x nx Hx Hnx Hkx).
  - intros Hno (y & ny & Hy & Hny & Hky & _).
    destruct (Hno y ny Hy Hny Hky).
  - reflexivity.
Qed.

(** [hash_search_node] on a well-formed table: it returns, changes
    nothing, and its result is the node that carries the key. *)
Lemma hash_search_node_ok s bs k :
  Repr s bs ->
  exists q, hash_search_node k s = Ok (q, s)
            /\ node_for (heap s) (concat bs) k q.
Proof.
  intros [Hlen _ Hch Hnd Hrt _ _].
  unfold hash_search_node. rewrite run_bind. simpl.
  destruct (Z.eqb_spec (m (ht s)) 0) as [Hz | Hnz].
  - exists None. split; [reflexivity | ].
    assert (bs = []) as ->.
    { apply Forall2_length in Hch. destruct bs; [reflexivity | ].
      simpl in Hch. lia. }
    intros x nd Hx. inversion Hx.
  - assert (Hm : 0 < m (ht s)) by lia.
    pose proof (hash_formula_range a b char_signed k _ Hm) as Hr.
    set (i := Z.to_nat (hash_formula a b char_signed k (m (ht s)))).
    assert (Hi : hash k (m (ht s)) = Ok (Z.of_nat i)).
    { rewrite hash_pos by assumption. unfold i. rewrite Z2Nat.id; tauto. }
    destruct (lookup_lt_is_Some_2 (table (ht s)) i) as [q Hq];
      [unfold i; lia | ].
    destruct (Forall2_lookup_l _ _ _ _ _ Hch Hq) as (l & Hl & Hdll).
    rewrite run_bind. unfold lift at 1. rewrite Hi.
    rewrite (run_bind_ok _ _ _ _ _ (table_get_ok _ _ _ Hq)).
    rewrite run_bind. simpl.
    erewrite search_list_ok; [ | eassumption | ].
    2:{ apply length_le_size.
        - eapply NoDup_concat_lookup; eassumption.
        - intros x Hx. eapply dll_in_heap; eassumption. }
    eexists. split; [reflexivity | ].
    destruct (find_key (heap s) k l) as [x | ] eqn:Hf; simpl.
    + apply find_key_Some in Hf as [Hx Hk]. split; [ | assumption].
      apply elem_of_concat. eauto.
    + intros x nd Hx Hx' Hk.
      apply elem_of_concat in Hx as (j & l' & Hj & Hx).
      pose proof (Hrt j l' x nd Hj Hx Hx') as Hh.
      rewrite Hk, Hi in Hh. injection Hh as Hij.
      apply Nat2Z.inj in Hij. subst j.
      assert (l' = l) by congruence. subst l'.
      refine (find_key_None _ _ _ _ Hf x nd Hx Hx' Hk).
      intros y Hy. eapply dll_in_heap; eassumption.
Qed.

Lemma hash_search_ok s bs k :
  Repr s bs ->
  exists r, hash_search k s = Ok (r, s) /\ stored (heap s) (concat bs) k r.
Proof.
  intros HR. destruct (hash_search_node_ok s bs k HR) as (q & Hq & Hfor).
  unfold hash_search. rewrite (run_bind_ok _ _ _ _ _ Hq).
  destruct q as [x | ]; simpl in Hfor.
  - destruct Hfor as (Hx & nd & Hnd & Hk).
    rewrite (run_bind_ok _ _ _ _ _ (load_ok _ _ _ Hnd)).
    exists (Some (value nd)). split; [reflexivity | ].
    exists x, nd. auto.
  - exists None. split; [reflexivity | assumption].
Qed.

Lemma hash_contains_ok s bs k :
  Repr s bs ->
  exists q, hash_contains k s
            = Ok (match q with None => 0 | Some _ => 1 end, s)
            /\ node_for (heap s) (concat bs) k q.
Proof.
  intros HR. destruct (hash_search_node_ok s bs k HR) as (q & Hq & Hfor).
  exists q. split; [ | assumption].
  unfold hash_contains. rewrite (run_bind_ok _ _ _ _ _ Hq). reflexivity.
Qed.

End Representation.

(** *** Putting a node at the head of a chain *)

Lemma link_head_other h x k v hd z :
  z <> x -> hd <> Some z -> link_head h x k v hd !! z = h !! z.
Proof.
  intros Hzx Hzy. unfold link_head. destruct hd as [y | ].
  - destruct (h !! y); [ | reflexivity].
    rewrite !lookup_insert_ne by congruence. reflexivity.
  - rewrite lookup_insert_ne by congruence. reflexivity.
Qed.

Lemma link_head_payload h x k v hd z :
  z <> x -> payload <$> link_head h x k v hd !! z = payload <$> h !! z.
Proof.
  intros Hzx. unfold link_head. destruct hd as [y | ].
  - destruct (h !! y) as [ny | ] eqn:Hy; [ | reflexivity].
    rewrite lookup_insert_ne by congruence.
    destruct (decide (y = z)) as [-> | Hyz].
    + rewrite lookup_insert_eq, Hy. reflexivity.
    + rewrite lookup_insert_ne by congruence. reflexivity.
  - rewrite lookup_insert_ne by congruence. reflexivity.
Qed.

Lemma link_head_self h x k v hd :
  match hd with Some y => is_Some (h !! y) | None => True end ->
  link_head h x k v hd !! x = Some (Node hd None k v).
Proof.
  unfold link_head. destruct hd as [y | ].
  - intros [ny ->]. apply lookup_insert_eq.
  - intros _. apply lookup_insert_eq.
Qed.

Lemma link_head_chains h t bs x k v i hd l :
  Forall2 (dll h None) t bs -> NoDup (concat bs) -> x ∉ concat bs ->
  t !! i = Some hd -> bs !! i = Some l ->
  Forall2 (dll (link_head h x k v hd) None)
    (<[i := Some x]> t) (<[i := x :: l]> bs).
Proof.
  intros Hch Hnd Hx Hti Hbi.
  assert (Hdll : dll h None hd l).
  { destruct (Forall2_lookup_l _ _ _ _ _ Hch Hti) as (l' & Hl' & Hd).
    congruence. }
  assert (Hxl : forall j l', bs !! j = Some l' -> x ∉ l').
  { intros j l' Hj Hin. apply Hx, elem_of_concat. eauto. }
  (* chains of the other buckets, and the tail of this one, keep
     their links *)
  assert (Hkeep : forall pv q l',
             dll h pv q l' -> x ∉ l' -> (forall y, hd = Some y -> y ∉ l') ->
             dll (link_head h x k v hd) pv q l').
  { intros pv q l' Hd Hx' Hy'. eapply dll_ext; [ | eassumption].
    intros z nz Hz Hnz. exists nz. rewrite link_head_other; auto.
    - intros ->. auto.
    - intros ->. eapply Hy'; eauto. }
  apply Forall2_same_length_lookup_2.
  { rewrite !length_insert. eapply Forall2_length. eassumption. }
  intros j q l' Hq Hl'.
  destruct (decide (i = j)) as [<- | Hij].
  - rewrite list_lookup_insert_eq in Hq
      by (eapply lookup_lt_Some; eassumption).
    rewrite list_lookup_insert_eq in Hl'
      by (eapply lookup_lt_Some; eassumption).
    injection Hq as <-. injection Hl' as <-.
    pose proof (NoDup_concat_lookup _ _ _ Hnd Hbi) as Hndl.
    simpl. split; [reflexivity | ].
    exists (Node hd None k v). split.
    { apply link_head_self. destruct hd as [y | ]; [ | exact I].
      destruct l as [ | y' l'']; simpl in Hdll; [discriminate | ].
      destruct Hdll as ([= ->] & ny & Hy & _). eauto. }
    split; [reflexivity | ]. simpl.
    destruct l as [ | y l'']; simpl in Hdll |- *; [assumption | ].
    destruct Hdll as (-> & ny & Hy & Hpv & Htl).
    split; [reflexivity | ].
    assert (Hxy : x <> y).
    { intros ->. apply (Hxl i (y :: l'') Hbi). left. }
    exists (Node (next ny) (Some x) (key ny) (value ny)). split.
    { unfold link_head. rewrite Hy.
      rewrite lookup_insert_ne by congruence. apply lookup_insert_eq. }
    split; [reflexivity | ]. simpl.
    apply Hkeep; [assumption | | ].
    + intros Hin. apply (Hxl i (y :: l'') Hbi). right. assumption.
    + intros y' [= <-]. apply NoDup_cons in Hndl as [Hny _]. assumption.
  - rewrite list_lookup_insert_ne in Hq by assumption.
    rewrite list_lookup_insert_ne in Hl' by assumption.
    destruct (Forall2_lookup_l _ _ _ _ _ Hch Hq) as (l2 & Hl2 & Hd).
    assert (l2 = l') by congruence. subst l2.
    apply Hkeep; [assumption | eauto | ].
    intros y -> Hy. apply Hij.
    destruct l as [ | y' l'']; simpl in Hdll; [discriminate | ].
    destruct Hdll as ([= ->] & _).
    eapply (NoDup_concat_disjoint bs i j); try eassumption. left.
Qed.

(** *** Rehashing *)

Lemma payload_lookup (h h' : gmap addr node_t) x nd :
  payload <$> h' !! x = payload <$> h !! x -> h' !! x = Some nd ->
  exists nd0, h !! x = Some nd0 /\ key nd0 = key nd /\ value nd0 = value nd.
Proof.
  intros Hp Hx. rewrite Hx in Hp. destruct (h !! x) as [nd0 | ];
    [ | discriminate].
  injection Hp as Hk Hv. eauto.
Qed.

Lemma with_heap_id s : with_heap (heap s) s = s.
Proof. destruct s. reflexivity. Qed.

Section Resize.

Variables (a b : Z) (char_signed : bool).
Variable stale : nat -> ptr.

#[local] Abbreviation stale_empty := (stale_empty stale).
#[local] Abbreviation Rehashing := (Rehashing a b char_signed).
#[local] Abbreviation hash := (hash a b char_signed).
#[local] Abbreviation routed := (routed a b char_signed).
#[local] Abbreviation Repr := (Repr a b char_signed).
#[local] Abbreviation rehash_list := (rehash_list a b char_signed).
#[local] Abbreviation rehash_table := (rehash_table a b char_signed).
#[local] Abbreviation resize_hash_table :=
  (resize_hash_table a b char_signed stale).

(** One step: the node [x] goes to the head of its new chain. *)
Lemma rehashing_step h0 newm done h t nbs x nd i hd :
  Rehashing h0 newm done h t nbs -> NoDup done -> x ∉ done ->
  h !! x = Some nd -> hash (key nd) newm = Ok (Z.of_nat i) ->
  t !! i = Some hd ->
  exists l,
    nbs !! i = Some l /\
    Rehashing h0 newm (done ++ [x])
      (link_head h x (key nd) (value nd) hd)
      (<[i := Some x]> t) (<[i := x :: l]> nbs).
Proof.
  intros [Hlen Hch Hperm Hrest Hpay Hrt] Hnd Hx Hnx Hhash Hti.
  destruct (Forall2_lookup_l _ _ _ _ _ Hch Hti) as (l & Hl & Hdll).
  exists l. split; [assumption | ].
  assert (Hxc : x ∉ concat nbs) by (rewrite Hperm; assumption).
  assert (Hhd : forall y, hd = Some y -> y ∈ done /\ is_Some (h !! y)).
  { intros y ->. destruct l as [ | y' l']; simpl in Hdll; [discriminate | ].
    destruct Hdll as ([= ->] & ny & Hy & _). split; [ | eauto].
    rewrite <- Hperm. apply elem_of_concat. exists i, (y' :: l').
    split; [assumption | left]. }
  split.
  - rewrite length_insert. assumption.
  - apply link_head_chains; try assumption. rewrite Hperm. assumption.
  - rewrite (concat_insert_cons _ _ _ _ Hl), Hperm.
    rewrite Permutation_app_comm. reflexivity.
  - intros z Hz. rewrite not_elem_of_app in Hz. destruct Hz as [Hzd Hzx].
    rewrite link_head_other.
    + apply Hrest. assumption.
    + intros ->. apply Hzx. left.
    + intros ->. apply Hzd. apply (Hhd z eq_refl).
  - intros z. destruct (decide (z = x)) as [-> | Hzx].
    + rewrite link_head_self.
      * rewrite <- Hpay, Hnx. reflexivity.
      * destruct hd as [y | ]; [ | exact I]. apply (Hhd y eq_refl).
    + rewrite link_head_payload by assumption. apply Hpay.
  - intros j l' z nz Hj Hz Hnz.
    assert (Hkey : z <> x -> exists nz0, h !! z = Some nz0
                                         /\ key nz0 = key nz).
    { intros Hzx.
      destruct (payload_lookup h (link_head h x (key nd) (value nd) hd) z nz)
        as (nz0 & H0 & Hk & _);
        [apply link_head_payload; assumption | assumption | eauto]. }
    destruct (decide (i = j)) as [<- | Hij].
    + rewrite list_lookup_insert_eq in Hj
        by (eapply lookup_lt_Some; eassumption).
      injection Hj as <-.
      apply elem_of_cons in Hz as [-> | Hz].
      * rewrite link_head_self in Hnz.
        -- injection Hnz as <-. assumption.
        -- destruct hd as [y | ]; [ | exact I]. apply (Hhd y eq_refl).
      * destruct Hkey as (nz0 & H0 & Hk).
        { intros ->. apply Hxc, elem_of_concat. eauto. }
        rewrite <- Hk. eapply Hrt; eassumption.
    + rewrite list_lookup_insert_ne in Hj by assumption.
      destruct Hkey as (nz0 & H0 & Hk).
      { intros ->. apply Hxc, elem_of_concat. eauto. }
      rewrite <- Hk. eapply Hrt; eassumption.
Qed.

Lemma rehash_list_ok h0 newm s0 l :
  0 < newm ->
  forall done h t nbs pv q fuel,
    Rehashing h0 newm done h t nbs ->
    dll h0 pv q l -> NoDup (done ++ l) -> (length l <= fuel)%nat ->
    exists h' t' nbs',
      rehash_list fuel newm q t (with_heap h s0) = Ok (t', with_heap h' s0)
      /\ Rehashing h0 newm (done ++ l) h' t' nbs'.
Proof.
  intros Hnewm. induction l as [ | x l IH];
    intros done h t nbs pv q fuel HR Hdll Hnd Hfuel; simpl in Hdll.
  - subst q. exists h, t, nbs. rewrite app_nil_r.
    split; [destruct fuel; reflexivity | assumption].
  - destruct Hdll as (-> & nd & Hx0 & _ & Hl).
    destruct fuel as [ | fuel]; [simpl in Hfuel; lia | ].
    apply NoDup_app in Hnd as (Hnd_done & Hdisj & Hnd_l).
    assert (Hxd : x ∉ done).
    { intros Hin. apply (Hdisj x Hin). left. }
    assert (Hx : h !! x = Some nd).
    { rewrite (rh_rest _ _ _ _ _ _ _ _ _ HR) by assumption. assumption. }
    pose proof (hash_formula_range a b char_signed (key nd) _ Hnewm) as Hr.
    set (i := Z.to_nat (hash_formula a b char_signed (key nd) newm)).
    assert (Hi : hash (key nd) newm = Ok (Z.of_nat i)).
    { rewrite hash_pos by assumption. unfold i. rewrite Z2Nat.id; tauto. }
    destruct (lookup_lt_is_Some_2 t i) as [hd Hhd].
    { rewrite (rh_len _ _ _ _ _ _ _ _ _ HR). unfold i. lia. }
    destruct (rehashing_step _ _ _ _ _ _ x nd i hd HR)
      as (li & Hli & HR'); try assumption.
    simpl.
    rewrite (run_bind_ok _ _ _ _ _
               (get_next_ok (with_heap h s0) _ _ Hx)).
    rewrite (run_bind_ok _ _ _ _ _ (load_ok (with_heap h s0) _ _ Hx)).
    rewrite run_bind. unfold lift at 1. rewrite Hi.
    (* read [t[slot]] ahead of the two resets, which do not touch [t] *)
    assert (Hhd' : match hd with
                   | Some y => y <> x /\ is_Some (h !! y)
                   | None => True
                   end).
    { destruct hd as [y | ]; [ | exact I].
      destruct (Forall2_lookup_l _ _ _ _ _ (rh_chains _ _ _ _ _ _ _ _ _ HR) Hhd)
        as (l' & Hl' & Hd).
      destruct l' as [ | y' l'']; simpl in Hd; [discriminate | ].
      destruct Hd as ([= ->] & ny & Hy & _). split; [ | eauto].
      intros ->. apply Hxd. rewrite <- (rh_perm _ _ _ _ _ _ _ _ _ HR).
      apply elem_of_concat. eexists i, _. split; [eassumption | left]. }
    rewrite (run_bind_ok _ _ _ _ _
               (set_prev_ok (with_heap h s0) _ _ None Hx)).
    erewrite run_bind_ok;
      [ | apply set_next_ok; simpl; apply lookup_insert_eq].
    rewrite run_bind. unfold lift at 1.
    rewrite (array_get_ok _ _ _ Hhd).
    simpl. rewrite insert_insert_eq.
    assert (Hlink :
      (match hd with
       | Some _ => set_prev hd (Some x);; set_next (Some x) hd
       | None => mret tt
       end)
        (with_heap (<[x := Node None None (key nd) (value nd)]> h) s0)
      = Ok (tt, with_heap (link_head h x (key nd) (value nd) hd) s0)).
    { destruct hd as [y | ]; [ | reflexivity].
      destruct Hhd' as [Hyx [ny Hy]].
      rewrite run_bind.
      erewrite set_prev_ok
        by (simpl; rewrite lookup_insert_ne by congruence; eassumption).
      erewrite set_next_ok
        by (simpl; rewrite lookup_insert_ne by congruence;
            apply lookup_insert_eq).
      simpl. unfold with_heap. simpl. do 3 f_equal.
      unfold link_head. rewrite Hy.
      rewrite (insert_insert_ne _ y x) by assumption.
      rewrite insert_insert_eq. reflexivity. }
    rewrite (run_bind_ok _ _ _ _ _ Hlink).
    rewrite run_bind. unfold lift at 1.
    rewrite array_set_ok by (eapply lookup_lt_Some; eassumption).
    destruct (IH (done ++ [x]) _ _ _ (Some x) (next nd) fuel HR' Hl)
      as (h' & t' & nbs' & Hrun & HR'').
    { rewrite <- app_assoc. simpl. apply NoDup_app. auto. }
    { simpl in Hfuel. lia. }
    exists h', t', nbs'. split.
    + exact Hrun.
    + rewrite <- app_assoc in HR''. exact HR''.
Qed.

Lemma rehashing_dom h0 newm done h t nbs x :
  Rehashing h0 newm done h t nbs -> is_Some (h0 !! x) -> is_Some (h !! x).
Proof.
  intros HR [nd Hx]. pose proof (rh_payload _ _ _ _ _ _ _ _ _ HR x) as Hp.
  rewrite Hx in Hp. destruct (h !! x); [eauto | discriminate].
Qed.

Lemma rehash_table_ok h0 newm s0 bs :
  0 < newm ->
  chains h0 (table (ht s0)) bs -> NoDup (concat bs) ->
  forall cnt l h t nbs,
    Rehashing h0 newm (concat (take l bs)) h t nbs ->
    (l + cnt = length bs)%nat ->
    exists h' t' nbs',
      rehash_table cnt (Z.of_nat l) newm t (with_heap h s0)
      = Ok (t', with_heap h' s0)
      /\ Rehashing h0 newm (concat bs) h' t' nbs'.
Proof.
  intros Hnewm Hch Hnd. induction cnt as [ | cnt IH];
    intros l h t nbs HR Hl; simpl.
  - exists h, t, nbs. split; [reflexivity | ].
    rewrite take_ge in HR by lia. assumption.
  - destruct (lookup_lt_is_Some_2 bs l) as [bl Hbl]; [lia | ].
    destruct (Forall2_lookup_r _ _ _ _ _ Hch Hbl) as (q & Hq & Hdll).
    rewrite (run_bind_ok _ _ _ _ _
               (table_get_ok (with_heap h s0) _ _ Hq)).
    rewrite run_bind. simpl.
    pose proof Hnd as Hnd'.
    rewrite (concat_lookup_split _ _ _ Hbl), app_assoc in Hnd'.
    apply NoDup_app in Hnd' as (Hnd' & _ & _).
    destruct (rehash_list_ok h0 newm s0 bl Hnewm _ h t nbs None q
                (size h) HR Hdll Hnd')
      as (h1 & t1 & nbs1 & Hrun & HR1).
    { apply length_le_size.
      - eapply NoDup_concat_lookup; eassumption.
      - intros x Hx. eapply rehashing_dom; [eassumption | ].
        eapply dll_in_heap; eassumption. }
    rewrite (run_bind_ok _ _ _ _ _ Hrun).
    replace (Z.of_nat l + 1) with (Z.of_nat (S l)) by lia.
    apply (IH (S l) h1 t1 nbs1); [ | lia].
    rewrite (take_S_r _ _ _ Hbl), concat_app. simpl.
    rewrite app_nil_r. assumption.
Qed.

Lemma malloc_table_empty len :
  stale_empty -> malloc_table stale len = replicate (Z.to_nat len) None.
Proof.
  intros Hst. unfold malloc_table. generalize 0%nat as k.
  induction (Z.to_nat len) as [ | c IH]; intros k; simpl; [reflexivity | ].
  rewrite Hst. f_equal. apply IH.
Qed.

(** A fresh array whose cells read as empty is a table of empty
    buckets. *)
Lemma rehashing_start h0 newm :
  Rehashing h0 newm [] h0 (replicate (Z.to_nat newm) None)
    (replicate (Z.to_nat newm) []).
Proof.
  split.
  - apply length_replicate.
  - apply Forall2_replicate. reflexivity.
  - rewrite concat_replicate_nil. reflexivity.
  - reflexivity.
  - reflexivity.
  - intros i l x nd Hi Hx. apply lookup_replicate in Hi as [-> _].
    inversion Hx.
Qed.

(** [resize_hash_table] on a well-formed table: it returns a
    well-formed table of [newm] buckets that holds the same nodes
    with the same keys and values. *)
Lemma resize_hash_table_ok s bs newm :
  stale_empty -> Repr s bs -> 0 < newm <= INT_MAX ->
  exists s' bs',
    resize_hash_table newm s = Ok (tt, s')
    /\ Repr s' bs'
    /\ concat bs' ≡ₚ concat bs
    /\ (forall x, payload <$> heap s' !! x = payload <$> heap s !! x)
    /\ m (ht s') = newm /\ n (ht s') = n (ht s).
Proof.
  intros Hst [Hlen [_ Hn] Hch Hnd Hrt Hkeys Hcnt] [Hnewm Hmax].
  unfold resize_hash_table.
  rewrite run_bind. simpl.
  rewrite malloc_table_empty by assumption.
  destruct (rehash_table_ok (heap s) newm s bs Hnewm Hch Hnd
              (Z.to_nat (m (ht s))) 0 (heap s) _ _
              (rehashing_start (heap s) newm))
    as (h' & t' & nbs' & Hrun & [Hlen' Hch' Hperm Hrest Hpay Hrt']).
  { apply Forall2_length in Hch. simpl. lia. }
  rewrite with_heap_id in Hrun. simpl in Hrun.
  rewrite (run_bind_ok _ _ _ _ _ Hrun).
  eexists _, nbs'. split; [reflexivity | ].
  split; [ | simpl; auto].
  split; simpl.
  - lia.
  - lia.
  - assumption.
  - rewrite Hperm. assumption.
  - assumption.
  - intros x y nx ny Hx Hy Hnx Hny Hk.
    rewrite Hperm in Hx, Hy.
    destruct (payload_lookup _ _ _ _ (Hpay x) Hnx) as (nx0 & Hx0 & Hkx & _).
    destruct (payload_lookup _ _ _ _ (Hpay y) Hny) as (ny0 & Hy0 & Hky & _).
    eapply Hkeys; try eassumption. congruence.
  - rewrite Hperm. assumption.
Qed.

End Resize.

(** *** Insertion *)

Section Insert.

Variables (a b : Z) (char_signed : bool).
Variable stale : nat -> ptr.
Variable node_alloc : gmap addr node_t -> addr.

#[local] Abbreviation alloc_fresh := (alloc_fresh node_alloc).
#[local] Abbreviation insert_grow := (insert_grow a b char_signed stale).
#[local] Abbreviation insert_place :=
  (insert_place a b char_signed node_alloc).
#[local] Abbreviation hash := (hash a b char_signed).
#[local] Abbreviation routed := (routed a b char_signed).
#[local] Abbreviation Repr := (Repr a b char_signed).
#[local] Abbreviation hash_search_node := (hash_search_node a b char_signed).
#[local] Abbreviation resize_hash_table :=
  (resize_hash_table a b char_signed stale).
#[local] Abbreviation grow_hash_table :=
  (grow_hash_table a b char_signed stale).
#[local] Abbreviation hash_insert :=
  (hash_insert a b char_signed stale node_alloc).

Lemma node_for_transfer h L h' L' k q :
  L' ≡ₚ L -> (forall x, payload <$> h' !! x = payload <$> h !! x) ->
  node_for h L k q -> node_for h' L' k q.
Proof.
  intros Hperm Hpay. destruct q as [x | ]; simpl.
  - intros (Hx & nd & Hnd & Hk). rewrite Hperm. split; [assumption | ].
    destruct (payload_lookup h' h x nd) as (nd' & H' & Hk' & _);
      [symmetry; apply Hpay | assumption | ].
    exists nd'. split; [assumption | congruence].
  - intros Hno x nd' Hx Hnd'. rewrite Hperm in Hx.
    destruct (payload_lookup h h' x nd') as (nd & H0 & Hk & _);
      [apply Hpay | assumption | ].
    rewrite <- Hk. eapply Hno; eassumption.
Qed.

Lemma stored_transfer h L h' L' k r :
  L' ≡ₚ L -> (forall x, payload <$> h' !! x = payload <$> h !! x) ->
  stored h L k r -> stored h' L' k r.
Proof.
  intros Hperm Hpay. destruct r as [v | ]; simpl.
  - intros (x & nd & Hx & Hnd & Hk & Hv).
    destruct (payload_lookup h' h x nd) as (nd' & H' & Hk' & Hv');
      [symmetry; apply Hpay | assumption | ].
    exists x, nd'. rewrite Hperm. repeat split; congruence.
  - intros Hno x nd' Hx Hnd'. rewrite Hperm in Hx.
    destruct (payload_lookup h h' x nd') as (nd & H0 & Hk & _);
      [apply Hpay | assumption | ].
    rewrite <- Hk. eapply Hno; eassumption.
Qed.

(** **** The key is there: the value is replaced *)

Lemma hash_insert_present s bs k v x :
  Repr s bs -> hash_search_node k s = Ok (Some x, s) ->
  exists nd,
    heap s !! x = Some nd /\ key nd = k /\ x ∈ concat bs /\
    let s' := with_heap
                (<[x := Node (next nd) (prev nd) (key nd) v]> (heap s)) s in
    hash_insert k v s = Ok (tt, s') /\ Repr s' bs.
Proof.
  intros HR Hfind.
  destruct (hash_search_node_ok a b char_signed s bs k HR)
    as (q & Hq & Hfor).
  rewrite Hfind in Hq. injection Hq as <-.
  destruct Hfor as (Hx & nd & Hnd & Hk).
  exists nd. split; [assumption | ]. split; [assumption | ].
  split; [assumption | ]. split.
  - unfold hash_insert. rewrite (run_bind_ok _ _ _ _ _ Hfind).
    apply set_value_ok. assumption.
  - destruct HR as [Hlen Hint Hch Hndp Hrt Hkeys Hn].
    assert (Hsame : forall z nz',
               <[x := Node (next nd) (prev nd) (key nd) v]> (heap s) !! z
               = Some nz' ->
               exists nz, heap s !! z = Some nz /\ next nz = next nz'
                          /\ prev nz = prev nz' /\ key nz = key nz').
    { intros z nz'. destruct (decide (x = z)) as [<- | Hxz].
      - rewrite lookup_insert_eq. intros [= <-]. eauto.
      - rewrite lookup_insert_ne by assumption. eauto. }
    split; unfold with_heap; simpl; try assumption.
    + eapply Forall2_impl; [exact Hch | ].
      intros q l Hd. eapply dll_ext; [ | exact Hd].
      intros z nz _ Hnz. destruct (decide (x = z)) as [<- | Hxz].
      * rewrite lookup_insert_eq. eexists. split; [reflexivity | ].
        assert (nz = nd) by congruence. subst nz. auto.
      * rewrite lookup_insert_ne by assumption. eauto.
    + intros i l z nz' Hi Hz Hnz'.
      destruct (Hsame z nz' Hnz') as (nz & Hnz & _ & _ & <-).
      eapply Hrt; eassumption.
    + intros y z ny' nz' Hy Hz Hny' Hnz' Hkk.
      destruct (Hsame y ny' Hny') as (ny & Hny & _ & _ & Hky).
      destruct (Hsame z nz' Hnz') as (nz & Hnz & _ & _ & Hkz).
      eapply Hkeys; try eassumption. congruence.
Qed.

(** **** Growth *)

Lemma grow_hash_table_ok s bs :
  stale_empty stale -> Repr s bs -> n (ht s) = m (ht s) ->
  2 * m (ht s) <= INT_MAX ->
  exists s' bs',
    grow_hash_table s = Ok (tt, s')
    /\ Repr s' bs'
    /\ concat bs' ≡ₚ concat bs
    /\ (forall x, payload <$> heap s' !! x = payload <$> heap s !! x)
    /\ m (ht s') = (if m (ht s) =? 0 then MIN_TABLE_SIZE else 2 * m (ht s))
    /\ n (ht s') = n (ht s).
Proof.
  intros Hst HR Hnm Hmax. unfold grow_hash_table.
  rewrite run_bind. simpl.
  destruct (Z.eqb_spec (m (ht s)) 0) as [Hz | Hnz].
  - destruct HR as [Hlen Hint Hch Hndp Hrt Hkeys Hn].
    assert (bs = []) as ->.
    { apply Forall2_length in Hch. destruct bs; [reflexivity | ].
      simpl in Hch. lia. }
    exists (State (HashT MIN_TABLE_SIZE (n (ht s))
                     (malloc_table stale MIN_TABLE_SIZE)) (heap s)),
      (replicate (Z.to_nat MIN_TABLE_SIZE) []).
    split; [reflexivity | ].
    rewrite malloc_table_empty by assumption.
    pose proof (rehashing_start a b char_signed (heap s) MIN_TABLE_SIZE)
      as [Hl' Hch' Hperm' _ _ Hrt'].
    split; [ | split; [ | split; [ | split]]]; cbn [ht heap m n table].
    + split; cbn [ht heap m n table].
      * rewrite Hl'. reflexivity.
      * unfold MIN_TABLE_SIZE, INT_MAX. lia.
      * assumption.
      * rewrite Hperm'. constructor.
      * assumption.
      * intros x y nx ny Hx. rewrite Hperm' in Hx. inversion Hx.
      * rewrite Hn, Hperm'. reflexivity.
    + rewrite Hperm'. reflexivity.
    + reflexivity.
    + reflexivity.
    + reflexivity.
  - assert (Hpos : 0 < m (ht s)).
    { pose proof (repr_len _ _ _ _ _ HR). lia. }
    rewrite run_bind, int_range_ok by (unfold INT_MIN; lia).
    destruct (resize_hash_table_ok a b char_signed stale s bs
                (2 * m (ht s)) Hst HR)
      as (s' & bs' & Hrun & HR' & Hperm & Hpay & Hm & Hn); [lia | ].
    exists s', bs'. auto 10.
Qed.

(** **** The key is not there: a node is added *)

Lemma hash_insert_phases k v s :
  hash_insert k v s
  = (found ← hash_search_node k;
     match found with
     | Some _ => set_value found v
     | None => insert_grow;; insert_place k v
     end) s.
Proof.
  unfold hash_insert, insert_grow, insert_place.
  rewrite !run_bind. destruct (hash_search_node k s) as [[[x | ] s1] | ];
    reflexivity.
Qed.

(** The growth test of [hash_insert]. *)
Lemma insert_growth_ok s bs :
  stale_empty stale -> Repr s bs ->
  (n (ht s) = m (ht s) -> 2 * m (ht s) <= INT_MAX) ->
  exists s' bs',
    insert_grow s = Ok (tt, s')
    /\ Repr s' bs'
    /\ concat bs' ≡ₚ concat bs
    /\ (forall x, payload <$> heap s' !! x = payload <$> heap s !! x)
    /\ m (ht s') = (if n (ht s) =? m (ht s)
                    then if m (ht s) =? 0 then MIN_TABLE_SIZE
                         else 2 * m (ht s)
                    else m (ht s))
    /\ n (ht s') = n (ht s)
    /\ 0 < m (ht s').
Proof.
  intros Hst HR Hmax. unfold insert_grow.
  rewrite run_bind. simpl. rewrite run_bind. simpl.
  destruct (Z.eqb_spec (n (ht s)) (m (ht s))) as [Hnm | Hnm].
  - destruct (grow_hash_table_ok s bs Hst HR Hnm (Hmax Hnm))
      as (s' & bs' & Hrun & HR' & Hperm & Hpay & Hm & Hn).
    exists s', bs'. repeat (split; [assumption | ]).
    rewrite Hm. pose proof (repr_len _ _ _ _ _ HR).
    destruct (Z.eqb_spec (m (ht s)) 0); unfold MIN_TABLE_SIZE; lia.
  - exists s, bs. split; [reflexivity | ]. split; [assumption | ].
    split; [reflexivity | ]. split; [reflexivity | ].
    split; [reflexivity | ]. split; [reflexivity | ].
    destruct HR as [Hlen _ Hch _ _ _ Hn].
    destruct (Z.eq_dec (m (ht s)) 0) as [Hz | Hnz]; [ | lia].
    exfalso. apply Hnm. rewrite Hn, Hz.
    apply Forall2_length in Hch. destruct bs; [reflexivity | ].
    simpl in Hch. lia.
Qed.

Lemma insert_place_ok s1 bs1 k v :
  alloc_fresh -> Repr s1 bs1 ->
  hash_search_node k s1 = Ok (None, s1) ->
  n (ht s1) < INT_MAX -> 0 < m (ht s1) ->
  exists s' bs' x i hd,
    insert_place k v s1 = Ok (tt, s')
    /\ Repr s' bs'
    /\ concat bs' ≡ₚ x :: concat bs1
    /\ heap s1 !! x = None
    /\ (forall z, z <> x ->
          payload <$> heap s' !! z = payload <$> heap s1 !! z)
    /\ heap s' !! x = Some (Node hd None k v)
    /\ hash k (m (ht s')) = Ok (Z.of_nat i)
    /\ table (ht s') !! i = Some (Some x)
    /\ table (ht s1) !! i = Some hd
    /\ m (ht s') = m (ht s1)
    /\ n (ht s') = n (ht s1) + 1.
Proof.
  intros Hfresh HR1 Hfind Hnmax Hpos.
  destruct (hash_search_node_ok a b char_signed s1 bs1 k HR1)
    as (q & Hq & Hfor1).
  rewrite Hfind in Hq. injection Hq as <-. simpl in Hfor1.
  unfold insert_place. clear Hfind.
  destruct s1 as [[m1 n1 t1] h1]. simpl in *.
  destruct HR1 as [Hlen [Hmi Hni] Hch Hnd Hrt Hkeys Hn]. simpl in *.
  set (x := node_alloc h1) in *.
  assert (Hxh : h1 !! x = None) by apply Hfresh.
  assert (Hxc : x ∉ concat bs1).
  { intros Hin. destruct (chains_in_heap _ _ _ _ Hch Hin) as [nd Hnd'].
    congruence. }
  pose proof (hash_formula_range a b char_signed k _ Hpos) as Hr.
  set (i := Z.to_nat (hash_formula a b char_signed k m1)).
  assert (Hi : hash k m1 = Ok (Z.of_nat i)).
  { rewrite hash_pos by assumption. unfold i. rewrite Z2Nat.id; tauto. }
  destruct (lookup_lt_is_Some_2 t1 i) as [hd Hhd]; [unfold i; lia | ].
  destruct (Forall2_lookup_l _ _ _ _ _ Hch Hhd) as (l & Hl & Hdll).
  assert (Hhd' : match hd with
                 | Some y => y <> x /\ is_Some (h1 !! y)
                 | None => True
                 end).
  { destruct hd as [y | ]; [ | exact I].
    destruct l as [ | y' l']; simpl in Hdll; [discriminate | ].
    destruct Hdll as (Hy & ny & Hny & _). injection Hy as <-.
    split; [ | eauto]. intros ->. congruence. }
  exists (State (HashT m1 (n1 + 1) (<[i := Some x]> t1))
            (link_head h1 x k v hd)),
    (<[i := x :: l]> bs1), x, i, hd.
  split.
  { rewrite run_bind. simpl.
    rewrite run_bind, int_range_ok by (unfold INT_MIN; lia).
    rewrite run_bind. simpl. rewrite run_bind. simpl.
    fold x. rewrite run_bind. simpl.
    rewrite run_bind. unfold lift at 1. rewrite Hi.
    erewrite run_bind_ok; [ | apply table_get_ok; simpl; eassumption].
    assert (Hlink :
      (match hd with
       | Some _ => set_next (Some x) hd;; set_prev hd (Some x)
       | None => mret tt
       end)
        (with_heap (<[x := Node None None k v]> h1)
           (with_n (n1 + 1) (State (HashT m1 n1 t1) h1)))
      = Ok (tt, State (HashT m1 (n1 + 1) t1) (link_head h1 x k v hd))).
    { destruct hd as [y | ]; [ | reflexivity].
      destruct Hhd' as [Hyx [ny Hy]].
      rewrite run_bind.
      erewrite set_next_ok by (simpl; apply lookup_insert_eq).
      erewrite set_prev_ok
        by (simpl; rewrite lookup_insert_ne by congruence;
            rewrite lookup_insert_ne by congruence; eassumption).
      unfold with_heap, with_n. simpl. do 3 f_equal.
      unfold link_head. rewrite Hy.
      rewrite insert_insert_eq.
      apply insert_insert_ne. assumption. }
    rewrite (run_bind_ok _ _ _ _ _ Hlink).
    rewrite table_set_ok by (simpl; eapply lookup_lt_Some; eassumption).
    reflexivity. }
  assert (Hself : link_head h1 x k v hd !! x = Some (Node hd None k v)).
  { apply link_head_self. destruct hd; tauto. }
  assert (Hold : forall z nz', z <> x ->
             link_head h1 x k v hd !! z = Some nz' ->
             exists nz, h1 !! z = Some nz /\ key nz = key nz').
  { intros z nz' Hzx Hnz'.
    destruct (payload_lookup h1 (link_head h1 x k v hd) z nz')
      as (nz & H0 & Hk & _);
      [apply link_head_payload; assumption | assumption | eauto]. }
  split; [ | split; [ | split; [ | split; [ | split; [ | split;
    [ | split; [ | split; [ | split]]]]]]]]; simpl; try assumption.
  - split; simpl.
    + rewrite length_insert. assumption.
    + lia.
    + apply link_head_chains; assumption.
    + rewrite (concat_insert_cons _ _ _ _ Hl). apply NoDup_cons. auto.
    + intros j l' z nz' Hj Hz Hnz'.
      destruct (decide (z = x)) as [-> | Hzx].
      * rewrite Hself in Hnz'. injection Hnz' as <-. simpl.
        rewrite Hi. do 2 f_equal.
        destruct (decide (i = j)) as [ | Hij]; [assumption | ].
        rewrite list_lookup_insert_ne in Hj by assumption.
        exfalso. apply Hxc, elem_of_concat. eauto.
      * destruct (Hold z nz' Hzx Hnz') as (nz & Hnz & <-).
        destruct (decide (i = j)) as [<- | Hij].
        -- rewrite list_lookup_insert_eq in Hj
             by (eapply lookup_lt_Some; eassumption).
           injection Hj as <-.
           apply elem_of_cons in Hz as [ | Hz]; [contradiction | ].
           eapply Hrt; eassumption.
        -- rewrite list_lookup_insert_ne in Hj by assumption.
           eapply Hrt; eassumption.
    + intros y z ny' nz' Hy Hz Hny' Hnz' Hkk.
      rewrite (concat_insert_cons _ _ _ _ Hl) in Hy, Hz.
      apply elem_of_cons in Hy as [-> | Hy];
        apply elem_of_cons in Hz as [-> | Hz].
      * reflexivity.
      * exfalso.
        assert (Hzx : z <> x) by (intros ->; contradiction).
        destruct (Hold z nz' Hzx Hnz') as (nz & Hnz & Hk).
        apply (Hfor1 z nz Hz Hnz).
        rewrite Hself in Hny'. injection Hny' as <-. simpl in Hkk.
        congruence.
      * exfalso.
        assert (Hyx : y <> x) by (intros ->; contradiction).
        destruct (Hold y ny' Hyx Hny') as (ny & Hny & Hk).
        apply (Hfor1 y ny Hy Hny).
        rewrite Hself in Hnz'. injection Hnz' as <-. simpl in Hkk.
        congruence.
      * assert (Hyx : y <> x) by (intros ->; contradiction).
        assert (Hzx : z <> x) by (intros ->; contradiction).
        destruct (Hold y ny' Hyx Hny') as (ny & Hny & Hky).
        destruct (Hold z nz' Hzx Hnz') as (nz & Hnz & Hkz).
        eapply Hkeys; try eassumption. congruence.
    + rewrite (concat_insert_cons _ _ _ _ Hl). simpl. lia.
  - apply concat_insert_cons. assumption.
  - intros z Hzx. apply link_head_payload. assumption.
  - apply list_lookup_insert_eq. eapply lookup_lt_Some; eassumption.
  - reflexivity.
  - reflexivity.
Qed.

Lemma hash_insert_absent s bs k v :
  stale_empty stale -> alloc_fresh -> Repr s bs ->
  hash_search_node k s = Ok (None, s) ->
  n (ht s) < INT_MAX ->
  (n (ht s) = m (ht s) -> 2 * m (ht s) <= INT_MAX) ->
  exists s1 s' bs' x i hd,
    insert_grow s = Ok (tt, s1)
    /\ n (ht s1) = n (ht s)
    /\ hash_search_node k s1 = Ok (None, s1)
    /\ insert_place k v s1 = Ok (tt, s')
    /\ hash_insert k v s = Ok (tt, s')
    /\ Repr s' bs'
    /\ concat bs' ≡ₚ x :: concat bs
    /\ heap s !! x = None
    /\ (forall z, z <> x ->
          payload <$> heap s' !! z = payload <$> heap s !! z)
    /\ heap s' !! x = Some (Node hd None k v)
    /\ hash k (m (ht s')) = Ok (Z.of_nat i)
    /\ table (ht s') !! i = Some (Some x)
    /\ table (ht s1) !! i = Some hd
    /\ m (ht s1) = (if n (ht s) =? m (ht s)
                    then if m (ht s) =? 0 then MIN_TABLE_SIZE
                         else 2 * m (ht s)
                    else m (ht s))
    /\ m (ht s') = m (ht s1)
    /\ n (ht s') = n (ht s) + 1.
Proof.
  intros Hst Hfresh HR Hfind Hnmax Hmax.
  destruct (hash_search_node_ok a b char_signed s bs k HR)
    as (q & Hq & Hfor).
  rewrite Hfind in Hq. injection Hq as <-.
  destruct (insert_growth_ok s bs Hst HR Hmax)
    as (s1 & bs1 & Hgrow & HR1 & Hperm1 & Hpay1 & Hm1 & Hn1 & Hpos).
  assert (Hfind1 : hash_search_node k s1 = Ok (None, s1)).
  { destruct (hash_search_node_ok a b char_signed s1 bs1 k HR1)
      as (q & Hq & Hfor1).
    rewrite Hq. do 2 f_equal.
    eapply node_for_unique; [apply HR1 | | exact Hfor1 | ].
    - intros z Hz. eapply chains_in_heap; [apply HR1 | exact Hz].
    - eapply node_for_transfer; eassumption. }
  destruct (insert_place_ok s1 bs1 k v Hfresh HR1 Hfind1)
    as (s' & bs' & x & i & hd & Hrun & HR' & Hperm & Hx1 & Hpay & Hx'
        & Hi & Hti & Hti1 & Hm & Hn); [lia | assumption | ].
  exists s1, s', bs', x, i, hd.
  split; [assumption | ]. split; [assumption | ]. split; [assumption | ].
  split; [assumption | ]. split.
  { rewrite hash_insert_phases, (run_bind_ok _ _ _ _ _ Hfind).
    rewrite (run_bind_ok _ _ _ _ _ Hgrow). assumption. }
  split; [assumption | ]. split; [rewrite Hperm, Hperm1; reflexivity | ].
  split.
  { pose proof (Hpay1 x) as Hp. rewrite Hx1 in Hp.
    destruct (heap s !! x); [discriminate | reflexivity]. }
  split; [intros z Hz; rewrite Hpay, Hpay1 by assumption; reflexivity | ].
  repeat (split; [assumption | ]). lia.
Qed.

End Insert.

(** *** Taking a node out of its chain *)

Lemma unlink_heap_self h x nd : unlink_heap h x nd !! x = None.
Proof. apply lookup_delete_eq. Qed.

Lemma unlink_heap_other h x nd z :
  z <> x ->
  unlink_heap h x nd !! z
  = (fun nz =>
       Node (if decide (Some z = prev nd) then next nd else next nz)
            (if decide (Some z = next nd) then prev nd else prev nz)
            (key nz) (value nz)) <$> h !! z.
Proof.
  intros Hzx. unfold unlink_heap.
  rewrite lookup_delete_ne by congruence.
  destruct (prev nd) as [y | ], (next nd) as [w | ];
    rewrite ?lookup_alter; repeat case_decide; simplify_eq;
    destruct (h !! z) as [[] | ]; reflexivity.
Qed.

Lemma unlink_heap_payload h x nd z :
  z <> x -> payload <$> unlink_heap h x nd !! z = payload <$> h !! z.
Proof.
  intros Hzx. rewrite unlink_heap_other by assumption.
  destruct (h !! z); reflexivity.
Qed.

(** Where a node sits in its chain, and what its links are. *)
Lemma dll_at h pv q l1 x l2 :
  dll h pv q (l1 ++ x :: l2) ->
  exists nd,
    h !! x = Some nd
    /\ prev nd = match last l1 with Some y => Some y | None => pv end
    /\ next nd = head l2
    /\ dll h (Some x) (next nd) l2.
Proof.
  revert pv q. induction l1 as [ | w l1 IH]; intros pv q; simpl.
  - intros (-> & nd & Hx & Hpv & Hl). exists nd.
    repeat split; try assumption. eapply dll_head. eassumption.
  - intros (-> & nw & Hw & Hpv & Hl).
    destruct (IH _ _ Hl) as (nd & Hx & Hp & Hn & Hd).
    exists nd. repeat split; try assumption.
    rewrite Hp. destruct l1 as [ | w' l1]; [reflexivity | ].
    simpl. destruct (last (w' :: l1)) eqn:E; [reflexivity | ].
    apply last_None in E. discriminate.
Qed.

Lemma dll_unlink h h' pv q l1 x l2 nd :
  dll h pv q (l1 ++ x :: l2) -> NoDup (l1 ++ x :: l2) ->
  h !! x = Some nd ->
  (forall w, pv = Some w -> w ∉ l1 ++ x :: l2) ->
  (forall z nz, z ∈ l1 ++ l2 -> h !! z = Some nz ->
     exists nz',
       h' !! z = Some nz'
       /\ next nz' = (if decide (Some z = prev nd) then next nd else next nz)
       /\ prev nz' = (if decide (Some z = next nd) then prev nd else prev nz)) ->
  dll h' pv (match l1 with [] => next nd | _ => q end) (l1 ++ l2).
Proof.
  revert pv q. induction l1 as [ | w l1 IH]; intros pv q Hdll Hnd Hx Hpv Hh'.
  - simpl in *. destruct Hdll as (-> & nd' & Hx' & Hprev & Hl).
    assert (nd' = nd) by congruence. subst nd'.
    destruct l2 as [ | z l2]; simpl in *; [assumption | ].
    destruct Hl as (Hnx & nz & Hz & Hpz & Hl).
    split; [assumption | ].
    destruct (Hh' z nz) as (nz' & Hz' & Hn' & Hp'); [left | assumption | ].
    exists nz'. split; [assumption | ].
    apply NoDup_cons in Hnd as [Hxl Hnd]. apply NoDup_cons in Hnd as [Hzl Hnd].
    rewrite decide_True in Hp' by congruence.
    rewrite decide_False in Hn'.
    2:{ rewrite Hprev. intros Heq. apply (Hpv z); [congruence | ].
        right. left. }
    split; [congruence | ]. rewrite Hn'.
    eapply dll_ext; [ | exact Hl].
    intros u nu Hu Hnu.
    destruct (Hh' u nu) as (nu' & Hu' & Hnu' & Hpu'); [right | | ];
      try assumption.
    exists nu'. split; [assumption | ].
    rewrite decide_False in Hnu'.
    2:{ rewrite Hprev. intros Heq. apply (Hpv u); [congruence | ].
        right. right. assumption. }
    rewrite decide_False in Hpu'.
    2:{ rewrite Hnx. intros [= ->]. contradiction. }
    auto.
  - simpl in Hdll. destruct Hdll as (-> & nw & Hw & Hprev & Hl).
    simpl in Hnd. apply NoDup_cons in Hnd as [Hwl Hnd].
    destruct (dll_at _ _ _ _ _ _ Hl) as (nd' & Hx' & Hpx & Hnx & _).
    assert (nd' = nd) by congruence. subst nd'.
    simpl. split; [reflexivity | ].
    destruct (Hh' w nw) as (nw' & Hw' & Hn' & Hp'); [left | assumption | ].
    exists nw'. split; [assumption | ].
    rewrite (decide_False (P := Some w = next nd)) in Hp'.
    2:{ rewrite Hnx. destruct l2 as [ | z l2]; [discriminate | ].
        simpl. intros [= ->]. apply Hwl.
        rewrite elem_of_app. right. right. left. }
    split; [congruence | ].
    assert (Htail :
      dll h' (Some w) (match l1 with [] => next nd | _ => next nw end)
        (l1 ++ l2)).
    { apply IH; try assumption.
      - intros w' [= <-]. assumption.
      - intros z nz Hz. apply Hh'. right. assumption. }
    destruct l1 as [ | w' l1].
    + simpl in Hpx. rewrite decide_True in Hn' by congruence.
      rewrite Hn'. assumption.
    + rewrite decide_False in Hn'; [rewrite Hn'; assumption | ].
      rewrite Hpx. destruct (last (w' :: l1)) as [y | ] eqn:E.
      * intros [= <-]. apply Hwl. apply last_Some in E as [l' E].
        rewrite E, <- app_assoc. rewrite elem_of_app. right. left.
      * apply last_None in E. discriminate.
Qed.

(** *** Removal *)

Lemma insert_as_alter (h : gmap addr node_t) x nd (f : node_t -> node_t) :
  h !! x = Some nd -> <[x := f nd]> h = alter f x h.
Proof. intros Hx. rewrite alter_alt, Hx. reflexivity. Qed.

Section Remove.

Variables (a b : Z) (char_signed : bool).
Variable stale : nat -> ptr.

#[local] Abbreviation remove_check := (remove_check a b char_signed stale).
#[local] Abbreviation remove_unlink := (remove_unlink a b char_signed).
#[local] Abbreviation hash := (hash a b char_signed).
#[local] Abbreviation routed := (routed a b char_signed).
#[local] Abbreviation Repr := (Repr a b char_signed).
#[local] Abbreviation hash_search_node := (hash_search_node a b char_signed).
#[local] Abbreviation shrink_hash_table :=
  (shrink_hash_table a b char_signed stale).
#[local] Abbreviation hash_remove := (hash_remove a b char_signed stale).

Lemma hash_remove_phases k s :
  hash_remove k s
  = (q0 ← hash_search_node k;
     match q0 with
     | None => mret tt
     | Some _ => q ← remove_check k q0; remove_unlink k q
     end) s.
Proof.
  unfold hash_remove, remove_check, remove_unlink.
  rewrite !run_bind. destruct (hash_search_node k s) as [[[x | ] s1] | ];
    reflexivity.
Qed.

Lemma shrink_hash_table_ok s bs :
  stale_empty stale -> Repr s bs ->
  exists s' bs',
    shrink_hash_table s = Ok (tt, s')
    /\ Repr s' bs'
    /\ concat bs' ≡ₚ concat bs
    /\ (forall x, payload <$> heap s' !! x = payload <$> heap s !! x)
    /\ m (ht s') = (if m (ht s) <? MIN_TABLE_SIZE * 2 then m (ht s)
                    else Z.quot (m (ht s)) 2)
    /\ n (ht s') = n (ht s).
Proof.
  intros Hst HR. unfold shrink_hash_table. rewrite run_bind. simpl.
  destruct (Z.ltb_spec (m (ht s)) (MIN_TABLE_SIZE * 2)) as [Hlt | Hge].
  - exists s, bs. repeat split; try reflexivity; apply HR.
  - pose proof (repr_int _ _ _ _ _ HR) as [Hmi _].
    unfold MIN_TABLE_SIZE in Hge.
    assert (Hq : 0 < Z.quot (m (ht s)) 2 <= INT_MAX).
    { rewrite Z.quot_div_nonneg by lia.
      pose proof (Z.div_pos (m (ht s)) 2). 
      assert (16 <= m (ht s) / 2) by (apply Z.div_le_lower_bound; lia).
      assert (m (ht s) / 2 <= m (ht s))
        by (apply Z.div_le_upper_bound; lia).
      lia. }
    destruct (resize_hash_table_ok a b char_signed stale s bs _ Hst HR Hq)
      as (s' & bs' & Hrun & HR' & Hperm & Hpay & Hm & Hn).
    exists s', bs'. auto 10.
Qed.

Lemma remove_check_ok s bs k x :
  stale_empty stale -> Repr s bs ->
  hash_search_node k s = Ok (Some x, s) ->
  exists s' bs',
    remove_check k (Some x) s = Ok (Some x, s')
    /\ Repr s' bs'
    /\ concat bs' ≡ₚ concat bs
    /\ (forall z, payload <$> heap s' !! z = payload <$> heap s !! z)
    /\ m (ht s') = (if Z.quot (n (ht s)) 4 <=? m (ht s)
                    then if m (ht s) <? MIN_TABLE_SIZE * 2 then m (ht s)
                         else Z.quot (m (ht s)) 2
                    else m (ht s))
    /\ n (ht s') = n (ht s)
    /\ hash_search_node k s' = Ok (Some x, s').
Proof.
  intros Hst HR Hfind. unfold remove_check.
  rewrite run_bind. simpl. rewrite run_bind. simpl.
  destruct (Z.quot (n (ht s)) 4 <=? m (ht s)).
  - destruct (shrink_hash_table_ok s bs Hst HR)
      as (s' & bs' & Hrun & HR' & Hperm & Hpay & Hm & Hn).
    destruct (hash_search_node_ok a b char_signed s bs k HR)
      as (q & Hq & Hfor).
    rewrite Hfind in Hq. injection Hq as <-.
    destruct (hash_search_node_ok a b char_signed s' bs' k HR')
      as (q' & Hq' & Hfor').
    assert (q' = Some x) as ->.
    { eapply node_for_unique; [apply HR' | | exact Hfor' | ].
      - intros z Hz. eapply chains_in_heap; [apply HR' | exact Hz].
      - eapply node_for_transfer; eassumption. }
    exists s', bs'. rewrite (run_bind_ok _ _ _ _ _ Hrun).
    auto 10.
  - exists s, bs. repeat split; try reflexivity; try assumption; apply HR.
Qed.

(** The unlinking phase on a well-formed table that holds the node
    [x] under the key [k]. *)
Lemma remove_unlink_ok s bs k x :
  Repr s bs -> hash_search_node k s = Ok (Some x, s) ->
  exists s' bs' nd,
    remove_unlink k (Some x) s = Ok (tt, s')
    /\ Repr s' bs'
    /\ x :: concat bs' ≡ₚ concat bs
    /\ heap s !! x = Some nd /\ key nd = k
    /\ heap s' = unlink_heap (heap s) x nd
    /\ m (ht s') = m (ht s)
    /\ n (ht s') = n (ht s) - 1.
Proof.
  intros HR Hfind.
  destruct (hash_search_node_ok a b char_signed s bs k HR)
    as (q0 & Hq0 & Hfor).
  rewrite Hfind in Hq0. injection Hq0 as <-.
  destruct Hfor as (Hxin & nd & Hx & Hk).
  destruct s as [[m1 n1 t1] h1].
  destruct HR as [Hlen [Hmi Hni] Hch Hnd Hrt Hkeys Hn]. simpl in *.
  apply elem_of_concat in Hxin as (i & l & Hl & Hxl).
  pose proof (Hrt i l x nd Hl Hxl Hx) as Hi. rewrite Hk in Hi.
  destruct (Forall2_lookup_r _ _ _ _ _ Hch Hl) as (q & Hq & Hdll).
  apply list_elem_of_split in Hxl as (l1 & l2 & ->).
  pose proof (NoDup_concat_lookup _ _ _ Hnd Hl) as Hndl.
  destruct (dll_at _ _ _ _ _ _ Hdll) as (nd' & Hx' & Hprev & Hnext & _).
  assert (nd' = nd) by congruence. subst nd'.
  assert (Hin : forall z, z ∈ l1 ++ x :: l2 -> is_Some (h1 !! z)).
  { intros z Hz. eapply dll_in_heap; eassumption. }
  (* the neighbours of [x] *)
  assert (Hnx : forall z, next nd = Some z ->
             z ∈ l2 /\ z <> x /\ is_Some (h1 !! z)).
  { intros z Hz. rewrite Hnext in Hz.
    destruct l2 as [ | z' l2]; [discriminate | ]. injection Hz as ->.
    split; [left | ]. split.
    - intros ->. apply NoDup_app in Hndl as (_ & _ & Hndl).
      apply NoDup_cons in Hndl as [Hnin _]. apply Hnin. left.
    - apply Hin. rewrite elem_of_app. right. right. left. }
  assert (Hpv : forall y, prev nd = Some y ->
             y ∈ l1 /\ y <> x /\ is_Some (h1 !! y)).
  { intros y Hy. rewrite Hprev in Hy.
    destruct (last l1) as [y' | ] eqn:E; [ | discriminate].
    injection Hy as ->. apply last_Some in E as [l' ->].
    split; [rewrite elem_of_app; right; left | ]. split.
    - intros ->. apply NoDup_app in Hndl as (_ & Hdisj & _).
      apply (Hdisj x); [rewrite elem_of_app; right; left | left].
    - apply Hin. rewrite elem_of_app. left.
      rewrite elem_of_app. right. left. }
  assert (Hpn : forall y z, prev nd = Some y -> next nd = Some z -> y <> z).
  { intros y z Hy Hz ->. destruct (Hpv z Hy) as [H1 _].
    destruct (Hnx z Hz) as [H2 _].
    apply NoDup_app in Hndl as (_ & Hdisj & _).
    apply (Hdisj z H1). right. assumption. }
  set (q' := match l1 with [] => next nd | _ => q end).
  exists (State (HashT m1 (n1 - 1) (<[i := q']> t1)) (unlink_heap h1 x nd)),
    (<[i := l1 ++ l2]> bs), nd.
  assert (Hperm : x :: concat (<[i := l1 ++ l2]> bs) ≡ₚ concat bs).
  { apply concat_insert_remove. assumption. }
  assert (Hnd' : NoDup (x :: concat (<[i := l1 ++ l2]> bs))).
  { rewrite Hperm. assumption. }
  apply NoDup_cons in Hnd' as [Hxout Hnd'].
  split; [ | split; [ | split; [assumption | ]]]; [ | | simpl; auto].
  - (* the run *)
    unfold remove_unlink.
    rewrite run_bind. simpl.
    rewrite run_bind, int_range_ok.
    2:{ unfold INT_MIN. lia. }
    rewrite run_bind. simpl.
    erewrite run_bind_ok; [ | apply get_next_ok; simpl; eassumption].
    rewrite run_bind.
    assert (Hstep1 :
      (match next nd with
       | Some _ => pv ← get_prev (Some x); set_prev (next nd) pv
       | None => mret tt
       end) (with_n (n1 - 1) (State (HashT m1 n1 t1) h1))
      = Ok (tt, State (HashT m1 (n1 - 1) t1)
                  (match next nd with
                   | Some z =>
                       alter (fun nz => Node (next nz) (prev nd) (key nz)
                                          (value nz)) z h1
                   | None => h1
                   end))).
    { destruct (next nd) as [z | ] eqn:Ez; [ | reflexivity].
      destruct (Hnx z eq_refl) as (_ & Hzx & [nz Hz]).
      erewrite run_bind_ok; [ | apply get_prev_ok; simpl; eassumption].
      erewrite set_prev_ok by (simpl; eassumption).
      unfold with_heap, with_n. simpl.
      rewrite (insert_as_alter _ _ _
                 (fun nz => Node (next nz) (prev nd) (key nz) (value nz))
                 Hz).
      reflexivity. }
    rewrite Hstep1. clear Hstep1.
    set (hA := match next nd with
               | Some z => alter (fun nz => Node (next nz) (prev nd)
                                            (key nz) (value nz)) z h1
               | None => h1
               end).
    assert (HxA : hA !! x = Some nd).
    { unfold hA. destruct (next nd) as [z | ] eqn:Ez; [ | assumption].
      destruct (Hnx z eq_refl) as (_ & Hzx & _).
      rewrite lookup_alter_ne by congruence. assumption. }
    erewrite run_bind_ok; [ | apply get_prev_ok; simpl; eassumption].
    rewrite run_bind.
    assert (Hstep2 :
      (match prev nd with
       | Some _ => nx ← get_next (Some x); set_next (prev nd) nx
       | None =>
           m2 ← get_m; slot ← lift (hash k m2);
           nx ← get_next (Some x); table_set slot nx
       end) (State (HashT m1 (n1 - 1) t1) hA)
      = Ok (tt, State (HashT m1 (n1 - 1) (<[i := q']> t1))
                  (match prev nd with
                   | Some y =>
                       alter (fun ny => Node (next nd) (prev ny) (key ny)
                                          (value ny)) y hA
                   | None => hA
                   end))).
    { destruct (prev nd) as [y | ] eqn:Ey.
      - destruct (Hpv y eq_refl) as (Hyl1 & Hyx & [ny Hy]).
        assert (HyA : hA !! y = Some ny).
        { unfold hA. destruct (next nd) as [z | ] eqn:Ez; [ | assumption].
          rewrite lookup_alter_ne; [assumption | ].
          intros ->. eapply Hpn; reflexivity. }
        erewrite run_bind_ok; [ | apply get_next_ok; simpl; eassumption].
        erewrite set_next_ok by (simpl; eassumption).
        unfold with_heap. simpl.
        rewrite (insert_as_alter _ _ _
                   (fun ny => Node (next nd) (prev ny) (key ny) (value ny))
                   HyA).
        do 4 f_equal. unfold q'.
        destruct l1 as [ | w l1]; [inversion Hyl1 | ].
        symmetry. apply list_insert_id. assumption.
      - rewrite run_bind. simpl.
        rewrite run_bind. unfold lift at 1. rewrite Hi.
        erewrite run_bind_ok; [ | apply get_next_ok; simpl; eassumption].
        rewrite table_set_ok by (simpl; eapply lookup_lt_Some; eassumption).
        unfold with_table. simpl. do 4 f_equal. unfold q'.
        destruct l1 as [ | w l1]; [reflexivity | ].
        exfalso. rewrite Hprev in Ey.
        destruct (last (w :: l1)) eqn:E; [discriminate | ].
        apply last_None in E. discriminate. }
    rewrite Hstep2. clear Hstep2.
    unfold free_hash_node.
    erewrite run_bind_ok.
    2:{ apply load_ok. simpl.
        destruct (prev nd) as [y | ] eqn:Ey; [ | eassumption].
        destruct (Hpv y eq_refl) as (_ & Hyx & _).
        rewrite lookup_alter_ne by congruence. eassumption. }
    reflexivity.
  - (* the table that results *)
    assert (Hold : forall z nz', z <> x ->
               unlink_heap h1 x nd !! z = Some nz' ->
               exists nz, h1 !! z = Some nz /\ key nz = key nz').
    { intros z nz' Hzx Hnz'.
      destruct (payload_lookup h1 (unlink_heap h1 x nd) z nz')
        as (nz & H0 & Hkz & _);
        [apply unlink_heap_payload; assumption | assumption | eauto]. }
    assert (Hsub : forall z, z ∈ concat (<[i := l1 ++ l2]> bs) ->
               z ∈ concat bs /\ z <> x).
    { intros z Hz. split.
      - rewrite <- Hperm. right. assumption.
      - intros ->. contradiction. }
    split; simpl.
    + rewrite length_insert. assumption.
    + lia.
    + apply Forall2_same_length_lookup_2.
      { rewrite !length_insert. eapply Forall2_length. eassumption. }
      intros j p l' Hp Hl'.
      destruct (decide (i = j)) as [<- | Hij].
      * rewrite list_lookup_insert_eq in Hp
          by (eapply lookup_lt_Some; eassumption).
        rewrite list_lookup_insert_eq in Hl'
          by (eapply lookup_lt_Some; eassumption).
        injection Hp as <-. injection Hl' as <-.
        apply (dll_unlink h1 _ None q l1 x l2 nd); try assumption.
        { intros w [=]. }
        intros z nz Hz Hnz.
        assert (Hzx : z <> x).
        { intros ->. apply NoDup_app in Hndl as (_ & Hdisj & Hndl).
          apply NoDup_cons in Hndl as [Hnin _].
          apply elem_of_app in Hz as [Hz | Hz]; [ | contradiction].
          apply (Hdisj x Hz). left. }
        rewrite unlink_heap_other, Hnz by assumption. simpl.
        eexists. split; [reflexivity | ]. simpl. auto.
      * rewrite list_lookup_insert_ne in Hp by assumption.
        rewrite list_lookup_insert_ne in Hl' by assumption.
        destruct (Forall2_lookup_r _ _ _ _ _ Hch Hl') as (p' & Hp' & Hd).
        assert (p' = p) by congruence. subst p'.
        eapply dll_ext; [ | exact Hd].
        intros z nz Hz Hnz.
        assert (Hzl : z ∉ l1 ++ x :: l2).
        { intros Hzin. apply Hij.
          eapply (NoDup_concat_disjoint bs i j); eassumption. }
        assert (Hzx : z <> x).
        { intros ->. apply Hzl. rewrite elem_of_app. right. left. }
        rewrite unlink_heap_other, Hnz by assumption. simpl.
        eexists. split; [reflexivity | ]. simpl.
        rewrite decide_False, decide_False; [auto | | ].
        -- intros Heq. symmetry in Heq. destruct (Hnx z Heq) as [Hz2 _].
           apply Hzl. rewrite elem_of_app. right. right. assumption.
        -- intros Heq. symmetry in Heq. destruct (Hpv z Heq) as [Hz1 _].
           apply Hzl. rewrite elem_of_app. left. assumption.
    + assumption.
    + intros j l' z nz' Hj Hz Hnz'.
      assert (Hzc : z ∈ concat (<[i := l1 ++ l2]> bs)).
      { apply elem_of_concat. eauto. }
      destruct (Hsub z Hzc) as [_ Hzx].
      destruct (Hold z nz' Hzx Hnz') as (nz & Hnz & <-).
      destruct (decide (i = j)) as [<- | Hij].
      * rewrite list_lookup_insert_eq in Hj
          by (eapply lookup_lt_Some; eassumption).
        injection Hj as <-.
        apply (Hrt i _ z nz Hl); [ | assumption].
        rewrite elem_of_app in Hz |- *. destruct Hz; [left | right; right];
          assumption.
      * rewrite list_lookup_insert_ne in Hj by assumption.
        eapply Hrt; eassumption.
    + intros y z ny' nz' Hy Hz Hny' Hnz' Hkk.
      destruct (Hsub y Hy) as [Hyc Hyx]. destruct (Hsub z Hz) as [Hzc Hzx].
      destruct (Hold y ny' Hyx Hny') as (ny & Hny & Hky).
      destruct (Hold z nz' Hzx Hnz') as (nz & Hnz & Hkz).
      eapply Hkeys; try eassumption. congruence.
    + rewrite <- Hperm in Hn. simpl in Hn. lia.
Qed.

End Remove.

(** ** Tables built through the interface *)

Section Interface.

Variables (a b : Z) (char_signed : bool).
Variable stale : nat -> ptr.
Variable node_alloc : gmap addr node_t -> addr.

#[local] Abbreviation reachable :=
  (reachable a b char_signed stale node_alloc).
#[local] Abbreviation hash := (hash a b char_signed).
#[local] Abbreviation Repr := (Repr a b char_signed).
#[local] Abbreviation hash_search_node := (hash_search_node a b char_signed).
#[local] Abbreviation hash_search := (hash_search a b char_signed).
#[local] Abbreviation hash_contains := (hash_contains a b char_signed).
#[local] Abbreviation resize_hash_table :=
  (resize_hash_table a b char_signed stale).
#[local] Abbreviation grow_hash_table :=
  (grow_hash_table a b char_signed stale).
#[local] Abbreviation shrink_hash_table :=
  (shrink_hash_table a b char_signed stale).
#[local] Abbreviation hash_insert :=
  (hash_insert a b char_signed stale node_alloc).
#[local] Abbreviation hash_remove := (hash_remove a b char_signed stale).
#[local] Abbreviation insert_grow := (insert_grow a b char_signed stale).
#[local] Abbreviation insert_place :=
  (insert_place a b char_signed node_alloc).
#[local] Abbreviation remove_check := (remove_check a b char_signed stale).
#[local] Abbreviation remove_unlink := (remove_unlink a b char_signed).

Lemma new_hash_table_repr h : Repr (new_hash_table h) [].
Proof.
  split; simpl; try reflexivity.
  - unfold INT_MAX. lia.
  - constructor.
  - constructor.
  - intros i l x nd Hi. rewrite lookup_nil in Hi. discriminate.
  - intros x y nx ny Hx. inversion Hx.
Qed.

(** An insertion that returns had room. *)
Lemma hash_insert_room k v s u s' :
  hash_insert k v s = Ok (u, s') ->
  hash_search_node k s = Ok (None, s) ->
  room_to_insert s.
Proof.
  intros Hrun Hfind. rewrite hash_insert_phases in Hrun.
  rewrite (run_bind_ok _ _ _ _ _ Hfind) in Hrun.
  apply bind_inv in Hrun as ([] & s1 & Hgrow & Hplace).
  unfold insert_grow in Hgrow.
  apply bind_inv in Hgrow as (n0 & s2 & H1 & Hgrow). inversion H1; subst.
  apply bind_inv in Hgrow as (m0 & s3 & H2 & Hgrow). inversion H2; subst.
  unfold insert_place in Hplace.
  apply bind_inv in Hplace as (n1 & s4 & H3 & Hplace). inversion H3; subst.
  apply bind_inv in Hplace as (n2 & s5 & H4 & _).
  apply int_range_inv in H4 as (_ & _ & Hr).
  destruct (Z.eqb_spec (n (ht s3)) (m (ht s3))) as [Hnm | Hnm].
  - apply grow_m in Hgrow as [Hn Hm]. rewrite Hn in Hr.
    split; [lia | ]. intros _. destruct Hm as [[-> _] | (_ & _ & Hm)].
    + unfold INT_MAX. lia.
    + assumption.
  - inversion Hgrow; subst. split; [lia | tauto].
Qed.

(** *** Lookups on a well-formed table *)

Lemma search_node_present s bs k v :
  Repr s bs -> stored (heap s) (concat bs) k (Some v) ->
  exists x, hash_search_node k s = Ok (Some x, s).
Proof.
  intros HR (x & nd & Hx & Hnd & Hk & _).
  destruct (hash_search_node_ok a b char_signed s bs k HR)
    as ([y | ] & Hq & Hfor); [eauto | ].
  destruct (Hfor x nd Hx Hnd Hk).
Qed.

Lemma hash_search_stored s bs k r :
  Repr s bs -> stored (heap s) (concat bs) k r ->
  hash_search k s = Ok (r, s).
Proof.
  intros HR Hst.
  destruct (hash_search_ok a b char_signed s bs k HR) as (r' & Hrun & Hst').
  rewrite Hrun. do 2 f_equal.
  eapply stored_unique; [apply HR | eassumption | eassumption].
Qed.

Lemma hash_contains_absent s bs k :
  Repr s bs -> stored (heap s) (concat bs) k None ->
  hash_contains k s = Ok (0, s).
Proof.
  intros HR Hst.
  destruct (hash_contains_ok a b char_signed s bs k HR)
    as ([x | ] & Hrun & Hfor); [ | assumption].
  destruct Hfor as (Hx & nd & Hnd & Hk). destruct (Hst x nd Hx Hnd Hk).
Qed.

(** *** Insertion, whether or not the key is there *)

Lemma hash_insert_ok s bs k v :
  stale_empty stale -> alloc_fresh node_alloc -> Repr s bs ->
  room_to_insert s ->
  exists s' bs',
    hash_insert k v s = Ok (tt, s')
    /\ Repr s' bs'
    /\ stored (heap s') (concat bs') k (Some v).
Proof.
  intros Hst Hfresh HR [Hroom1 Hroom2].
  destruct (hash_search_node_ok a b char_signed s bs k HR)
    as ([x | ] & Hfind & Hfor).
  - destruct (hash_insert_present a b char_signed stale node_alloc
                s bs k v x HR Hfind)
      as (nd & Hnd & Hk & Hx & Hrun & HR').
    eexists _, bs. split; [exact Hrun | ]. split; [exact HR' | ].
    eexists x, _. split; [assumption | ]. simpl.
    rewrite lookup_insert_eq. split; [reflexivity | ]. simpl. auto.
  - destruct (hash_insert_absent a b char_signed stale node_alloc
                s bs k v Hst Hfresh HR Hfind Hroom1 Hroom2)
      as (s1 & s' & bs' & x & i & hd & _ & _ & _ & _ & Hrun & HR' & Hperm
          & _ & _ & Hx' & _).
    exists s', bs'. split; [assumption | ]. split; [assumption | ].
    eexists x, _. split; [rewrite Hperm; left | ].
    split; [exact Hx' | ]. simpl. auto.
Qed.

(** *** Removal of a key that is there *)

Lemma hash_remove_present s bs k x :
  stale_empty stale -> Repr s bs ->
  hash_search_node k s = Ok (Some x, s) ->
  exists s1 s' bs',
    remove_check k (Some x) s = Ok (Some x, s1)
    /\ n (ht s1) = n (ht s)
    /\ m (ht s1) = (if Z.quot (n (ht s)) 4 <=? m (ht s)
                    then if m (ht s) <? MIN_TABLE_SIZE * 2 then m (ht s)
                         else Z.quot (m (ht s)) 2
                    else m (ht s))
    /\ hash_search_node k s1 = Ok (Some x, s1)
    /\ remove_unlink k (Some x) s1 = Ok (tt, s')
    /\ hash_remove k s = Ok (tt, s')
    /\ Repr s' bs'
    /\ stored (heap s') (concat bs') k None
    /\ m (ht s') = m (ht s1)
    /\ n (ht s') = n (ht s) - 1.
Proof.
  intros Hst HR Hfind.
  destruct (remove_check_ok a b char_signed stale s bs k x Hst HR Hfind)
    as (s1 & bs1 & Hcheck & HR1 & Hperm1 & Hpay1 & Hm1 & Hn1 & Hfind1).
  destruct (remove_unlink_ok a b char_signed s1 bs1 k x HR1 Hfind1)
    as (s' & bs' & nd & Hunlink & HR' & Hperm & Hx & Hk & Hheap & Hm & Hn).
  exists s1, s', bs'.
  repeat (split; [assumption | ]).
  split.
  { rewrite hash_remove_phases, (run_bind_ok _ _ _ _ _ Hfind).
    rewrite (run_bind_ok _ _ _ _ _ Hcheck). assumption. }
  split; [assumption | ].
  split; [ | split; [assumption | lia]].
  intros z nz' Hz Hnz' Hkz.
  assert (Hnd : NoDup (x :: concat bs')).
  { rewrite Hperm. apply HR1. }
  apply NoDup_cons in Hnd as [Hxout _].
  assert (Hzx : z <> x) by (intros ->; contradiction).
  rewrite Hheap in Hnz'.
  destruct (payload_lookup (heap s1) (unlink_heap (heap s1) x nd) z nz')
    as (nz & Hnz & Hkey & _);
    [apply unlink_heap_payload; assumption | assumption | ].
  apply Hzx.
  eapply (repr_keys _ _ _ _ _ HR1); try eassumption.
  - rewrite <- Hperm. right. assumption.
  - rewrite <- Hperm. left.
  - congruence.
Qed.

Lemma hash_remove_absent s k :
  hash_search_node k s = Ok (None, s) -> hash_remove k s = Ok (tt, s).
Proof.
  intros Hfind. rewrite hash_remove_phases.
  rewrite (run_bind_ok _ _ _ _ _ Hfind). reflexivity.
Qed.

(** *** Every reachable state is a well-formed table *)

Lemma hash_insert_repr s bs k v s' :
  stale_empty stale -> alloc_fresh node_alloc -> Repr s bs ->
  hash_insert k v s = Ok (tt, s') -> exists bs', Repr s' bs'.
Proof.
  intros Hst Hfresh HR Hrun.
  assert (Hroom : room_to_insert s \/
                  exists x, hash_search_node k s = Ok (Some x, s)).
  { destruct (hash_search_node_ok a b char_signed s bs k HR)
      as ([x | ] & Hfind & _); [eauto | ].
    left. eapply hash_insert_room; eassumption. }
  destruct Hroom as [Hroom | [x Hfind]].
  - destruct (hash_insert_ok s bs k v Hst Hfresh HR Hroom)
      as (s2 & bs' & Hrun' & HR' & _).
    rewrite Hrun in Hrun'. injection Hrun' as <-. eauto.
  - destruct (hash_insert_present a b char_signed stale node_alloc
                s bs k v x HR Hfind) as (nd & _ & _ & _ & Hrun' & HR').
    rewrite Hrun in Hrun'. injection Hrun' as ->. eauto.
Qed.

Lemma hash_remove_repr s bs k s' :
  stale_empty stale -> Repr s bs ->
  hash_remove k s = Ok (tt, s') -> exists bs', Repr s' bs'.
Proof.
  intros Hst HR Hrun.
  destruct (hash_search_node_ok a b char_signed s bs k HR)
    as ([x | ] & Hfind & _).
  - destruct (hash_remove_present s bs k x Hst HR Hfind)
      as (s1 & s2 & bs' & _ & _ & _ & _ & _ & Hrun' & HR' & _).
    rewrite Hrun in Hrun'. injection Hrun' as <-. eauto.
  - rewrite (hash_remove_absent s k Hfind) in Hrun.
    injection Hrun as <-. eauto.
Qed.

Lemma reachable_repr s :
  stale_empty stale -> alloc_fresh node_alloc -> reachable s ->
  exists bs, Repr s bs.
Proof.
  intros Hst Hfresh Hreach.
  induction Hreach as [h | s k v s' _ [bs HR] Hrun | s k s' _ [bs HR] Hrun].
  - exists []. apply new_hash_table_repr.
  - eapply hash_insert_repr; eassumption.
  - eapply hash_remove_repr; eassumption.
Qed.

End Interface.

(** ** Insertion on any state *)

(** What follows holds of every state and of every content of the
    blocks [malloc] returns: it says what an insertion has done when
    it returns, not that it returns. *)

Lemma load_inv q s nd s' :
  load q s = Ok (nd, s') ->
  exists x, q = Some x /\ heap s !! x = Some nd /\ s' = s.
Proof.
  unfold load. destruct q as [x | ]; [ | discriminate].
  destruct (heap s !! x) as [nd' | ] eqn:E; [ | discriminate].
  intros [= <- <-]. eauto.
Qed.

Lemma store_inv q nd s u s' :
  store q nd s = Ok (u, s') ->
  exists x, q = Some x /\ is_Some (heap s !! x)
            /\ s' = with_heap (<[x := nd]> (heap s)) s.
Proof.
  unfold store. destruct q as [x | ]; [ | discriminate].
  destruct (heap s !! x) as [nd' | ] eqn:E; [ | discriminate].
  intros [= <-]. eauto.
Qed.

Lemma set_next_inv q v s u s' :
  set_next q v s = Ok (u, s') ->
  exists x nd, q = Some x /\ heap s !! x = Some nd
    /\ s' = with_heap (<[x := Node v (prev nd) (key nd) (value nd)]> (heap s)) s.
Proof.
  unfold set_next. intros Hrun.
  apply bind_inv in Hrun as (nd & s1 & Hload & Hstore).
  apply load_inv in Hload as (x & -> & Hx & ->).
  apply store_inv in Hstore as (x' & [= <-] & _ & ->). eauto.
Qed.

Lemma set_prev_inv q v s u s' :
  set_prev q v s = Ok (u, s') ->
  exists x nd, q = Some x /\ heap s !! x = Some nd
    /\ s' = with_heap (<[x := Node (next nd) v (key nd) (value nd)]> (heap s)) s.
Proof.
  unfold set_prev. intros Hrun.
  apply bind_inv in Hrun as (nd & s1 & Hload & Hstore).
  apply load_inv in Hload as (x & -> & Hx & ->).
  apply store_inv in Hstore as (x' & [= <-] & _ & ->). eauto.
Qed.

Lemma set_value_inv q v s u s' :
  set_value q v s = Ok (u, s') ->
  exists x nd, q = Some x /\ heap s !! x = Some nd
    /\ s' = with_heap (<[x := Node (next nd) (prev nd) (key nd) v]> (heap s)) s.
Proof.
  unfold set_value. intros Hrun.
  apply bind_inv in Hrun as (nd & s1 & Hload & Hstore).
  apply load_inv in Hload as (x & -> & Hx & ->).
  apply store_inv in Hstore as (x' & [= <-] & _ & ->). eauto.
Qed.

Lemma array_get_inv (t : list ptr) i v :
  array_get t i = Ok v -> 0 <= i /\ t !! Z.to_nat i = Some v.
Proof.
  unfold array_get. destruct (Z.ltb_spec i 0); simpl; [discriminate | ].
  destruct (Z.of_nat (length t) <=? i); [discriminate | ].
  destruct (t !! Z.to_nat i); [ | discriminate].
  intros [= ->]. auto.
Qed.

Lemma array_set_inv (t : list ptr) i v t' :
  array_set t i v = Ok t' ->
  0 <= i /\ (Z.to_nat i < length t)%nat /\ t' = <[Z.to_nat i := v]> t.
Proof.
  unfold array_set. destruct (Z.ltb_spec i 0); simpl; [discriminate | ].
  destruct (Z.leb_spec (Z.of_nat (length t)) i); [discriminate | ].
  intros [= <-]. repeat split; lia.
Qed.

Lemma table_get_inv i s v s' :
  table_get i s = Ok (v, s') ->
  0 <= i /\ table (ht s) !! Z.to_nat i = Some v /\ s' = s.
Proof.
  unfold table_get. intros Hrun.
  apply bind_inv in Hrun as (t & s1 & Hg & Hrun). inversion Hg; subst.
  apply lift_inv in Hrun as [Hget ->].
  apply array_get_inv in Hget. tauto.
Qed.

Lemma table_set_inv i v s u s' :
  table_set i v s = Ok (u, s') ->
  0 <= i /\ (Z.to_nat i < length (table (ht s)))%nat
  /\ s' = with_table (<[Z.to_nat i := v]> (table (ht s))) s.
Proof.
  unfold table_set. intros Hrun.
  apply bind_inv in Hrun as (t & s1 & Hg & Hrun). inversion Hg; subst.
  apply bind_inv in Hrun as (t' & s2 & Hset & Hput).
  apply lift_inv in Hset as [Hset ->].
  apply array_set_inv in Hset as (Hi & Hlt & ->).
  inversion Hput. auto.
Qed.

Section AnyState.

Variables (a b : Z) (char_signed : bool).
Variable stale : nat -> ptr.
Variable node_alloc : gmap addr node_t -> addr.

#[local] Abbreviation hash := (hash a b char_signed).
#[local] Abbreviation hash_search_node := (hash_search_node a b char_signed).
#[local] Abbreviation hash_search := (hash_search a b char_signed).
#[local] Abbreviation hash_insert :=
  (hash_insert a b char_signed stale node_alloc).
#[local] Abbreviation insert_grow := (insert_grow a b char_signed stale).
#[local] Abbreviation insert_place :=
  (insert_place a b char_signed node_alloc).

(** A walk does not see the value of the nodes it passes. *)
Lemma search_list_set_value fuel q k s r x nd v :
  heap s !! x = Some nd ->
  search_list fuel q k s = Ok (r, s) ->
  search_list fuel q k
    (with_heap (<[x := Node (next nd) (prev nd) (key nd) v]> (heap s)) s)
  = Ok (r, with_heap
             (<[x := Node (next nd) (prev nd) (key nd) v]> (heap s)) s).
Proof.
  intros Hx. revert q. induction fuel as [ | fuel IH]; intros [y | ]; simpl;
    try discriminate; try (intros [= <-]; reflexivity).
  intros Hrun. apply bind_inv in Hrun as (ny & s1 & Hload & Hrun).
  apply load_inv in Hload as (y' & [= <-] & Hy & ->).
  destruct (decide (x = y)) as [<- | Hxy].
  - assert (ny = nd) by congruence. subst ny.
    erewrite run_bind_ok; [ | apply load_ok; simpl; apply lookup_insert_eq].
    simpl. destruct (String.eqb (key nd) k).
    + inversion Hrun; subst. reflexivity.
    + apply IH. assumption.
  - erewrite run_bind_ok;
      [ | apply load_ok; simpl; rewrite lookup_insert_ne by assumption;
          eassumption].
    destruct (String.eqb (key ny) k).
    + inversion Hrun; subst. reflexivity.
    + apply IH. assumption.
Qed.

(** A lookup that starts at a node carrying the key ends there. *)
Lemma hash_search_at_head s k v slot x nd :
  hash k (m (ht s)) = Ok slot ->
  0 <= slot -> table (ht s) !! Z.to_nat slot = Some (Some x) ->
  heap s !! x = Some nd -> key nd = k -> value nd = v ->
  hash_search_node k s = Ok (Some x, s)
  /\ hash_search k s = Ok (Some v, s).
Proof.
  intros Hhash Hslot Htab Hx Hk Hv.
  assert (Hnode : hash_search_node k s = Ok (Some x, s)).
  { unfold hash_search_node. rewrite run_bind. simpl.
    destruct (Z.eqb_spec (m (ht s)) 0) as [Hz | Hnz].
    { rewrite Hz, hash_zero in Hhash. discriminate. }
    rewrite run_bind. unfold lift at 1. rewrite Hhash.
    rewrite <- (Z2Nat.id slot Hslot).
    rewrite (run_bind_ok _ _ _ _ _ (table_get_ok _ _ _ Htab)).
    rewrite run_bind. simpl.
    assert (Hsize : size (heap s) <> 0%nat).
    { apply (map_size_ne_0_lookup_2 _ x). eauto. }
    destruct (size (heap s)) as [ | fuel]; [congruence | ]. simpl.
    rewrite (run_bind_ok _ _ _ _ _ (load_ok _ _ _ Hx)).
    rewrite Hk, String.eqb_refl. reflexivity. }
  split; [assumption | ].
  unfold hash_search. rewrite (run_bind_ok _ _ _ _ _ Hnode).
  rewrite (run_bind_ok _ _ _ _ _ (load_ok _ _ _ Hx)).
  rewrite Hv. reflexivity.
Qed.

Lemma hash_search_node_set_value s k r x nd v :
  heap s !! x = Some nd ->
  hash_search_node k s = Ok (r, s) ->
  hash_search_node k
    (with_heap (<[x := Node (next nd) (prev nd) (key nd) v]> (heap s)) s)
  = Ok (r, with_heap
             (<[x := Node (next nd) (prev nd) (key nd) v]> (heap s)) s).
Proof.
  intros Hx. unfold hash_search_node. rewrite !run_bind. simpl.
  destruct (m (ht s) =? 0); [intros [= <-]; reflexivity | ].
  rewrite !run_bind.
  destruct (lift (hash k (m (ht s))) s) as [[slot s1] | ] eqn:Hl;
    [ | discriminate].
  apply lift_inv in Hl as [Hh ->].
  unfold lift at 1. rewrite Hh. intros Hrun.
  apply bind_inv in Hrun as (head & s1 & Hget & Hrun).
  apply table_get_inv in Hget as (Hslot & Htab & ->).
  rewrite <- (Z2Nat.id slot Hslot).
  erewrite run_bind_ok; [ | apply table_get_ok; simpl; eassumption].
  rewrite run_bind in Hrun |- *. simpl in Hrun |- *.
  rewrite map_size_insert_Some by eauto.
  apply search_list_set_value; assumption.
Qed.

(** What [insert_place] has done when it returns. *)
Lemma insert_place_inv s1 k v u s' :
  insert_place k v s1 = Ok (u, s') ->
  exists slot x nd,
    hash k (m (ht s')) = Ok slot /\ 0 <= slot
    /\ table (ht s') !! Z.to_nat slot = Some (Some x)
    /\ heap s' !! x = Some nd /\ key nd = k /\ value nd = v.
Proof.
  unfold insert_place. intros Hrun.
  apply bind_inv in Hrun as (n1 & sA & H1 & Hrun). inversion H1; subst.
  apply bind_inv in Hrun as (n2 & sA' & H2 & Hrun).
  apply int_range_inv in H2 as (-> & -> & _).
  apply bind_inv in Hrun as ([] & sB & H3 & Hrun). inversion H3; subst.
  apply bind_inv in Hrun as (q & sC & H4 & Hrun). inversion H4; subst.
  apply bind_inv in Hrun as (m1 & sD & H5 & Hrun). inversion H5; subst.
  apply bind_inv in Hrun as (slot & sE & H6 & Hrun).
  apply lift_inv in H6 as [Hhash ->].
  apply bind_inv in Hrun as (head & sF & H7 & Hrun).
  apply table_get_inv in H7 as (Hslot & _ & ->).
  apply bind_inv in Hrun as ([] & sG & Hlink & Hset).
  apply table_set_inv in Hset as (_ & Hlt & ->).
  set (x := node_alloc (heap sA)) in *.
  assert (Hx : exists nd, heap sG !! x = Some nd /\ key nd = k
                          /\ value nd = v /\ ht sG = ht (with_n (n (ht sA) + 1) sA)).
  { destruct head as [y | ].
    - apply bind_inv in Hlink as ([] & sH & Hn & Hp).
      apply set_next_inv in Hn as (x' & nx & [= <-] & Hnx & ->).
      simpl in Hnx. rewrite lookup_insert_eq in Hnx. injection Hnx as <-.
      apply set_prev_inv in Hp as (y' & ny & [= <-] & Hny & ->).
      simpl in Hny |- *. rewrite insert_insert_eq in Hny |- *.
      destruct (decide (y = x)) as [-> | Hyx].
      + rewrite lookup_insert_eq in Hny. injection Hny as <-.
        rewrite lookup_insert_eq. eauto.
      + rewrite lookup_insert_ne by assumption.
        rewrite lookup_insert_eq. eauto.
    - inversion Hlink; subst. simpl. rewrite lookup_insert_eq. eauto. }
  destruct Hx as (nd & Hnd & Hk & Hv & Hht).
  exists slot, x, nd. simpl. rewrite Hht. simpl.
  repeat split; try assumption.
  apply list_lookup_insert_eq. rewrite Hht in Hlt. exact Hlt.
Qed.

(** Whenever [hash_insert] returns, the key is found, with the value
    just given. *)
Lemma inserted_key_is_found s k v u s' :
  hash_insert k v s = Ok (u, s') ->
  (exists x, hash_search_node k s' = Ok (Some x, s'))
  /\ hash_search k s' = Ok (Some v, s').
Proof.
  intros Hrun. rewrite hash_insert_phases in Hrun.
  apply bind_inv in Hrun as (found & s1 & Hfind & Hrun).
  pose proof (hash_search_node_reads _ _ _ _ _ _ _ Hfind) as <-.
  destruct found as [x | ].
  - apply set_value_inv in Hrun as (x' & nd & [= <-] & Hx & ->).
    pose proof (hash_search_node_set_value _ _ _ _ _ v Hx Hfind) as Hfind'.
    split; [eauto | ].
    unfold hash_search. rewrite (run_bind_ok _ _ _ _ _ Hfind').
    erewrite run_bind_ok; [ | apply load_ok; simpl; apply lookup_insert_eq].
    reflexivity.
  - apply bind_inv in Hrun as ([] & s2 & _ & Hplace).
    apply insert_place_inv in Hplace
      as (slot & x & nd & Hhash & Hslot & Htab & Hx & Hk & Hv).
    destruct (hash_search_at_head s' k v slot x nd) as [H1 H2];
      try assumption.
    eauto.
Qed.

End AnyState.

(** ** The two counters, on any state *)

#[local] Instance same_sizes_preorder : PreOrder same_sizes.
Proof.
  split; [intros s; split; reflexivity | ].
  intros s1 s2 s3 [H1 H2] [H3 H4]. unfold same_sizes. split; congruence.
Qed.

Lemma same_ht_same_sizes {A} (c : M A) :
  preserves same_ht c -> preserves same_sizes c.
Proof.
  apply preserves_weaken. unfold same_ht, same_sizes.
  intros s s' ->. split; reflexivity.
Qed.

Lemma table_set_sizes i v : preserves same_sizes (table_set i v).
Proof.
  unfold table_set. pres. apply preserves_modify. intros s. split; reflexivity.
Qed.

#[local] Hint Resolve table_set_sizes : pres.
#[local] Hint Extern 5 (preserves same_sizes _) =>
  apply same_ht_same_sizes; solve [auto with pres] : pres.

Section Sizes.

Variables (a b : Z) (char_signed : bool).
Variable stale : nat -> ptr.
Variable node_alloc : gmap addr node_t -> addr.

#[local] Abbreviation filled :=
  (filled a b char_signed stale node_alloc).
#[local] Abbreviation hash_search_node := (hash_search_node a b char_signed).
#[local] Abbreviation hash_insert :=
  (hash_insert a b char_signed stale node_alloc).
#[local] Abbreviation hash_remove := (hash_remove a b char_signed stale).
#[local] Abbreviation insert_grow := (insert_grow a b char_signed stale).
#[local] Abbreviation insert_place :=
  (insert_place a b char_signed node_alloc).
#[local] Abbreviation remove_check := (remove_check a b char_signed stale).
#[local] Abbreviation remove_unlink := (remove_unlink a b char_signed).

#[local] Hint Resolve new_hash_node_ht free_hash_node_ht : pres.

Lemma insert_grow_sizes s u s1 :
  insert_grow s = Ok (u, s1) ->
  n (ht s1) = n (ht s)
  /\ m (ht s1) = (if n (ht s) =? m (ht s)
                  then if m (ht s) =? 0 then MIN_TABLE_SIZE
                       else 2 * m (ht s)
                  else m (ht s))
  /\ (n (ht s) = m (ht s) -> m (ht s) <> 0 -> 2 * m (ht s) <= INT_MAX).
Proof.
  unfold insert_grow. intros Hrun.
  apply bind_inv in Hrun as (n0 & s2 & H1 & Hrun). inversion H1; subst.
  apply bind_inv in Hrun as (m0 & s3 & H2 & Hrun). inversion H2; subst.
  destruct (Z.eqb_spec (n (ht s3)) (m (ht s3))) as [Hnm | Hnm].
  - apply grow_m in Hrun as [Hn [[Hz Hm] | (Hnz & Hm & Hmax)]].
    + rewrite Hz. simpl. split; [assumption | ]. split; [assumption | ].
      intros _ Hne. contradiction.
    + destruct (Z.eqb_spec (m (ht s3)) 0); [contradiction | ].
      split; [assumption | ]. split; [assumption | ]. intros _ _. assumption.
  - inversion Hrun; subst. split; [reflexivity | ]. split; [reflexivity | ].
    intros Heq. contradiction.
Qed.

Lemma insert_place_sizes k v s1 u s' :
  insert_place k v s1 = Ok (u, s') ->
  m (ht s') = m (ht s1) /\ n (ht s') = n (ht s1) + 1
  /\ n (ht s1) + 1 <= INT_MAX.
Proof.
  unfold insert_place. intros Hrun.
  apply bind_inv in Hrun as (n1 & sA & H1 & Hrun). inversion H1; subst.
  apply bind_inv in Hrun as (n2 & sA' & H2 & Hrun).
  apply int_range_inv in H2 as (-> & -> & Hr).
  apply bind_inv in Hrun as ([] & sB & H3 & Hrun). inversion H3; subst.
  match type of Hrun with ?c _ = _ =>
    assert (Hp : preserves same_sizes c) by pres end.
  destruct (Hp _ _ _ Hrun) as [Hm Hn]. simpl in Hm, Hn.
  repeat split; [assumption | assumption | lia].
Qed.

(** What [hash_insert] does to [m] and [n] when it returns. *)
Lemma hash_insert_sizes k v s u s' :
  hash_insert k v s = Ok (u, s') ->
  (exists x, hash_search_node k s = Ok (Some x, s))
  /\ m (ht s') = m (ht s) /\ n (ht s') = n (ht s)
  \/ hash_search_node k s = Ok (None, s)
     /\ n (ht s') = n (ht s) + 1
     /\ m (ht s') = (if n (ht s) =? m (ht s)
                     then if m (ht s) =? 0 then MIN_TABLE_SIZE
                          else 2 * m (ht s)
                     else m (ht s)).
Proof.
  intros Hrun. rewrite hash_insert_phases in Hrun.
  apply bind_inv in Hrun as (found & s1 & Hfind & Hrun).
  pose proof (hash_search_node_reads _ _ _ _ _ _ _ Hfind) as <-.
  destruct found as [x | ].
  - left. apply preserves_set_value in Hrun. unfold same_ht in Hrun.
    rewrite Hrun. eauto.
  - right. apply bind_inv in Hrun as ([] & s2 & Hgrow & Hplace).
    apply insert_grow_sizes in Hgrow as (Hn & Hm & _).
    apply insert_place_sizes in Hplace as (Hm' & Hn' & _).
    split; [assumption | ]. split; congruence.
Qed.

Lemma remove_check_sizes k q0 s q s1 :
  remove_check k q0 s = Ok (q, s1) ->
  n (ht s1) = n (ht s)
  /\ m (ht s1) = (if Z.quot (n (ht s)) 4 <=? m (ht s)
                  then if m (ht s) <? MIN_TABLE_SIZE * 2 then m (ht s)
                       else Z.quot (m (ht s)) 2
                  else m (ht s)).
Proof.
  unfold remove_check. intros Hcheck.
  apply bind_inv in Hcheck as (n0 & sA & H1 & Hcheck). inversion H1; subst.
  apply bind_inv in Hcheck as (m0 & sB & H2 & Hcheck). inversion H2; subst.
  destruct (Z.quot (n (ht sB)) 4 <=? m (ht sB)).
  - apply bind_inv in Hcheck as ([] & sC & Hshrink & Hfind2).
    pose proof (hash_search_node_reads _ _ _ _ _ _ _ Hfind2) as <-.
    apply shrink_m in Hshrink. assumption.
  - inversion Hcheck; subst. auto.
Qed.

Lemma remove_unlink_sizes k q s1 u s' :
  remove_unlink k q s1 = Ok (u, s') ->
  m (ht s') = m (ht s1) /\ n (ht s') = n (ht s1) - 1
  /\ INT_MIN <= n (ht s1) - 1.
Proof.
  unfold remove_unlink. intros Hunlink.
  apply bind_inv in Hunlink as (n1 & sA & H1 & Hunlink). inversion H1; subst.
  apply bind_inv in Hunlink as (n2 & sA' & H2 & Hunlink).
  apply int_range_inv in H2 as (-> & -> & Hr).
  apply bind_inv in Hunlink as ([] & sB & H3 & Hunlink). inversion H3; subst.
  match type of Hunlink with ?c _ = _ =>
    assert (Hp : preserves same_sizes c) by pres end.
  destruct (Hp _ _ _ Hunlink) as [Hm' Hn']. simpl in Hm', Hn'.
  repeat split; [assumption | assumption | lia].
Qed.

(** What [hash_remove] does to [m] and [n] when it returns. *)
Lemma hash_remove_sizes k s u s' :
  hash_remove k s = Ok (u, s') ->
  hash_search_node k s = Ok (None, s) /\ s' = s
  \/ (exists x, hash_search_node k s = Ok (Some x, s))
     /\ n (ht s') = n (ht s) - 1
     /\ m (ht s') = (if Z.quot (n (ht s)) 4 <=? m (ht s)
                     then if m (ht s) <? MIN_TABLE_SIZE * 2 then m (ht s)
                          else Z.quot (m (ht s)) 2
                     else m (ht s)).
Proof.
  intros Hrun. rewrite hash_remove_phases in Hrun.
  apply bind_inv in Hrun as (q0 & s1 & Hfind & Hrun).
  pose proof (hash_search_node_reads _ _ _ _ _ _ _ Hfind) as <-.
  destruct q0 as [x | ]; [right | left; inversion Hrun; subst; auto].
  split; [eauto | ].
  apply bind_inv in Hrun as (q & s2 & Hcheck & Hunlink).
  assert (Hc : n (ht s2) = n (ht s)
               /\ m (ht s2) = (if Z.quot (n (ht s)) 4 <=? m (ht s)
                               then if m (ht s) <? MIN_TABLE_SIZE * 2
                                    then m (ht s)
                                    else Z.quot (m (ht s)) 2
                               else m (ht s))).
  { unfold remove_check in Hcheck.
    apply bind_inv in Hcheck as (n0 & sA & H1 & Hcheck). inversion H1; subst.
    apply bind_inv in Hcheck as (m0 & sB & H2 & Hcheck). inversion H2; subst.
    destruct (Z.quot (n (ht sB)) 4 <=? m (ht sB)).
    - apply bind_inv in Hcheck as ([] & sC & Hshrink & Hfind2).
      pose proof (hash_search_node_reads _ _ _ _ _ _ _ Hfind2) as <-.
      apply shrink_m in Hshrink. assumption.
    - inversion Hcheck; subst. auto. }
  destruct Hc as [Hn Hm]. rewrite <- Hm, <- Hn.
  unfold remove_unlink in Hunlink.
  apply bind_inv in Hunlink as (n1 & sA & H1 & Hunlink). inversion H1; subst.
  apply bind_inv in Hunlink as (n2 & sA' & H2 & Hunlink).
  apply int_range_inv in H2 as (-> & -> & Hr).
  apply bind_inv in Hunlink as ([] & sB & H3 & Hunlink). inversion H3; subst.
  match type of Hunlink with ?c _ = _ =>
    assert (Hp : preserves same_sizes c) by pres end.
  destruct (Hp _ _ _ Hunlink) as [Hm' Hn']. simpl in Hm', Hn'.
  split; assumption.
Qed.

End Sizes.

(** ** A rehash into a block that was not cleared *)

(** What follows holds of every content of the block [malloc] returns
    for the new bucket array: it says what a rehash of a well-formed
    table has done when it returns, not that it returns. *)

Lemma wchain_ext h h' q l :
  (forall x, x ∈ l -> next <$> h' !! x = next <$> h !! x) ->
  wchain h q l -> wchain h' q l.
Proof.
  revert q. induction l as [ | x l IH]; intros q Hsame; simpl; [auto | ].
  intros (-> & nd & Hx & Hl). split; [reflexivity | ].
  pose proof (Hsame x ltac:(left)) as Hn. rewrite Hx in Hn.
  destruct (h' !! x) as [nd' | ]; [ | discriminate].
  injection Hn as Hn. exists nd'. split; [reflexivity | ].
  rewrite Hn. apply IH; [ | assumption].
  intros y Hy. apply Hsame. right. assumption.
Qed.

Lemma wchains_ext h h' t nbs :
  (forall x, x ∈ concat nbs -> next <$> h' !! x = next <$> h !! x) ->
  Forall2 (wchain h) t nbs -> Forall2 (wchain h') t nbs.
Proof.
  intros Hsame Hch. induction Hch as [ | q l t nbs Hq Hch IH].
  - constructor.
  - constructor.
    + eapply wchain_ext; [ | eassumption].
      intros x Hx. apply Hsame. simpl. rewrite elem_of_app. auto.
    + apply IH. intros x Hx. apply Hsame. simpl. rewrite elem_of_app. auto.
Qed.

Lemma wchain_in_heap h q l x : wchain h q l -> x ∈ l -> is_Some (h !! x).
Proof.
  revert q. induction l as [ | y l IH]; intros q Hl Hx; [inversion Hx | ].
  destruct Hl as (_ & nd & Hy & Hl).
  apply elem_of_cons in Hx as [-> | Hx]; [eauto | eapply IH; eassumption].
Qed.

(** A walk along such a chain finds the node that carries the key,
    when the nodes before it carry other keys. *)
Lemma search_wchain s k x nd l :
  heap s !! x = Some nd -> key nd = k -> x ∈ l ->
  (forall y ny, y ∈ l -> y <> x -> heap s !! y = Some ny -> key ny <> k) ->
  forall q fuel,
    wchain (heap s) q l -> (length l <= fuel)%nat ->
    search_list fuel q k s = Ok (Some x, s).
Proof.
  intros Hx Hk. induction l as [ | y l IH]; intros Hin Hother q fuel Hl Hfuel;
    [inversion Hin | ].
  destruct Hl as (-> & ny & Hy & Hl).
  destruct fuel as [ | fuel]; [simpl in Hfuel; lia | ].
  cbn [search_list]. rewrite (run_bind_ok _ _ _ _ _ (load_ok _ _ _ Hy)).
  destruct (decide (y = x)) as [-> | Hne].
  - assert (ny = nd) by congruence. subst ny.
    rewrite Hk, String.eqb_refl. reflexivity.
  - destruct (String.eqb_spec (key ny) k) as [Heq | _].
    { destruct (Hother y ny ltac:(left) Hne Hy Heq). }
    apply IH.
    + apply elem_of_cons in Hin as [-> | Hin]; [congruence | assumption].
    + intros z nz Hz. apply Hother. right. assumption.
    + assumption.
    + simpl in Hfuel. lia.
Qed.

Section Relink.

Variables (a b : Z) (char_signed : bool).
Variable stale : nat -> ptr.

#[local] Abbreviation hash := (hash a b char_signed).
#[local] Abbreviation Repr := (Repr a b char_signed).
#[local] Abbreviation Relinking := (Relinking a b char_signed).
#[local] Abbreviation hash_search_node := (hash_search_node a b char_signed).
#[local] Abbreviation hash_search := (hash_search a b char_signed).
#[local] Abbreviation resize_hash_table :=
  (resize_hash_table a b char_signed stale).
#[local] Abbreviation grow_hash_table :=
  (grow_hash_table a b char_signed stale).
#[local] Abbreviation shrink_hash_table :=
  (shrink_hash_table a b char_signed stale).

Lemma relinking_start h0 newm (t : list ptr) :
  Relinking h0 newm [] h0 t (replicate (length t) []).
Proof.
  split.
  - induction t as [ | q t IH]; simpl; constructor; [exact I | assumption].
  - rewrite concat_replicate_nil. reflexivity.
  - reflexivity.
  - reflexivity.
  - intros i l x nd Hl Hx. apply lookup_replicate in Hl as [-> _].
    inversion Hx.
Qed.

(** One node is put in front of its slot: the heap [h'] differs from
    [h] in the links of [x], whose [next] is now the former head, and
    in [prev] fields. *)
Lemma relinking_step h0 newm done h t nbs x nd i hd h' :
  Relinking h0 newm done h t nbs -> x ∉ done ->
  h !! x = Some nd -> hash (key nd) newm = Ok (Z.of_nat i) ->
  t !! i = Some hd ->
  (exists nd', h' !! x = Some nd' /\ next nd' = hd
               /\ payload nd' = payload nd) ->
  (forall y, y <> x -> next <$> h' !! y = next <$> h !! y) ->
  (forall y, y <> x -> payload <$> h' !! y = payload <$> h !! y) ->
  exists l,
    nbs !! i = Some l
    /\ Relinking h0 newm (done ++ [x]) h' (<[i := Some x]> t)
         (<[i := x :: l]> nbs).
Proof.
  intros [Hch Hperm Hpay Hnext Hrt] Hx Hnd Hi Hti (nd' & Hnd' & Hnx & Hpl)
    Hkeepn Hkeepp.
  destruct (Forall2_lookup_l _ _ _ _ _ Hch Hti) as (l & Hl & Hq).
  assert (Hxl : forall j lj, nbs !! j = Some lj -> x ∉ lj).
  { intros j lj Hj Hin. apply Hx. rewrite <- Hperm.
    apply elem_of_concat. eauto. }
  exists l. split; [assumption | ]. split.
  - apply Forall2_insert.
    + eapply wchains_ext; [ | eassumption].
      intros y Hy. apply Hkeepn. intros ->. apply Hx.
      rewrite <- Hperm. assumption.
    + simpl. split; [reflexivity | ]. exists nd'. split; [assumption | ].
      rewrite Hnx. eapply wchain_ext; [ | eassumption].
      intros y Hy. apply Hkeepn. intros ->. exact (Hxl i l Hl Hy).
  - rewrite (concat_insert_cons _ _ _ _ Hl), Hperm.
    apply Permutation_cons_append.
  - intros y. rewrite <- Hpay. destruct (decide (y = x)) as [-> | Hne].
    + rewrite Hnd', Hnd. simpl. congruence.
    + apply Hkeepp. assumption.
  - intros y Hy. rewrite elem_of_app, list_elem_of_singleton in Hy.
    rewrite <- Hnext by tauto. apply Hkeepn. intros ->. tauto.
  - intros j lj y ny Hj Hy Hny.
    destruct (decide (y = x)) as [-> | Hne].
    + assert (ny = nd') by congruence. subst ny.
      replace (key nd') with (key nd)
        by (unfold payload in Hpl; congruence).
      rewrite Hi. do 2 f_equal.
      destruct (decide (i = j)) as [ | Hij]; [assumption | ].
      rewrite list_lookup_insert_ne in Hj by assumption.
      destruct (Hxl j lj Hj Hy).
    + destruct (payload_lookup h h' y ny (Hkeepp y Hne) Hny)
        as (ny0 & Hny0 & <- & _).
      destruct (decide (i = j)) as [<- | Hij].
      * rewrite list_lookup_insert_eq in Hj
          by (eapply lookup_lt_Some; eassumption).
        injection Hj as <-.
        apply elem_of_cons in Hy as [ | Hy]; [contradiction | ].
        eapply Hrt; eassumption.
      * rewrite list_lookup_insert_ne in Hj by assumption.
        eapply Hrt; eassumption.
Qed.

(** The loop of [resize_hash_table] over one old chain, once it has
    returned. *)
Lemma rehash_list_relinks h0 newm s0 l :
  forall done h t nbs pv q fuel t' s1,
    Relinking h0 newm done h t nbs ->
    dll h0 pv q l -> NoDup (done ++ l) ->
    rehash_list a b char_signed fuel newm q t (with_heap h s0)
    = Ok (t', s1) ->
    exists h' nbs',
      s1 = with_heap h' s0 /\ Relinking h0 newm (done ++ l) h' t' nbs'.
Proof.
  induction l as [ | x l IH];
    intros done h t nbs pv q fuel t' s1 HR Hdll Hnd Hrun.
  - simpl in Hdll. subst q. destruct fuel; inversion Hrun; subst.
    + exists h, nbs. rewrite app_nil_r. auto.
    + exists h, nbs. rewrite app_nil_r. auto.
  - destruct Hdll as (-> & nd0 & Hx0 & _ & Hdll).
    destruct fuel as [ | fuel]; [discriminate | ].
    cbn [rehash_list] in Hrun.
    assert (Hxd : x ∉ done).
    { apply NoDup_app in Hnd as (_ & Hdisj & _).
      intros Hin. apply (Hdisj x Hin). left. }
    apply bind_inv in Hrun as (nxt & sA & Hnxt & Hrun).
    unfold get_next in Hnxt.
    apply bind_inv in Hnxt as (nd & sA' & Hload & Hret).
    apply load_inv in Hload as (x' & [= <-] & Hx & ->).
    inversion Hret; subst nxt sA. clear Hret. simpl in Hx.
    apply bind_inv in Hrun as (nd1 & sB & Hload & Hrun).
    apply load_inv in Hload as (x' & [= <-] & Hx' & ->).
    simpl in Hx'. assert (nd1 = nd) by congruence. subst nd1. clear Hx'.
    apply bind_inv in Hrun as (slot & sC & Hslot & Hrun).
    apply lift_inv in Hslot as [Hslot ->].
    apply bind_inv in Hrun as ([] & sD & Hsp & Hrun).
    apply set_prev_inv in Hsp as (x' & nd1 & [= <-] & Hx' & ->).
    simpl in Hx'. assert (nd1 = nd) by congruence. subst nd1. clear Hx'.
    apply bind_inv in Hrun as ([] & sE & Hsn & Hrun).
    apply set_next_inv in Hsn as (x' & nd1 & [= <-] & Hx' & ->).
    simpl in Hx'. rewrite lookup_insert_eq in Hx'. injection Hx' as <-.
    simpl in Hrun. rewrite insert_insert_eq in Hrun.
    apply bind_inv in Hrun as (hd & sF & Hget & Hrun).
    apply lift_inv in Hget as [Hget ->].
    apply array_get_inv in Hget as [Hslot0 Hti].
    apply bind_inv in Hrun as ([] & sG & Hlink & Hrun).
    apply bind_inv in Hrun as (t1 & sH & Hset & Hrun).
    apply lift_inv in Hset as [Hset ->].
    apply array_set_inv in Hset as (_ & _ & ->).
    set (h2 := <[x := Node None None (key nd) (value nd)]> h) in *.
    assert (Hstep : exists h4,
               sG = with_heap h4 s0
               /\ (exists nd', h4 !! x = Some nd' /\ next nd' = hd
                               /\ payload nd' = payload nd)
               /\ (forall y, y <> x -> next <$> h4 !! y = next <$> h !! y)
               /\ (forall y, y <> x ->
                     payload <$> h4 !! y = payload <$> h !! y)).
    { destruct hd as [z | ].
      - apply bind_inv in Hlink as ([] & sI & Hsp & Hsn).
        apply set_prev_inv in Hsp as (z' & nz & [= <-] & Hz & ->).
        apply set_next_inv in Hsn as (x' & nx & [= <-] & Hnx & ->).
        simpl in Hz, Hnx |- *.
        eexists. split; [reflexivity | ]. split; [ | split].
        + eexists. rewrite lookup_insert_eq. split; [reflexivity | ].
          split; [reflexivity | ].
          destruct (decide (z = x)) as [-> | Hzx].
          * rewrite lookup_insert_eq in Hnx. injection Hnx as <-.
            unfold h2 in Hz. rewrite lookup_insert_eq in Hz.
            injection Hz as <-. reflexivity.
          * rewrite lookup_insert_ne in Hnx by assumption.
            unfold h2 in Hnx. rewrite lookup_insert_eq in Hnx.
            injection Hnx as <-. reflexivity.
        + intros y Hy. rewrite lookup_insert_ne by congruence.
          destruct (decide (z = y)) as [-> | Hzy].
          * rewrite lookup_insert_eq. unfold h2 in Hz.
            rewrite lookup_insert_ne in Hz by congruence.
            rewrite Hz. reflexivity.
          * rewrite lookup_insert_ne by assumption. unfold h2.
            rewrite lookup_insert_ne by congruence. reflexivity.
        + intros y Hy. rewrite lookup_insert_ne by congruence.
          destruct (decide (z = y)) as [-> | Hzy].
          * rewrite lookup_insert_eq. unfold h2 in Hz.
            rewrite lookup_insert_ne in Hz by congruence.
            rewrite Hz. reflexivity.
          * rewrite lookup_insert_ne by assumption. unfold h2.
            rewrite lookup_insert_ne by congruence. reflexivity.
      - inversion Hlink; subst. exists h2. split; [reflexivity | ].
        unfold h2. split; [ | split].
        + eexists. rewrite lookup_insert_eq. split; [reflexivity | ].
          split; reflexivity.
        + intros y Hy. rewrite lookup_insert_ne by congruence. reflexivity.
        + intros y Hy. rewrite lookup_insert_ne by congruence. reflexivity. }
    destruct Hstep as (h4 & -> & Hself & Hkeepn & Hkeepp).
    rewrite <- (Z2Nat.id slot Hslot0) in Hslot.
    destruct (relinking_step h0 newm done h t nbs x nd _ hd h4
                HR Hxd Hx Hslot Hti Hself Hkeepn Hkeepp)
      as (li & Hli & HR').
    assert (Hnext : next nd = next nd0).
    { pose proof (rl_next _ _ _ _ _ _ _ _ _ HR x Hxd) as Hn.
      rewrite Hx, Hx0 in Hn. simpl in Hn. congruence. }
    rewrite Hnext in Hrun.
    destruct (IH (done ++ [x]) h4 _ _ (Some x) (next nd0) fuel t' s1
                HR' Hdll) as (h' & nbs' & -> & HR'').
    { rewrite <- app_assoc. assumption. }
    { assumption. }
    exists h', nbs'. split; [reflexivity | ].
    rewrite <- app_assoc in HR''. assumption.
Qed.

(** The loop of [resize_hash_table] over the old slots, once it has
    returned. *)
Lemma rehash_table_relinks h0 newm s0 bs :
  chains h0 (table (ht s0)) bs -> NoDup (concat bs) ->
  forall cnt l h t nbs t' s1,
    Relinking h0 newm (concat (take l bs)) h t nbs ->
    (l + cnt = length bs)%nat ->
    rehash_table a b char_signed cnt (Z.of_nat l) newm t (with_heap h s0)
    = Ok (t', s1) ->
    exists h' nbs',
      s1 = with_heap h' s0 /\ Relinking h0 newm (concat bs) h' t' nbs'.
Proof.
  intros Hch Hnd. induction cnt as [ | cnt IH];
    intros l h t nbs t' s1 HR Hlen Hrun.
  - inversion Hrun; subst. exists h, nbs. split; [reflexivity | ].
    rewrite Nat.add_0_r in Hlen. rewrite Hlen, firstn_all in HR.
    assumption.
  - cbn [rehash_table] in Hrun.
    apply bind_inv in Hrun as (q & sA & Hget & Hrun).
    apply table_get_inv in Hget as (_ & Hq & ->).
    simpl in Hq. rewrite Nat2Z.id in Hq.
    apply bind_inv in Hrun as (fuel & sB & Hfuel & Hrun).
    inversion Hfuel; subst fuel sB. clear Hfuel.
    apply bind_inv in Hrun as (t1 & sC & Hlist & Hrun).
    destruct (Forall2_lookup_l _ _ _ _ _ Hch Hq) as (lq & Hlq & Hdll).
    assert (Htake : concat (take (S l) bs) = concat (take l bs) ++ lq).
    { rewrite (take_S_r _ _ _ Hlq), concat_app. simpl.
      rewrite app_nil_r. reflexivity. }
    destruct (rehash_list_relinks h0 newm s0 lq (concat (take l bs))
                h t nbs None q (size h) t1 sC HR Hdll)
      as (h1 & nbs1 & -> & HR1).
    { rewrite <- Htake.
      rewrite <- (take_drop (S l) bs), concat_app in Hnd.
      apply NoDup_app in Hnd as [Hnd _]. exact Hnd. }
    { exact Hlist. }
    rewrite <- Htake in HR1.
    replace (Z.of_nat l + 1) with (Z.of_nat (S l)) in Hrun by lia.
    apply (IH (S l) h1 t1 nbs1 t' s1 HR1); [lia | assumption].
Qed.

(** [resize_hash_table] on a well-formed table, once it has
    returned. *)
Lemma resize_hash_table_relinks s bs newm u s' :
  Repr s bs -> resize_hash_table newm s = Ok (u, s') ->
  exists h' t' nbs',
    s' = State (HashT newm (n (ht s)) t') h'
    /\ Relinking (heap s) newm (concat bs) h' t' nbs'.
Proof.
  intros HR Hrun. unfold resize_hash_table in Hrun.
  apply bind_inv in Hrun as (m0 & sA & Hm & Hrun).
  inversion Hm; subst m0 sA. clear Hm.
  apply bind_inv in Hrun as (t' & sB & Hreh & Hrun).
  rewrite <- (with_heap_id s) in Hreh at 2.
  destruct (rehash_table_relinks (heap s) newm s bs
              (repr_chains _ _ _ _ _ HR) (repr_nodup _ _ _ _ _ HR)
              (Z.to_nat (m (ht s))) 0 (heap s) (malloc_table stale newm) _
              t' sB
              (relinking_start (heap s) newm (malloc_table stale newm)))
    as (h' & nbs' & -> & HR').
  { pose proof (repr_len _ _ _ _ _ HR) as Hlen.
    pose proof (Forall2_length _ _ _ (repr_chains _ _ _ _ _ HR)). simpl. lia. }
  { exact Hreh. }
  apply bind_inv in Hrun as ([] & sC & Hpt & Hpm).
  inversion Hpt; subst sC. inversion Hpm; subst.
  exists h', t', nbs'. split; [reflexivity | assumption].
Qed.

(** A key that was in the table is found after the rehash, with the
    value it had. *)
Lemma relinked_search h0 newm L h' t' nbs' n' k v :
  Relinking h0 newm L h' t' nbs' -> NoDup L -> unique_keys h0 L ->
  stored h0 L k (Some v) ->
  hash_search k (State (HashT newm n' t') h')
  = Ok (Some v, State (HashT newm n' t') h').
Proof.
  intros [Hch Hperm Hpay Hnext Hrt] Hnd Hkeys (x & nd0 & Hx & Hx0 & Hk & Hv).
  set (s' := State (HashT newm n' t') h').
  assert (Hx' : exists nd, h' !! x = Some nd /\ key nd = k /\ value nd = v).
  { specialize (Hpay x). rewrite Hx0 in Hpay.
    destruct (h' !! x) as [nd | ]; [ | discriminate].
    injection Hpay as Hpay. unfold payload in Hpay.
    exists nd. split; [reflexivity | ]. split; congruence. }
  destruct Hx' as (nd & Hnd' & Hk' & Hv').
  rewrite <- Hperm in Hx.
  apply elem_of_concat in Hx as (i & l & Hl & Hxl).
  pose proof (Hrt i l x nd Hl Hxl Hnd') as Hi. rewrite Hk' in Hi.
  destruct (Forall2_lookup_r _ _ _ _ _ Hch Hl) as (q & Hq & Hwl).
  assert (Hnz : newm <> 0).
  { intros ->. rewrite hash_zero in Hi. discriminate. }
  assert (Hndl : NoDup l).
  { eapply NoDup_concat_lookup; [ | eassumption]. rewrite Hperm. assumption. }
  assert (Hfind : hash_search_node k s' = Ok (Some x, s')).
  { unfold hash_search_node. rewrite run_bind. simpl.
    destruct (Z.eqb_spec newm 0) as [ | _]; [contradiction | ].
    rewrite run_bind. unfold lift at 1. rewrite Hi.
    rewrite (run_bind_ok _ _ _ _ _ (table_get_ok s' i q Hq)).
    rewrite run_bind. simpl.
    apply (search_wchain s' k x nd l Hnd' Hk' Hxl).
    - intros y ny Hy Hne Hny Hky. apply Hne.
      destruct (payload_lookup h0 h' y ny (Hpay y) Hny)
        as (ny0 & Hny0 & Hky0 & _).
      apply (Hkeys y x ny0 nd0).
      + rewrite <- Hperm. apply elem_of_concat. eauto.
      + rewrite <- Hperm. apply elem_of_concat. eauto.
      + assumption.
      + assumption.
      + congruence.
    - assumption.
    - apply length_le_size; [assumption | ].
      intros y Hy. eapply wchain_in_heap; eassumption. }
  unfold hash_search. rewrite (run_bind_ok _ _ _ _ _ Hfind).
  rewrite (run_bind_ok _ _ _ _ _ (load_ok s' x nd Hnd')).
  rewrite Hv'. reflexivity.
Qed.

Lemma repr_stored s bs k r :
  Repr s bs -> hash_search k s = Ok (r, s) ->
  stored (heap s) (concat bs) k r.
Proof.
  intros HR Hrun.
  destruct (hash_search_ok a b char_signed s bs k HR) as (r' & Hrun' & Hsto).
  rewrite Hrun in Hrun'. injection Hrun' as <-. assumption.
Qed.

(** The keys of a well-formed table across [resize_hash_table],
    whatever the new block holds. *)
Lemma resize_keeps_present s bs newm u s' k v :
  Repr s bs -> hash_search k s = Ok (Some v, s) ->
  resize_hash_table newm s = Ok (u, s') ->
  hash_search k s' = Ok (Some v, s').
Proof.
  intros HR Hlook Hrun.
  destruct (resize_hash_table_relinks s bs newm u s' HR Hrun)
    as (h' & t' & nbs' & -> & HRl).
  eapply relinked_search; [eassumption | apply HR | apply HR | ].
  eapply repr_stored; eassumption.
Qed.

Lemma grow_keeps_present s bs u s' k v :
  Repr s bs -> hash_search k s = Ok (Some v, s) ->
  grow_hash_table s = Ok (u, s') ->
  hash_search k s' = Ok (Some v, s').
Proof.
  intros HR Hlook Hrun. unfold grow_hash_table in Hrun.
  apply bind_inv in Hrun as (m0 & sA & Hm & Hrun).
  inversion Hm; subst m0 sA. clear Hm.
  destruct (Z.eqb_spec (m (ht s)) 0) as [Hz | Hnz].
  - assert (Hnone : hash_search_node k s = Ok (None, s)).
    { unfold hash_search_node. rewrite run_bind. simpl.
      rewrite Hz. reflexivity. }
    unfold hash_search in Hlook.
    rewrite (run_bind_ok _ _ _ _ _ Hnone) in Hlook. discriminate.
  - apply bind_inv in Hrun as (newm & sB & Hrange & Hrun).
    apply int_range_inv in Hrange as (-> & -> & _).
    eapply resize_keeps_present; eassumption.
Qed.

Lemma shrink_keeps_present s bs u s' k v :
  Repr s bs -> hash_search k s = Ok (Some v, s) ->
  shrink_hash_table s = Ok (u, s') ->
  hash_search k s' = Ok (Some v, s').
Proof.
  intros HR Hlook Hrun. unfold shrink_hash_table in Hrun.
  apply bind_inv in Hrun as (m0 & sA & Hm & Hrun).
  inversion Hm; subst m0 sA. clear Hm.
  destruct (m (ht s) <? MIN_TABLE_SIZE * 2).
  - inversion Hrun; subst. assumption.
  - eapply resize_keeps_present; eassumption.
Qed.

(** What [insert_place] has done when it returns: the new node is
    at the address [malloc] gave, the slot of its key points to it,
    and it points to what the slot held. *)
Lemma insert_place_head node_alloc s1 k v u s' :
  insert_place a b char_signed node_alloc k v s1 = Ok (u, s') ->
  exists slot nd,
    hash k (m (ht s1)) = Ok slot /\ 0 <= slot
    /\ (Z.to_nat slot < length (table (ht s1)))%nat
    /\ table (ht s') = <[Z.to_nat slot := Some (node_alloc (heap s1))]>
                         (table (ht s1))
    /\ heap s' !! node_alloc (heap s1) = Some nd
    /\ key nd = k /\ value nd = v
    /\ table (ht s1) !! Z.to_nat slot = Some (next nd).
Proof.
  unfold insert_place. intros Hrun.
  apply bind_inv in Hrun as (n1 & sA & H1 & Hrun). inversion H1; subst.
  apply bind_inv in Hrun as (n2 & sA' & H2 & Hrun).
  apply int_range_inv in H2 as (-> & -> & _).
  apply bind_inv in Hrun as ([] & sB & H3 & Hrun). inversion H3; subst.
  apply bind_inv in Hrun as (q & sC & H4 & Hrun). inversion H4; subst.
  apply bind_inv in Hrun as (m1 & sD & H5 & Hrun). inversion H5; subst.
  apply bind_inv in Hrun as (slot & sE & H6 & Hrun).
  apply lift_inv in H6 as [Hhash ->].
  apply bind_inv in Hrun as (head & sF & H7 & Hrun).
  apply table_get_inv in H7 as (Hslot & Htab & ->).
  apply bind_inv in Hrun as ([] & sG & Hlink & Hset).
  apply table_set_inv in Hset as (_ & Hlt & ->).
  set (x := node_alloc (heap sA)) in *.
  assert (Hx : exists nd, heap sG !! x = Some nd /\ key nd = k
                          /\ value nd = v /\ next nd = head
                          /\ ht sG = ht (with_n (n (ht sA) + 1) sA)).
  { destruct head as [y | ].
    - apply bind_inv in Hlink as ([] & sH & Hn & Hp).
      apply set_next_inv in Hn as (x' & nx & [= <-] & Hnx & ->).
      simpl in Hnx. rewrite lookup_insert_eq in Hnx. injection Hnx as <-.
      apply set_prev_inv in Hp as (y' & ny & [= <-] & Hny & ->).
      simpl in Hny |- *. rewrite insert_insert_eq in Hny |- *.
      destruct (decide (y = x)) as [-> | Hyx].
      + rewrite lookup_insert_eq in Hny. injection Hny as <-.
        rewrite lookup_insert_eq. eexists. split; [reflexivity | ]. auto.
      + rewrite lookup_insert_ne by assumption.
        rewrite lookup_insert_eq. eexists. split; [reflexivity | ]. auto.
    - inversion Hlink; subst. simpl. rewrite lookup_insert_eq.
      eexists. split; [reflexivity | ]. auto. }
  destruct Hx as (nd & Hnd & Hk & Hv & Hnext & Hht).
  exists slot, nd. simpl in Hhash, Htab, Hlt |- *.
  rewrite Hht in Hlt |- *. simpl in Hlt |- *. rewrite Hnext.
  repeat split; assumption.
Qed.

End Relink.

(** ** The stated properties *)

Section Claims.

Variables (a b : Z) (char_signed : bool).
Variable stale : nat -> ptr.
Variable node_alloc : gmap addr node_t -> addr.

#[local] Abbreviation hash := (hash a b char_signed).
#[local] Abbreviation Repr := (Repr a b char_signed).
#[local] Abbreviation hash_search_node := (hash_search_node a b char_signed).
#[local] Abbreviation hash_search := (hash_search a b char_signed).
#[local] Abbreviation hash_contains := (hash_contains a b char_signed).
#[local] Abbreviation resize_hash_table :=
  (resize_hash_table a b char_signed stale).
#[local] Abbreviation grow_hash_table :=
  (grow_hash_table a b char_signed stale).
#[local] Abbreviation shrink_hash_table :=
  (shrink_hash_table a b char_signed stale).
#[local] Abbreviation hash_insert :=
  (hash_insert a b char_signed stale node_alloc).
#[local] Abbreviation hash_remove := (hash_remove a b char_signed stale).
#[local] Abbreviation insert_grow := (insert_grow a b char_signed stale).
#[local] Abbreviation insert_place :=
  (insert_place a b char_signed node_alloc).
#[local] Abbreviation remove_check := (remove_check a b char_signed stale).
#[local] Abbreviation remove_unlink := (remove_unlink a b char_signed).
#[local] Abbreviation reachable :=
  (reachable a b char_signed stale node_alloc).

(** C1.  For every key [k] and value [v], [hash_insert(t, k, v)]
    followed by [hash_search(t, k)] returns a string equal to [v].
    First part: on any state whatever, and whatever [malloc] handed
    out, once the insertion has returned the search returns [v].
    Second part: on a table built through the interface, with room
    for the insertion and bucket arrays that read as empty when
    allocated, the insertion does return. *)
Theorem insert_then_search :
  forall (s : state) (k v : string),
    (forall u s',
        hash_insert k v s = Ok (u, s') ->
        hash_search k s' = Ok (Some v, s'))
    /\ (stale_empty stale -> alloc_fresh node_alloc ->
        reachable s -> room_to_insert s ->
        exists s',
          hash_insert k v s = Ok (tt, s')
          /\ hash_search k s' = Ok (Some v, s')).
Proof.
  intros s k v. split.
  - intros u s' Hrun.
    apply (inserted_key_is_found _ _ _ _ _ _ _ _ _ _ Hrun).
  - intros Hst Hfresh Hreach Hroom.
    destruct (reachable_repr _ _ _ _ _ _ Hst Hfresh Hreach) as [bs HR].
    destruct (hash_insert_ok _ _ _ _ _ s bs k v Hst Hfresh HR Hroom)
      as (s' & bs' & Hrun & _ & _).
    exists s'. split; [assumption | ].
    apply (inserted_key_is_found _ _ _ _ _ _ _ _ _ _ Hrun).
Qed.


(** C4.  For every [hash_insert] of a key that is not in the table:
    the growth test comes first and grows the table if and only if
    [n == m] at that time, [m] doubling, or becoming
    [MIN_TABLE_SIZE] when it was [0]; only then is the new node
    placed, at the head of the chain of the slot its key hashes to
    under the [m] that the growth test left.  First part: on every
    state and whatever [malloc] hands out, once the insertion has
    returned, it was the growth test followed by the placing, with
    [m] and [n] as said, the slot points to the new node and the
    new node to what the slot held.  Second part: on a table built
    through the interface, with room for the insertion and bucket
    arrays that read as empty when allocated, the insertion does
    return; the key is still absent after the growth test and the
    new node has no predecessor. *)
Theorem insert_grows_then_places :
  forall (s : state) (k v : string),
    (forall u s',
        hash_search_node k s = Ok (None, s) ->
        hash_insert k v s = Ok (u, s') ->
        exists s1 slot nd,
          insert_grow s = Ok (tt, s1)
          /\ m (ht s1) = (if n (ht s) =? m (ht s)
                          then if m (ht s) =? 0 then MIN_TABLE_SIZE
                               else 2 * m (ht s)
                          else m (ht s))
          /\ (m (ht s1) <> m (ht s) <-> n (ht s) = m (ht s))
          /\ n (ht s1) = n (ht s)
          /\ insert_place k v s1 = Ok (tt, s')
          /\ m (ht s') = m (ht s1)
          /\ n (ht s') = n (ht s) + 1
          /\ hash k (m (ht s1)) = Ok slot
          /\ table (ht s') !! Z.to_nat slot
             = Some (Some (node_alloc (heap s1)))
          /\ heap s' !! node_alloc (heap s1) = Some nd
          /\ key nd = k /\ value nd = v
          /\ table (ht s1) !! Z.to_nat slot = Some (next nd))
    /\ (stale_empty stale -> alloc_fresh node_alloc ->
        reachable s -> room_to_insert s ->
        hash_search_node k s = Ok (None, s) ->
        exists s1 s' x nd i,
          insert_grow s = Ok (tt, s1)
          /\ m (ht s1) = (if n (ht s) =? m (ht s)
                          then if m (ht s) =? 0 then MIN_TABLE_SIZE
                               else 2 * m (ht s)
                          else m (ht s))
          /\ (m (ht s1) <> m (ht s) <-> n (ht s) = m (ht s))
          /\ n (ht s1) = n (ht s)
          /\ hash_search_node k s1 = Ok (None, s1)
          /\ insert_place k v s1 = Ok (tt, s')
          /\ hash_insert k v s = Ok (tt, s')
          /\ m (ht s') = m (ht s1)
          /\ n (ht s') = n (ht s) + 1
          /\ hash k (m (ht s1)) = Ok (Z.of_nat i)
          /\ table (ht s') !! i = Some (Some x)
          /\ heap s !! x = None
          /\ heap s' !! x = Some nd
          /\ prev nd = None /\ key nd = k /\ value nd = v
          /\ table (ht s1) !! i = Some (next nd)).
Proof.
  intros s k v. split.
  { intros u s' Hfind Hrun. destruct u.
    rewrite hash_insert_phases in Hrun.
    rewrite (run_bind_ok _ _ _ _ _ Hfind) in Hrun.
    apply bind_inv in Hrun as ([] & s1 & Hgrow & Hplace).
    destruct (insert_grow_sizes _ _ _ _ _ _ _ Hgrow) as (Hn1 & Hm1 & _).
    destruct (insert_place_sizes _ _ _ _ _ _ _ _ _ Hplace)
      as (Hm & Hn & _).
    destruct (insert_place_head _ _ _ _ _ _ _ _ _ Hplace)
      as (slot & nd & Hslot & Hpos & Hlt & Htab & Hnd & Hk & Hv & Hhd).
    exists s1, slot, nd.
    split; [assumption | ]. split; [assumption | ].
    split.
    { rewrite Hm1.
      destruct (Z.eqb_spec (n (ht s)) (m (ht s))) as [Hnm | Hnm];
        [ | tauto].
      destruct (Z.eqb_spec (m (ht s)) 0); unfold MIN_TABLE_SIZE;
        split; intros; lia. }
    split; [assumption | ]. split; [assumption | ].
    split; [assumption | ]. split; [lia | ].
    split; [assumption | ].
    split; [rewrite Htab; apply list_lookup_insert_eq; assumption | ].
    auto. }
  intros Hst Hfresh Hreach [Hroom1 Hroom2] Hfind.
  destruct (reachable_repr _ _ _ _ _ _ Hst Hfresh Hreach) as [bs HR].
  destruct (hash_insert_absent a b char_signed stale node_alloc
              s bs k v Hst Hfresh HR Hfind Hroom1 Hroom2)
    as (s1 & s' & bs' & x & i & hd & Hgrow & Hn1 & Hfind1 & Hplace & Hrun
        & HR' & Hperm & Hx & Hpay & Hx' & Hi & Hti & Hti1 & Hm1 & Hm & Hn).
  exists s1, s', x, (Node hd None k v), i.
  rewrite Hm in Hi. simpl.
  repeat (split; [first [assumption | reflexivity] | ]).
  split; [ | repeat (split; [first [assumption | reflexivity] | ]);
             assumption].
  rewrite Hm1. pose proof (repr_len _ _ _ _ _ HR) as Hlen.
  destruct (Z.eqb_spec (n (ht s)) (m (ht s))) as [Hnm | Hnm];
    [ | tauto].
  destruct (Z.eqb_spec (m (ht s)) 0); unfold MIN_TABLE_SIZE;
    split; intros; lia.
Qed.

(** C5.  For every [hash_remove] that finds the key: the shrink
    check comes first.  It compares [n / 4] with [m], both as they
    are before the removal, and fires when [n / 4 <= m]; when it
    fires [m] is halved if [m >= 2 * MIN_TABLE_SIZE] and left alone
    otherwise; only then is the node unlinked and [n] decremented.
    First part: on every state and whatever [malloc] hands out,
    once the removal has returned, it was the check followed by the
    unlinking, with [m] and [n] as said.  Second part: on a table
    built through the interface with bucket arrays that read as
    empty when allocated, the removal does return, and the node is
    still found after the check. *)
Theorem remove_checks_then_unlinks :
  forall (s : state) (k : string) (x : addr),
    (forall u s',
        hash_search_node k s = Ok (Some x, s) ->
        hash_remove k s = Ok (u, s') ->
        exists q s1,
          remove_check k (Some x) s = Ok (q, s1)
          /\ n (ht s1) = n (ht s)
          /\ m (ht s1) = (if Z.quot (n (ht s)) 4 <=? m (ht s)
                          then if m (ht s) <? MIN_TABLE_SIZE * 2
                               then m (ht s)
                               else Z.quot (m (ht s)) 2
                          else m (ht s))
          /\ remove_unlink k q s1 = Ok (tt, s')
          /\ m (ht s') = m (ht s1)
          /\ n (ht s') = n (ht s) - 1)
    /\ (stale_empty stale -> alloc_fresh node_alloc -> reachable s ->
        hash_search_node k s = Ok (Some x, s) ->
        exists s1 s',
          remove_check k (Some x) s = Ok (Some x, s1)
          /\ n (ht s1) = n (ht s)
          /\ m (ht s1) = (if Z.quot (n (ht s)) 4 <=? m (ht s)
                          then if m (ht s) <? MIN_TABLE_SIZE * 2
                               then m (ht s)
                               else Z.quot (m (ht s)) 2
                          else m (ht s))
          /\ hash_search_node k s1 = Ok (Some x, s1)
          /\ remove_unlink k (Some x) s1 = Ok (tt, s')
          /\ hash_remove k s = Ok (tt, s')
          /\ m (ht s') = m (ht s1)
          /\ n (ht s') = n (ht s) - 1).
Proof.
  intros s k x. split.
  { intros u s' Hfind Hrun. destruct u.
    rewrite hash_remove_phases in Hrun.
    rewrite (run_bind_ok _ _ _ _ _ Hfind) in Hrun.
    apply bind_inv in Hrun as (q & s1 & Hcheck & Hunlink).
    destruct (remove_check_sizes _ _ _ _ _ _ _ _ _ Hcheck) as [Hn1 Hm1].
    destruct (remove_unlink_sizes _ _ _ _ _ _ _ _ Hunlink)
      as (Hm & Hn & _).
    exists q, s1. repeat (split; [assumption | ]). lia. }
  intros Hst Hfresh Hreach Hfind.
  destruct (reachable_repr _ _ _ _ _ _ Hst Hfresh Hreach) as [bs HR].
  destruct (hash_remove_present a b char_signed stale s bs k x Hst HR Hfind)
    as (s1 & s' & bs' & H1 & H2 & H3 & H4 & H5 & H6 & _ & _ & H7 & H8).
  exists s1, s'. auto 10.
Qed.

(** C6.  In every state reached from a new table ([m = n = 0]) by
    insertions and removals, [m] is [0] or at least
    [MIN_TABLE_SIZE]; this holds whatever [malloc] hands out. *)
Theorem floor_invariant :
  forall (s : state),
    reachable s -> m (ht s) = 0 \/ MIN_TABLE_SIZE <= m (ht s).
Proof.
  intros s Hreach.
  induction Hreach as [h | s k v s' _ IH Hrun | s k s' _ IH Hrun].
  - left. reflexivity.
  - apply hash_insert_m in Hrun.
    unfold MIN_TABLE_SIZE in *. lia.
  - apply hash_remove_m in Hrun. unfold MIN_TABLE_SIZE in *.
    destruct Hrun as [-> | [Hge ->]]; [assumption | ].
    right. rewrite Z.quot_div_nonneg by lia.
    apply Z.div_le_lower_bound; lia.
Qed.

(** C7.  For every key [k] and values [v1], [v2]: after
    [hash_insert(t, k, v1)] and then [hash_insert(t, k, v2)],
    [hash_search(t, k)] returns [v2] and [n] is what it was before
    the second insertion.  First part: on any state, once both
    insertions have returned.  Second part: on a table built through
    the interface, with room for the first insertion and bucket
    arrays that read as empty when allocated, both do return. *)
Theorem insert_twice_replaces :
  forall (s : state) (k v1 v2 : string),
    (forall u1 s1 u2 s2,
        hash_insert k v1 s = Ok (u1, s1) ->
        hash_insert k v2 s1 = Ok (u2, s2) ->
        hash_search k s2 = Ok (Some v2, s2)
        /\ n (ht s2) = n (ht s1))
    /\ (stale_empty stale -> alloc_fresh node_alloc ->
        reachable s -> room_to_insert s ->
        exists s1 s2,
          hash_insert k v1 s = Ok (tt, s1)
          /\ hash_insert k v2 s1 = Ok (tt, s2)
          /\ hash_search k s2 = Ok (Some v2, s2)
          /\ n (ht s2) = n (ht s1)).
Proof.
  intros s k v1 v2.
  assert (Hany : forall u1 s1 u2 s2,
             hash_insert k v1 s = Ok (u1, s1) ->
             hash_insert k v2 s1 = Ok (u2, s2) ->
             hash_search k s2 = Ok (Some v2, s2)
             /\ n (ht s2) = n (ht s1)).
  { intros u1 s1 u2 s2 Hrun1 Hrun2. split.
    - apply (inserted_key_is_found _ _ _ _ _ _ _ _ _ _ Hrun2).
    - destruct (inserted_key_is_found _ _ _ _ _ _ _ _ _ _ Hrun1)
        as [[x Hfind] _].
      rewrite hash_insert_phases in Hrun2.
      rewrite (run_bind_ok _ _ _ _ _ Hfind) in Hrun2.
      apply preserves_set_value in Hrun2. unfold same_ht in Hrun2.
      rewrite Hrun2. reflexivity. }
  split; [exact Hany | ].
  intros Hst Hfresh Hreach Hroom.
  destruct (reachable_repr _ _ _ _ _ _ Hst Hfresh Hreach) as [bs HR].
  destruct (hash_insert_ok _ _ _ _ _ s bs k v1 Hst Hfresh HR Hroom)
    as (s1 & bs1 & Hrun1 & HR1 & Hsto1).
  destruct (search_node_present _ _ _ _ _ _ _ HR1 Hsto1) as [x Hfind].
  destruct (hash_insert_present a b char_signed stale node_alloc
              s1 bs1 k v2 x HR1 Hfind) as (nd & _ & _ & _ & Hrun2 & _).
  eexists s1, _. split; [exact Hrun1 | ]. split; [exact Hrun2 | ].
  exact (Hany _ _ _ _ Hrun1 Hrun2).
Qed.

(** Where bucket arrays read as empty when allocated, a key that
    is inserted and then removed is absent: on a table built through
    the interface, with room for the insertion, [hash_insert] and
    [hash_remove] return, and then [hash_contains] returns [0] and
    [hash_search] returns [NULL]. *)
Lemma insert_remove_absent_cleared :
  forall (s : state) (k v : string),
    stale_empty stale -> alloc_fresh node_alloc ->
    reachable s -> room_to_insert s ->
    exists s1 s2,
      hash_insert k v s = Ok (tt, s1)
      /\ hash_remove k s1 = Ok (tt, s2)
      /\ hash_contains k s2 = Ok (0, s2)
      /\ hash_search k s2 = Ok (None, s2).
Proof.
  intros s k v Hst Hfresh Hreach Hroom.
  destruct (reachable_repr _ _ _ _ _ _ Hst Hfresh Hreach) as [bs HR].
  destruct (hash_insert_ok _ _ _ _ _ s bs k v Hst Hfresh HR Hroom)
    as (s1 & bs1 & Hrun1 & HR1 & Hsto1).
  destruct (search_node_present _ _ _ _ _ _ _ HR1 Hsto1) as [x Hfind].
  destruct (hash_remove_present a b char_signed stale s1 bs1 k x
              Hst HR1 Hfind)
    as (s1' & s2 & bs2 & _ & _ & _ & _ & _ & Hrun2 & HR2 & Hsto2 & _).
  exists s1, s2. split; [assumption | ]. split; [assumption | ]. split.
  - eapply hash_contains_absent; eassumption.
  - eapply hash_search_stored; eassumption.
Qed.

(** C10.  For every state and every key, [hash_search] and
    [hash_contains] return the state they were given: [m], [n], the
    bucket array and every node, links included, are the same after
    the call as before it.  On a table built through the interface
    (bucket arrays reading as empty when allocated) both do return. *)
Theorem lookups_change_nothing :
  forall (s : state) (k : string),
    (forall r s', hash_search k s = Ok (r, s') -> s' = s)
    /\ (forall c s', hash_contains k s = Ok (c, s') -> s' = s)
    /\ (stale_empty stale -> alloc_fresh node_alloc -> reachable s ->
        (exists r, hash_search k s = Ok (r, s))
        /\ (exists c, hash_contains k s = Ok (c, s))).
Proof.
  intros s k. split; [ | split].
  - intros r s' Hrun. symmetry.
    exact (hash_search_reads _ _ _ _ _ _ _ Hrun).
  - intros c s' Hrun. symmetry.
    exact (hash_contains_reads _ _ _ _ _ _ _ Hrun).
  - intros Hst Hfresh Hreach.
    destruct (reachable_repr _ _ _ _ _ _ Hst Hfresh Hreach) as [bs HR].
    destruct (hash_search_ok a b char_signed s bs k HR) as (r & Hr & _).
    destruct (hash_contains_ok a b char_signed s bs k HR) as (q & Hq & _).
    eauto.
Qed.

End Claims.

(** ** Runs on concrete tables *)

Lemma zeroed_empty : stale_empty zeroed.
Proof. intros i. reflexivity. Qed.

Lemma first_fit_fresh : alloc_fresh first_fit.
Proof.
  intros h. unfold first_fit.
  apply (not_elem_of_dom (D := gset addr)). apply is_fresh.
Qed.

Lemma reachable_run stale ops s s' :
  reachable 3 5 true stale first_fit s ->
  run stale ops s = Ok (tt, s') ->
  reachable 3 5 true stale first_fit s'.
Proof.
  revert s. induction ops as [ | o ops IH]; intros s Hreach Hrun; simpl in Hrun.
  - inversion Hrun; subst. assumption.
  - apply bind_inv in Hrun as ([] & s1 & Hstep & Hrun).
    apply (IH s1); [ | assumption].
    destruct o as [k v | k]; simpl in Hstep.
    + eapply reach_insert; eassumption.
    + eapply reach_remove; eassumption.
Qed.

Lemma table16_reachable : reachable 3 5 true zeroed first_fit table16.
Proof.
  apply (reachable_run zeroed (inserts 16) (new_hash_table ∅));
    [constructor | vm_compute; reflexivity].
Qed.

Lemma table17_reachable : reachable 3 5 true zeroed first_fit table17.
Proof.
  apply (reachable_run zeroed (inserts 17) (new_hash_table ∅));
    [constructor | vm_compute; reflexivity].
Qed.

Example table16_full : m (ht table16) = 16 /\ n (ht table16) = 16.
Proof. split; vm_compute; reflexivity. Qed.

(** Seventeen insertions: the table has grown, and every key is found
    with its value. *)
Example table17_grown :
  m (ht table17) = 32 /\ n (ht table17) = 17
  /\ Forall (fun k => hash_search 3 5 true k table17
                      = Ok (Some k, table17)) keys17.
Proof.
  split; [vm_compute; reflexivity | ].
  split; [vm_compute; reflexivity | ].
  repeat constructor; vm_compute; reflexivity.
Qed.

(** C3 (the code does not do this).  The claim: every new bucket array
    has all its slots set to empty before any of them is read.  The
    code: the array [grow_hash_table] and [resize_hash_table] take
    from [malloc] is used as it comes, so a slot reads as whatever the
    block held.  With a stale word in every cell the first insertion
    into a new table dereferences it; with clean cells for the first
    array and stale ones beyond, the seventeenth insertion does, in
    the resize. *)
Theorem stale_slots_are_read :
  (forall a b char_signed stale h,
      exists s',
        grow_hash_table a b char_signed stale (new_hash_table h) = Ok (tt, s')
        /\ table (ht s') = stale <$> seq 0 16)
  /\ (forall a b char_signed stale h newm,
         exists s',
           resize_hash_table a b char_signed stale newm (new_hash_table h)
           = Ok (tt, s')
           /\ table (ht s') = stale <$> seq 0 (Z.to_nat newm))
  /\ hash_insert 3 5 true garbage first_fit "a" "1" (new_hash_table ∅)
     = Fault WildPointer
  /\ (exists s,
         run late_garbage (inserts 16) (new_hash_table ∅) = Ok (tt, s)
         /\ m (ht s) = 16 /\ n (ht s) = 16
         /\ hash_insert 3 5 true late_garbage first_fit "q" "q" s
            = Fault WildPointer).
Proof.
  split; [ | split; [ | split]].
  - intros a b char_signed stale h. eexists. split; reflexivity.
  - intros a b char_signed stale h newm. eexists. split; reflexivity.
  - vm_compute. reflexivity.
  - eexists. split; [vm_compute; reflexivity | ].
    repeat split; vm_compute; reflexivity.
Qed.

(** C8 (the code does not do this).  The claim: after
    [hash_insert(t, k, v)] and [hash_remove(t, k)], [hash_contains]
    returns 0 and [hash_search] returns [NULL].  The code: the bucket
    array of the first insertion comes from [malloc] as it is (the
    defect of C3), so [hash_insert] finds a head in the slot, sets
    [n->next] to it and writes [head->prev]; when the stale word is
    the address of the new node itself, the node ends up as its own
    predecessor.  [hash_remove] then takes the branch for a node that
    has a predecessor, which leaves the slot alone, and frees the
    node: both calls return, the slot still points to the freed node,
    and the two lookups dereference it. *)
Theorem removed_key_is_still_linked :
  hash_insert 3 5 true recycled first_fit "a" "1" (new_hash_table guest_heap)
  = Ok (tt, stained_table)
  /\ hash 3 5 true "a" (m (ht stained_table)) = Ok 7
  /\ table (ht stained_table) !! 7%nat = Some (Some 8%positive)
  /\ heap stained_table !! 8%positive
     = Some (Node (Some 8%positive) (Some 8%positive) "a" "1")
  /\ exists s2,
       hash_remove 3 5 true recycled "a" stained_table = Ok (tt, s2)
       /\ n (ht s2) = 0
       /\ table (ht s2) !! 7%nat = Some (Some 8%positive)
       /\ heap s2 !! 8%positive = None
       /\ hash_contains 3 5 true "a" s2 = Fault WildPointer
       /\ hash_search 3 5 true "a" s2 = Fault WildPointer.
Proof.
  split; [vm_compute; reflexivity | ].
  split; [vm_compute; reflexivity | ].
  split; [vm_compute; reflexivity | ].
  split; [vm_compute; reflexivity | ].
  eexists. split; [vm_compute; reflexivity | ].
  repeat split; vm_compute; reflexivity.
Qed.

(** ** The properties at concrete tables *)

Lemma table16_room : room_to_insert table16.
Proof. split; vm_compute; [reflexivity | intros _ H; discriminate H]. Qed.

(** C1 at the full table of sixteen keys, with a seventeenth key. *)
Lemma insert_then_search_witness :
  stale_empty zeroed /\ alloc_fresh first_fit
  /\ reachable 3 5 true zeroed first_fit table16
  /\ room_to_insert table16
  /\ exists s',
       hash_insert 3 5 true zeroed first_fit "q" "17" table16 = Ok (tt, s')
       /\ hash_search 3 5 true "q" s' = Ok (Some "17"%string, s').
Proof.
  split; [exact zeroed_empty | ]. split; [exact first_fit_fresh | ].
  split; [exact table16_reachable | ]. split; [exact table16_room | ].
  exact (proj2 (insert_then_search 3 5 true zeroed first_fit table16 "q" "17")
           zeroed_empty first_fit_fresh table16_reachable table16_room).
Defined.


(** C4.  First part at a new table whose first bucket array comes
    with the address of the new node in every cell: the table grows
    to 16 slots, then the node is placed in front of what its slot
    held.  Second part at the full table of sixteen keys: the
    seventeenth insertion doubles it. *)
Lemma insert_grows_then_places_witness :
  hash_search_node 3 5 true "a" (new_hash_table guest_heap)
  = Ok (None, new_hash_table guest_heap)
  /\ hash_insert 3 5 true recycled first_fit "a" "1"
       (new_hash_table guest_heap) = Ok (tt, stained_table)
  /\ (exists s1 slot nd,
        insert_grow 3 5 true recycled (new_hash_table guest_heap)
        = Ok (tt, s1)
        /\ m (ht s1) = MIN_TABLE_SIZE
        /\ n (ht s1) = 0
        /\ insert_place 3 5 true first_fit "a" "1" s1 = Ok (tt, stained_table)
        /\ m (ht stained_table) = m (ht s1)
        /\ n (ht stained_table) = 1
        /\ hash 3 5 true "a" (m (ht s1)) = Ok slot
        /\ table (ht stained_table) !! Z.to_nat slot
           = Some (Some (first_fit (heap s1)))
        /\ heap stained_table !! first_fit (heap s1) = Some nd
        /\ key nd = "a"%string /\ value nd = "1"%string
        /\ table (ht s1) !! Z.to_nat slot = Some (next nd))
  /\ hash_search_node 3 5 true "q" table16 = Ok (None, table16)
  /\ exists s1 s' x nd i,
       insert_grow 3 5 true zeroed table16 = Ok (tt, s1)
       /\ m (ht s1) = (if n (ht table16) =? m (ht table16)
                       then if m (ht table16) =? 0 then MIN_TABLE_SIZE
                            else 2 * m (ht table16)
                       else m (ht table16))
       /\ (m (ht s1) <> m (ht table16) <-> n (ht table16) = m (ht table16))
       /\ n (ht s1) = n (ht table16)
       /\ hash_search_node 3 5 true "q" s1 = Ok (None, s1)
       /\ insert_place 3 5 true first_fit "q" "17" s1 = Ok (tt, s')
       /\ hash_insert 3 5 true zeroed first_fit "q" "17" table16 = Ok (tt, s')
       /\ m (ht s') = m (ht s1)
       /\ n (ht s') = n (ht table16) + 1
       /\ hash 3 5 true "q" (m (ht s1)) = Ok (Z.of_nat i)
       /\ table (ht s') !! i = Some (Some x)
       /\ heap table16 !! x = None
       /\ heap s' !! x = Some nd
       /\ prev nd = None /\ key nd = "q"%string /\ value nd = "17"%string
       /\ table (ht s1) !! i = Some (next nd).
Proof.
  assert (Hnew : hash_search_node 3 5 true "a" (new_hash_table guest_heap)
                 = Ok (None, new_hash_table guest_heap))
    by (vm_compute; reflexivity).
  assert (Hrun : hash_insert 3 5 true recycled first_fit "a" "1"
                   (new_hash_table guest_heap) = Ok (tt, stained_table))
    by (vm_compute; reflexivity).
  split; [exact Hnew | ]. split; [exact Hrun | ].
  split.
  { destruct (proj1 (insert_grows_then_places 3 5 true recycled first_fit
                       (new_hash_table guest_heap) "a" "1")
                tt stained_table Hnew Hrun)
      as (s1 & slot & nd & H1 & H2 & _ & H3 & H4 & H5 & H6 & H7 & H8 & H9
          & H10 & H11 & H12).
    exists s1, slot, nd.
    split; [exact H1 | ]. split; [exact H2 | ]. split; [exact H3 | ].
    split; [exact H4 | ]. split; [exact H5 | ]. split; [exact H6 | ].
    split; [exact H7 | ]. split; [exact H8 | ]. split; [exact H9 | ].
    split; [exact H10 | ]. split; [exact H11 | exact H12]. }
  assert (Habsent : hash_search_node 3 5 true "q" table16
                    = Ok (None, table16)) by (vm_compute; reflexivity).
  split; [exact Habsent | ].
  exact (proj2 (insert_grows_then_places 3 5 true zeroed first_fit table16
                  "q" "17")
           zeroed_empty first_fit_fresh table16_reachable table16_room
           Habsent).
Defined.

(** C5.  First part at the table whose one node was linked through
    stale words: the check comes first and leaves the 16 slots, then
    the node is unlinked.  Second part at the table of seventeen keys:
    the check fires and halves the 32 slots. *)
Lemma remove_checks_then_unlinks_witness :
  hash_search_node 3 5 true "a" stained_table
  = Ok (Some 8%positive, stained_table)
  /\ (exists s' q s1,
        hash_remove 3 5 true recycled "a" stained_table = Ok (tt, s')
        /\ remove_check 3 5 true recycled "a" (Some 8%positive) stained_table
           = Ok (q, s1)
        /\ n (ht s1) = n (ht stained_table)
        /\ m (ht s1)
           = (if Z.quot (n (ht stained_table)) 4 <=? m (ht stained_table)
              then if m (ht stained_table) <? MIN_TABLE_SIZE * 2
                   then m (ht stained_table)
                   else Z.quot (m (ht stained_table)) 2
              else m (ht stained_table))
        /\ remove_unlink 3 5 true "a" q s1 = Ok (tt, s')
        /\ m (ht s') = m (ht s1)
        /\ n (ht s') = n (ht stained_table) - 1)
  /\ hash_search_node 3 5 true "a" table17 = Ok (Some 1%positive, table17)
  /\ exists s1 s',
       remove_check 3 5 true zeroed "a" (Some 1%positive) table17
       = Ok (Some 1%positive, s1)
       /\ n (ht s1) = n (ht table17)
       /\ m (ht s1) = (if Z.quot (n (ht table17)) 4 <=? m (ht table17)
                       then if m (ht table17) <? MIN_TABLE_SIZE * 2
                            then m (ht table17)
                            else Z.quot (m (ht table17)) 2
                       else m (ht table17))
       /\ hash_search_node 3 5 true "a" s1 = Ok (Some 1%positive, s1)
       /\ remove_unlink 3 5 true "a" (Some 1%positive) s1 = Ok (tt, s')
       /\ hash_remove 3 5 true zeroed "a" table17 = Ok (tt, s')
       /\ m (ht s') = m (ht s1)
       /\ n (ht s') = n (ht table17) - 1.
Proof.
  assert (Hthere : hash_search_node 3 5 true "a" stained_table
                   = Ok (Some 8%positive, stained_table))
    by (vm_compute; reflexivity).
  assert (Hrun : exists s',
             hash_remove 3 5 true recycled "a" stained_table = Ok (tt, s'))
    by (eexists; vm_compute; reflexivity).
  split; [exact Hthere | ].
  split.
  { destruct Hrun as [s' Hrun].
    destruct (proj1 (remove_checks_then_unlinks 3 5 true recycled first_fit
                       stained_table "a" 8%positive)
                tt s' Hthere Hrun) as (q & s1 & H).
    exists s', q, s1. split; [exact Hrun | exact H]. }
  assert (Hfound : hash_search_node 3 5 true "a" table17
                   = Ok (Some 1%positive, table17))
    by (vm_compute; reflexivity).
  split; [exact Hfound | ].
  exact (proj2 (remove_checks_then_unlinks 3 5 true zeroed first_fit table17
                  "a" 1%positive)
           zeroed_empty first_fit_fresh table17_reachable Hfound).
Defined.

(** C6 at the table of seventeen keys. *)
Lemma floor_invariant_witness :
  reachable 3 5 true zeroed first_fit table17
  /\ (m (ht table17) = 0 \/ MIN_TABLE_SIZE <= m (ht table17)).
Proof.
  split; [exact table17_reachable | ].
  exact (floor_invariant 3 5 true zeroed first_fit table17 table17_reachable).
Defined.

(** C7 at the full table of sixteen keys. *)
Lemma insert_twice_replaces_witness :
  stale_empty zeroed /\ alloc_fresh first_fit
  /\ reachable 3 5 true zeroed first_fit table16
  /\ room_to_insert table16
  /\ exists s1 s2,
       hash_insert 3 5 true zeroed first_fit "q" "x" table16 = Ok (tt, s1)
       /\ hash_insert 3 5 true zeroed first_fit "q" "y" s1 = Ok (tt, s2)
       /\ hash_search 3 5 true "q" s2 = Ok (Some "y"%string, s2)
       /\ n (ht s2) = n (ht s1).
Proof.
  split; [exact zeroed_empty | ]. split; [exact first_fit_fresh | ].
  split; [exact table16_reachable | ]. split; [exact table16_room | ].
  exact (proj2 (insert_twice_replaces 3 5 true zeroed first_fit table16
                  "q" "x" "y")
           zeroed_empty first_fit_fresh table16_reachable table16_room).
Defined.

(** C9 at the key ["ab"] and sixteen slots. *)
Lemma hash_value_and_range_witness :
  0 < 16
  /\ hash 3 5 true "ab" 16
     = Ok ((wrap64 (3 * prehash true "ab" + 5) mod p) mod 16)
  /\ 0 <= (wrap64 (3 * prehash true "ab" + 5) mod p) mod 16 < 16
  /\ hash 3 5 true "ab" 16 = Ok 13.
Proof.
  assert (H16 : 0 < 16) by reflexivity.
  split; [exact H16 | ].
  destruct (hash_value_and_range 3 5 true "ab" 16 H16) as (H1 & H2 & _).
  split; [exact H1 | ]. split; [exact H2 | ].
  vm_compute. reflexivity.
Defined.

(** C10 at the table of seventeen keys. *)
Lemma lookups_change_nothing_witness :
  hash_search 3 5 true "a" table17 = Ok (Some "a"%string, table17)
  /\ hash_contains 3 5 true "zz" table17 = Ok (0, table17)
  /\ table17 = table17.
Proof.
  assert (H1 : hash_search 3 5 true "a" table17
               = Ok (Some "a"%string, table17)) by (vm_compute; reflexivity).
  split; [exact H1 | ].
  split; [vm_compute; reflexivity | ].
  exact (proj1 (lookups_change_nothing 3 5 true zeroed first_fit table17 "a")
           _ _ H1).
Defined.

(** * Further properties *)

(** ** The table as a finite map *)

(** A lookup does not see a change that spares the nodes with the key
    looked up: here everything but the node [x] keeps its place and
    its payload, and [x] does not carry [k]. *)
Lemma stored_transfer_except (h h' : gmap addr node_t) (L L' : list addr)
    (x : addr) (k : string) (r : option string) :
  (forall z, z <> x -> (z ∈ L' <-> z ∈ L)) ->
  (forall z, z <> x -> payload <$> h' !! z = payload <$> h !! z) ->
  (forall nd, x ∈ L -> h !! x = Some nd -> key nd <> k) ->
  (forall nd, x ∈ L' -> h' !! x = Some nd -> key nd <> k) ->
  stored h L k r -> stored h' L' k r.
Proof.
  intros Hmem Hpay Hx Hx'. destruct r as [v | ]; simpl.
  - intros (y & ny & Hy & Hny & Hk & Hv).
    assert (Hyx : y <> x) by (intros ->; exact (Hx ny Hy Hny Hk)).
    destruct (payload_lookup h' h y ny) as (ny' & Hny' & Hk' & Hv');
      [symmetry; apply Hpay; assumption | assumption | ].
    exists y, ny'. split; [apply Hmem; assumption | ].
    repeat split; congruence.
  - intros Hno y ny' Hy Hny'.
    destruct (decide (y = x)) as [-> | Hyx]; [eauto | ].
    destruct (payload_lookup h h' y ny') as (ny & Hny & Hk & _);
      [apply Hpay; assumption | assumption | ].
    rewrite <- Hk. apply (Hno y ny); [apply Hmem; assumption | assumption].
Qed.

Section Refinement.

Variables (a b : Z) (char_signed : bool).
Variable stale : nat -> ptr.
Variable node_alloc : gmap addr node_t -> addr.

#[local] Abbreviation models := (models a b char_signed).
#[local] Abbreviation Repr := (Repr a b char_signed).
#[local] Abbreviation hash_search_node := (hash_search_node a b char_signed).
#[local] Abbreviation hash_search := (hash_search a b char_signed).
#[local] Abbreviation hash_contains := (hash_contains a b char_signed).
#[local] Abbreviation hash_insert :=
  (hash_insert a b char_signed stale node_alloc).
#[local] Abbreviation hash_remove := (hash_remove a b char_signed stale).
#[local] Abbreviation reachable :=
  (reachable a b char_signed stale node_alloc).

Lemma models_stored s bs M k :
  Repr s bs -> models s M -> stored (heap s) (concat bs) k (M !! k).
Proof.
  intros HR [Hlook _].
  destruct (hash_search_ok a b char_signed s bs k HR) as (r & Hrun & Hsto).
  rewrite Hlook in Hrun. injection Hrun as <-. assumption.
Qed.

(** Insertion on a well-formed table, with what it does to the other
    keys and to [n]. *)
Lemma hash_insert_full s bs k v :
  stale_empty stale -> alloc_fresh node_alloc -> Repr s bs ->
  (hash_search_node k s = Ok (None, s) -> room_to_insert s) ->
  exists s' bs',
    hash_insert k v s = Ok (tt, s')
    /\ Repr s' bs'
    /\ stored (heap s') (concat bs') k (Some v)
    /\ (forall k' r, k' <> k ->
          stored (heap s) (concat bs) k' r ->
          stored (heap s') (concat bs') k' r)
    /\ (forall w, stored (heap s) (concat bs) k (Some w) ->
          n (ht s') = n (ht s))
    /\ (stored (heap s) (concat bs) k None -> n (ht s') = n (ht s) + 1).
Proof.
  intros Hst Hfresh HR Hroom.
  destruct (hash_search_node_ok a b char_signed s bs k HR)
    as ([x | ] & Hfind & Hfor).
  - destruct (hash_insert_present a b char_signed stale node_alloc
                s bs k v x HR Hfind)
      as (nd & Hnd & Hk & Hx & Hrun & HR').
    eexists _, bs. split; [exact Hrun | ]. split; [exact HR' | ].
    split; [ | split; [ | split]].
    + eexists x, _. split; [assumption | ]. simpl.
      rewrite lookup_insert_eq. split; [reflexivity | ]. simpl. auto.
    + intros k' r Hne. apply (stored_transfer_except _ _ _ _ x).
      * tauto.
      * intros z Hz. simpl. rewrite lookup_insert_ne by congruence.
        reflexivity.
      * intros nd' _ Hnd'. congruence.
      * intros nd' _. simpl. rewrite lookup_insert_eq.
        intros [= <-]. simpl. congruence.
    + intros w _. reflexivity.
    + intros Hno. destruct (Hno x nd Hx Hnd Hk).
  - destruct (Hroom Hfind) as [Hroom1 Hroom2].
    destruct (hash_insert_absent a b char_signed stale node_alloc
                s bs k v Hst Hfresh HR Hfind Hroom1 Hroom2)
      as (s1 & s' & bs' & x & i & hd & _ & _ & _ & _ & Hrun & HR' & Hperm
          & Hx & Hpay & Hx' & _ & _ & _ & _ & _ & Hn).
    exists s', bs'. split; [assumption | ]. split; [assumption | ].
    split; [ | split; [ | split]].
    + eexists x, _. split; [rewrite Hperm; left | ].
      split; [exact Hx' | ]. simpl. auto.
    + intros k' r Hne. apply (stored_transfer_except _ _ _ _ x).
      * intros z Hz. rewrite Hperm, elem_of_cons. tauto.
      * assumption.
      * intros nd' _ Hnd'. congruence.
      * intros nd' _. rewrite Hx'. intros [= <-]. simpl. congruence.
    + intros w (y & ny & Hy & Hny & Hky & _).
      destruct (Hfor y ny Hy Hny Hky).
    + intros _. assumption.
Qed.

(** Removal on a well-formed table, with what it does to the other
    keys and to [n]. *)
Lemma hash_remove_full s bs k :
  stale_empty stale -> Repr s bs ->
  exists s' bs',
    hash_remove k s = Ok (tt, s')
    /\ Repr s' bs'
    /\ stored (heap s') (concat bs') k None
    /\ (forall k' r, k' <> k ->
          stored (heap s) (concat bs) k' r ->
          stored (heap s') (concat bs') k' r)
    /\ (forall w, stored (heap s) (concat bs) k (Some w) ->
          n (ht s') = n (ht s) - 1)
    /\ (stored (heap s) (concat bs) k None -> s' = s).
Proof.
  intros Hst HR.
  destruct (hash_search_node_ok a b char_signed s bs k HR)
    as ([x | ] & Hfind & Hfor).
  - destruct (remove_check_ok a b char_signed stale s bs k x Hst HR Hfind)
      as (s1 & bs1 & Hcheck & HR1 & Hperm1 & Hpay1 & _ & Hn1 & Hfind1).
    destruct (remove_unlink_ok a b char_signed s1 bs1 k x HR1 Hfind1)
      as (s' & bs' & nd & Hunlink & HR' & Hperm & Hx & Hk & Hheap & _ & Hn).
    assert (Hrun : hash_remove k s = Ok (tt, s')).
    { rewrite hash_remove_phases, (run_bind_ok _ _ _ _ _ Hfind).
      rewrite (run_bind_ok _ _ _ _ _ Hcheck). assumption. }
    assert (Hnd : NoDup (x :: concat bs')).
    { rewrite Hperm. apply HR1. }
    apply NoDup_cons in Hnd as [Hxout _].
    assert (Hnone : stored (heap s') (concat bs') k None).
    { intros z nz' Hz Hnz' Hkz.
      assert (Hzx : z <> x) by (intros ->; contradiction).
      rewrite Hheap in Hnz'.
      destruct (payload_lookup (heap s1) (unlink_heap (heap s1) x nd) z nz')
        as (nz & Hnz & Hkey & _);
        [apply unlink_heap_payload; assumption | assumption | ].
      apply Hzx.
      eapply (repr_keys _ _ _ _ _ HR1); try eassumption.
      - rewrite <- Hperm. right. assumption.
      - rewrite <- Hperm. left.
      - congruence. }
    exists s', bs'. split; [assumption | ]. split; [assumption | ].
    split; [assumption | ]. split; [ | split].
    + intros k' r Hne Hsto.
      apply (stored_transfer_except (heap s1) _ (concat bs1) _ x).
      * intros z Hz. rewrite <- Hperm, elem_of_cons. tauto.
      * intros z Hz. rewrite Hheap. apply unlink_heap_payload. assumption.
      * intros nd' _ Hnd'. congruence.
      * intros nd' Hin. contradiction.
      * eapply stored_transfer; eassumption.
    + intros w _. lia.
    + intros Hno. destruct Hfor as (Hxin & nd0 & Hnd0 & Hk0).
      destruct (Hno x nd0 Hxin Hnd0 Hk0).
  - exists s, bs. split; [apply hash_remove_absent; assumption | ].
    split; [assumption | ]. split; [exact Hfor | ].
    split; [auto | ]. split; [ | reflexivity].
    intros w (y & ny & Hy & Hny & Hky & _). destruct (Hfor y ny Hy Hny Hky).
Qed.


Lemma models_absent_node s bs M k :
  Repr s bs -> models s M -> hash_search_node k s = Ok (None, s) ->
  M !! k = None.
Proof.
  intros HR [Hlook _] Hfind. specialize (Hlook k).
  unfold hash_search in Hlook.
  rewrite (run_bind_ok _ _ _ _ _ Hfind) in Hlook.
  inversion Hlook. reflexivity.
Qed.

(** A new table holds the empty map. *)
Lemma models_new h : models (new_hash_table h) ∅.
Proof.
  split; [ | reflexivity]. intros k. rewrite lookup_empty.
  apply (hash_search_stored a b char_signed _ []);
    [apply new_hash_table_repr | ].
  intros x nd Hx. simpl in Hx. inversion Hx.
Qed.

(** One insertion, on the finite map: [M] becomes [<[k := v]> M]. *)
Lemma models_insert s bs M k v :
  stale_empty stale -> alloc_fresh node_alloc -> Repr s bs ->
  models s M -> (M !! k = None -> room_to_insert s) ->
  exists s' bs',
    hash_insert k v s = Ok (tt, s') /\ Repr s' bs'
    /\ models s' (<[k := v]> M).
Proof.
  intros Hst Hfresh HR HM Hroom.
  destruct (hash_insert_full s bs k v Hst Hfresh HR)
    as (s' & bs' & Hrun & HR' & Hk & Hother & Hsame & Hmore).
  { intros Hfind. apply Hroom. eapply models_absent_node; eassumption. }
  exists s', bs'. split; [assumption | ]. split; [assumption | ].
  split.
  - intros k'. apply (hash_search_stored a b char_signed _ bs' _ _ HR').
    destruct (decide (k' = k)) as [-> | Hne].
    + rewrite lookup_insert_eq. assumption.
    + rewrite lookup_insert_ne by congruence.
      apply Hother; [assumption | ]. apply models_stored; assumption.
  - pose proof (models_stored s bs M k HR HM) as Hsto.
    destruct HM as [_ Hn].
    destruct (M !! k) as [w | ] eqn:E.
    + rewrite (Hsame w Hsto), Hn. f_equal.
      rewrite map_size_insert_Some; eauto.
    + rewrite (Hmore Hsto), Hn, map_size_insert_None by assumption. lia.
Qed.

(** One removal, on the finite map: [M] becomes [delete k M]. *)
Lemma models_remove s bs M k :
  stale_empty stale -> Repr s bs -> models s M ->
  exists s' bs',
    hash_remove k s = Ok (tt, s') /\ Repr s' bs'
    /\ models s' (delete k M).
Proof.
  intros Hst HR HM.
  destruct (hash_remove_full s bs k Hst HR)
    as (s' & bs' & Hrun & HR' & Hk & Hother & Hless & Hsame).
  exists s', bs'. split; [assumption | ]. split; [assumption | ].
  split.
  - intros k'. apply (hash_search_stored a b char_signed _ bs' _ _ HR').
    destruct (decide (k' = k)) as [-> | Hne].
    + rewrite lookup_delete_eq. assumption.
    + rewrite lookup_delete_ne by congruence.
      apply Hother; [assumption | ]. apply models_stored; assumption.
  - pose proof (models_stored s bs M k HR HM) as Hsto.
    destruct HM as [_ Hn].
    destruct (M !! k) as [w | ] eqn:E.
    + rewrite (Hless w Hsto), Hn.
      assert (Hsz : size (delete k M) = Nat.pred (size M))
        by (apply map_size_delete_Some; eauto).
      assert (size M <> 0%nat).
      { apply (map_size_ne_0_lookup_2 _ k). eauto. }
      lia.
    + rewrite (Hsame Hsto), Hn, delete_id by assumption. reflexivity.
Qed.

(** The same, for a call that has returned. *)
Lemma models_insert_returned s bs M k v u s' :
  stale_empty stale -> alloc_fresh node_alloc -> Repr s bs ->
  models s M -> hash_insert k v s = Ok (u, s') ->
  (exists bs', Repr s' bs') /\ models s' (<[k := v]> M).
Proof.
  intros Hst Hfresh HR HM Hrun. destruct u.
  destruct (models_insert s bs M k v Hst Hfresh HR HM)
    as (s2 & bs' & Hrun' & HR' & HM').
  { intros Hnone.
    eapply (hash_insert_room a b char_signed stale node_alloc);
      [eassumption | ].
    pose proof (models_stored s bs M k HR HM) as Hsto.
    rewrite Hnone in Hsto.
    destruct (hash_search_node_ok a b char_signed s bs k HR)
      as ([x | ] & Hfind & Hfor); [ | assumption].
    destruct Hfor as (Hx & nd & Hnd & Hk).
    destruct (Hsto x nd Hx Hnd Hk). }
  rewrite Hrun in Hrun'. injection Hrun' as <-. eauto.
Qed.

Lemma models_remove_returned s bs M k u s' :
  stale_empty stale -> Repr s bs ->
  models s M -> hash_remove k s = Ok (u, s') ->
  (exists bs', Repr s' bs') /\ models s' (delete k M).
Proof.
  intros Hst HR HM Hrun. destruct u.
  destruct (models_remove s bs M k Hst HR HM)
    as (s2 & bs' & Hrun' & HR' & HM').
  rewrite Hrun in Hrun'. injection Hrun' as <-. eauto.
Qed.

(** Every table built through the interface holds a finite map. *)
Lemma reachable_models_repr s :
  stale_empty stale -> alloc_fresh node_alloc -> reachable s ->
  exists bs M, Repr s bs /\ models s M.
Proof.
  intros Hst Hfresh Hreach.
  induction Hreach as [h | s k v s' _ (bs & M & HR & HM) Hrun
                         | s k s' _ (bs & M & HR & HM) Hrun].
  - exists [], ∅. split; [apply new_hash_table_repr | apply models_new].
  - destruct (models_insert_returned s bs M k v tt s' Hst Hfresh HR HM Hrun)
      as [[bs' HR'] HM'].
    eauto.
  - destruct (models_remove_returned s bs M k tt s' Hst HR HM Hrun)
      as [[bs' HR'] HM'].
    eauto.
Qed.

End Refinement.

(** ** The nodes of the others *)

(** What follows is about the nodes that are in the heap without being
    in the table: the table never writes to them, and gives back all
    it has allocated when it is freed. *)

(** The heap [h] without the nodes [l]. *)
Lemma lookup_foldr_delete (h : gmap addr node_t) (l : list addr) z :
  foldr delete h l !! z = if decide (z ∈ l) then None else h !! z.
Proof.
  induction l as [ | x l IH]; simpl.
  - destruct (decide (z ∈ [])) as [Hin | _]; [inversion Hin | reflexivity].
  - destruct (decide (x = z)) as [-> | Hne].
    + rewrite lookup_delete_eq.
      destruct (decide (z ∈ z :: l)) as [_ | Hout]; [reflexivity | ].
      exfalso. apply Hout. left.
    + rewrite lookup_delete_ne by assumption. rewrite IH.
      destruct (decide (z ∈ l)) as [Hin | Hout];
        destruct (decide (z ∈ x :: l)) as [Hin' | Hout'];
        try reflexivity.
      * exfalso. apply Hout'. right. assumption.
      * apply elem_of_cons in Hin' as [-> | Hin']; congruence.
Qed.

(** The links of a node of a chain lead into the chain. *)
Lemma dll_links h pv q l x nd z :
  dll h pv q l -> x ∈ l -> h !! x = Some nd ->
  (next nd = Some z -> z ∈ l)
  /\ (prev nd = Some z -> pv = Some z \/ z ∈ l).
Proof.
  intros Hdll Hx Hnd.
  apply list_elem_of_split in Hx as (l1 & l2 & ->).
  destruct (dll_at _ _ _ _ _ _ Hdll) as (nd' & Hnd' & Hp & Hn & _).
  assert (nd' = nd) by congruence. subst nd'. split.
  - rewrite Hn. destruct l2 as [ | y l2]; [discriminate | ].
    intros [= ->]. rewrite elem_of_app. right. right. left.
  - rewrite Hp. destruct (last l1) as [y | ] eqn:E; [ | auto].
    intros [= ->]. right. rewrite elem_of_app. left.
    apply last_Some in E as [l' ->]. rewrite elem_of_app. right. left.
Qed.

Lemma node_eta (nd : node_t) :
  Node (next nd) (prev nd) (key nd) (value nd) = nd.
Proof. destruct nd. reflexivity. Qed.

Section Foreign.

Variables (a b : Z) (char_signed : bool).
Variable stale : nat -> ptr.
Variable node_alloc : gmap addr node_t -> addr.

#[local] Abbreviation Repr := (Repr a b char_signed).
#[local] Abbreviation hash := (hash a b char_signed).
#[local] Abbreviation hash_search_node := (hash_search_node a b char_signed).
#[local] Abbreviation resize_hash_table :=
  (resize_hash_table a b char_signed stale).
#[local] Abbreviation grow_hash_table :=
  (grow_hash_table a b char_signed stale).
#[local] Abbreviation shrink_hash_table :=
  (shrink_hash_table a b char_signed stale).
#[local] Abbreviation insert_grow := (insert_grow a b char_signed stale).
#[local] Abbreviation insert_place :=
  (insert_place a b char_signed node_alloc).
#[local] Abbreviation remove_check := (remove_check a b char_signed stale).
#[local] Abbreviation remove_unlink := (remove_unlink a b char_signed).
#[local] Abbreviation hash_insert :=
  (hash_insert a b char_signed stale node_alloc).
#[local] Abbreviation hash_remove := (hash_remove a b char_signed stale).
#[local] Abbreviation reachable :=
  (reachable a b char_signed stale node_alloc).
#[local] Abbreviation owns := (owns a b char_signed).
#[local] Abbreviation built := (built a b char_signed stale node_alloc).

Lemma built_reachable h0 s : built h0 s -> reachable s.
Proof.
  induction 1; [apply reach_new | eapply reach_insert | eapply reach_remove];
    eassumption.
Qed.

Lemma reachable_built s : reachable s -> exists h0, built h0 s.
Proof.
  induction 1 as [h | s k v s' _ [h0 IH] Hrun | s k s' _ [h0 IH] Hrun].
  - exists h. constructor.
  - exists h0. eapply built_insert; eassumption.
  - exists h0. eapply built_remove; eassumption.
Qed.

(** A rehash writes to the nodes of the table only. *)
Lemma resize_hash_table_frame s bs newm u s' :
  stale_empty stale -> Repr s bs -> 0 < newm ->
  resize_hash_table newm s = Ok (u, s') ->
  forall z, z ∉ concat bs -> heap s' !! z = heap s !! z.
Proof.
  intros Hst [Hlen _ Hch Hnd _ _ _] Hnewm Hrun.
  unfold resize_hash_table in Hrun.
  rewrite run_bind in Hrun. simpl in Hrun.
  rewrite malloc_table_empty in Hrun by assumption.
  destruct (rehash_table_ok a b char_signed stale (heap s) newm s bs
              Hnewm Hch Hnd
              (Z.to_nat (m (ht s))) 0 (heap s) _ _
              (rehashing_start a b char_signed (heap s) newm))
    as (h' & t' & nbs' & Hrh & [_ _ _ Hrest _ _]).
  { apply Forall2_length in Hch. simpl. lia. }
  rewrite with_heap_id in Hrh. simpl in Hrh.
  rewrite (run_bind_ok _ _ _ _ _ Hrh) in Hrun.
  inversion Hrun; subst. simpl. assumption.
Qed.

Lemma grow_hash_table_frame s bs u s' :
  stale_empty stale -> Repr s bs ->
  grow_hash_table s = Ok (u, s') ->
  forall z, z ∉ concat bs -> heap s' !! z = heap s !! z.
Proof.
  intros Hst HR Hrun. unfold grow_hash_table in Hrun.
  rewrite run_bind in Hrun. simpl in Hrun.
  destruct (Z.eqb_spec (m (ht s)) 0) as [Hz | Hnz].
  - inversion Hrun; subst. intros. reflexivity.
  - apply bind_inv in Hrun as (newm & s1 & Hrange & Hrun).
    apply int_range_inv in Hrange as (-> & -> & _).
    eapply resize_hash_table_frame; try eassumption.
    pose proof (repr_len _ _ _ _ _ HR). lia.
Qed.

Lemma insert_grow_frame s bs u s' :
  stale_empty stale -> Repr s bs ->
  insert_grow s = Ok (u, s') ->
  forall z, z ∉ concat bs -> heap s' !! z = heap s !! z.
Proof.
  intros Hst HR Hrun. unfold insert_grow in Hrun.
  apply bind_inv in Hrun as (n0 & s1 & H1 & Hrun). inversion H1; subst.
  apply bind_inv in Hrun as (m0 & s2 & H2 & Hrun). inversion H2; subst.
  destruct (n (ht s2) =? m (ht s2)).
  - eapply grow_hash_table_frame; eassumption.
  - inversion Hrun; subst. intros. reflexivity.
Qed.

Lemma shrink_hash_table_frame s bs u s' :
  stale_empty stale -> Repr s bs ->
  shrink_hash_table s = Ok (u, s') ->
  forall z, z ∉ concat bs -> heap s' !! z = heap s !! z.
Proof.
  intros Hst HR Hrun. unfold shrink_hash_table in Hrun.
  rewrite run_bind in Hrun. simpl in Hrun.
  destruct (Z.ltb_spec (m (ht s)) (MIN_TABLE_SIZE * 2)) as [Hlt | Hge].
  - inversion Hrun; subst. intros. reflexivity.
  - eapply resize_hash_table_frame; try eassumption.
    unfold MIN_TABLE_SIZE in Hge.
    apply Z.quot_str_pos. lia.
Qed.

Lemma remove_check_frame s bs k q q' s' :
  stale_empty stale -> Repr s bs ->
  remove_check k q s = Ok (q', s') ->
  forall z, z ∉ concat bs -> heap s' !! z = heap s !! z.
Proof.
  intros Hst HR Hrun. unfold remove_check in Hrun.
  apply bind_inv in Hrun as (n0 & s1 & H1 & Hrun). inversion H1; subst.
  apply bind_inv in Hrun as (m0 & s2 & H2 & Hrun). inversion H2; subst.
  destruct (Z.quot (n (ht s2)) 4 <=? m (ht s2)).
  - apply bind_inv in Hrun as ([] & s1 & Hshrink & Hfind).
    pose proof (hash_search_node_reads _ _ _ _ _ _ _ Hfind) as <-.
    eapply shrink_hash_table_frame; eassumption.
  - inversion Hrun; subst. intros. reflexivity.
Qed.

(** The placing of a new node writes to that node and to the head of
    its chain. *)
Lemma insert_place_frame s1 k v u s' :
  insert_place k v s1 = Ok (u, s') ->
  exists slot hd,
    0 <= slot /\ table (ht s1) !! Z.to_nat slot = Some hd
    /\ forall z, z <> node_alloc (heap s1) -> hd <> Some z ->
         heap s' !! z = heap s1 !! z.
Proof.
  unfold insert_place. intros Hrun.
  apply bind_inv in Hrun as (n1 & sA & H1 & Hrun). inversion H1; subst.
  apply bind_inv in Hrun as (n2 & sA' & H2 & Hrun).
  apply int_range_inv in H2 as (-> & -> & _).
  apply bind_inv in Hrun as ([] & sB & H3 & Hrun). inversion H3; subst.
  apply bind_inv in Hrun as (q & sC & H4 & Hrun). inversion H4; subst.
  apply bind_inv in Hrun as (m1 & sD & H5 & Hrun). inversion H5; subst.
  apply bind_inv in Hrun as (slot & sE & H6 & Hrun).
  apply lift_inv in H6 as [Hhash ->].
  apply bind_inv in Hrun as (head & sF & H7 & Hrun).
  apply table_get_inv in H7 as (Hslot & Htab & ->).
  apply bind_inv in Hrun as ([] & sG & Hlink & Hset).
  apply table_set_inv in Hset as (_ & _ & ->).
  set (x := node_alloc (heap sA)) in *.
  exists slot, head. split; [assumption | ]. split; [exact Htab | ].
  intros z Hzx Hhd. simpl.
  destruct head as [y | ].
  - apply bind_inv in Hlink as ([] & sH & Hn & Hp).
    apply set_next_inv in Hn as (x' & nx & [= <-] & Hnx & ->).
    apply set_prev_inv in Hp as (y' & ny & [= <-] & Hny & ->).
    simpl. rewrite !lookup_insert_ne by congruence. reflexivity.
  - inversion Hlink; subst. simpl.
    rewrite lookup_insert_ne by congruence. reflexivity.
Qed.

Lemma owns_new h0 : owns h0 (new_hash_table h0) [].
Proof.
  split; [apply new_hash_table_repr | ]. split.
  - reflexivity.
  - intros z Hz. inversion Hz.
Qed.

(** An insertion keeps the nodes of the others as they are. *)
Lemma owns_insert h0 s bs k v u s' :
  stale_empty stale -> alloc_fresh node_alloc -> owns h0 s bs ->
  hash_insert k v s = Ok (u, s') ->
  exists bs', owns h0 s' bs'.
Proof.
  intros Hst Hfresh (HR & Hout & Hin) Hrun. destruct u.
  destruct (hash_search_node_ok a b char_signed s bs k HR)
    as ([x | ] & Hfind & Hfor).
  - destruct (hash_insert_present a b char_signed stale node_alloc
                s bs k v x HR Hfind)
      as (nd & Hnd & Hk & Hx & Hrun' & HR').
    rewrite Hrun in Hrun'. injection Hrun' as ->.
    exists bs. split; [assumption | ]. split; [ | assumption].
    intros z Hz. simpl. rewrite lookup_insert_ne by congruence. auto.
  - destruct (hash_insert_room a b char_signed stale node_alloc
                k v s tt s' Hrun Hfind) as [Hroom1 Hroom2].
    destruct (hash_insert_absent a b char_signed stale node_alloc
                s bs k v Hst Hfresh HR Hfind Hroom1 Hroom2)
      as (s1 & s2 & bs' & x & i & hd & Hgrow & _ & _ & Hplace & Hrun'
          & HR' & Hperm & Hx & Hpay & _).
    rewrite Hrun in Hrun'. injection Hrun' as <-.
    assert (Hxout : x ∉ concat bs).
    { intros Hxin.
      destruct (chains_in_heap _ _ _ _ (repr_chains _ _ _ _ _ HR) Hxin).
      congruence. }
    destruct (insert_growth_ok a b char_signed stale s bs Hst HR Hroom2)
      as (s1' & bs1 & Hgrow' & HR1 & Hperm1 & _).
    rewrite Hgrow in Hgrow'. injection Hgrow' as <-.
    pose proof (insert_grow_frame s bs tt s1 Hst HR Hgrow) as Hframe1.
    destruct (insert_place_frame s1 k v tt s' Hplace)
      as (slot & hd' & Hslot & Htab & Hframe2).
    exists bs'. split; [assumption | ]. split.
    + intros z Hz. rewrite Hperm, not_elem_of_cons in Hz.
      destruct Hz as [Hzx Hz].
      destruct (heap s !! z) as [nz | ] eqn:E.
      * rewrite <- (Hout z Hz), <- (Hframe1 z Hz).
        apply Hframe2.
        -- intros ->. pose proof (Hfresh (heap s1)) as Hnew.
           rewrite (Hframe1 _ Hz), E in Hnew. discriminate.
        -- intros ->.
           destruct (Forall2_lookup_l _ _ _ _ _
                       (repr_chains _ _ _ _ _ HR1) Htab)
             as (l & Hl & Hdll).
           apply Hz. rewrite <- Hperm1. apply elem_of_concat.
           exists (Z.to_nat slot), l. split; [assumption | ].
           apply dll_head in Hdll. destruct l; [discriminate | ].
           injection Hdll as ->. left.
      * rewrite <- (Hout z Hz), E.
        specialize (Hpay z Hzx). rewrite E in Hpay.
        destruct (heap s' !! z); [discriminate | reflexivity].
    + intros z Hz. rewrite Hperm in Hz.
      apply elem_of_cons in Hz as [-> | Hz]; [ | auto].
      rewrite <- (Hout x Hxout). assumption.
Qed.

(** A removal keeps the nodes of the others as they are. *)
Lemma owns_remove h0 s bs k u s' :
  stale_empty stale -> owns h0 s bs ->
  hash_remove k s = Ok (u, s') ->
  exists bs', owns h0 s' bs'.
Proof.
  intros Hst (HR & Hout & Hin) Hrun. destruct u.
  destruct (hash_search_node_ok a b char_signed s bs k HR)
    as ([x | ] & Hfind & Hfor).
  - destruct (remove_check_ok a b char_signed stale s bs k x Hst HR Hfind)
      as (s1 & bs1 & Hcheck & HR1 & Hperm1 & _ & _ & _ & Hfind1).
    destruct (remove_unlink_ok a b char_signed s1 bs1 k x HR1 Hfind1)
      as (s2 & bs' & nd & Hunlink & HR' & Hperm & Hx & Hk & Hheap & _).
    assert (Hrun' : hash_remove k s = Ok (tt, s2)).
    { rewrite hash_remove_phases, (run_bind_ok _ _ _ _ _ Hfind).
      rewrite (run_bind_ok _ _ _ _ _ Hcheck). assumption. }
    rewrite Hrun in Hrun'. injection Hrun' as <-.
    pose proof (remove_check_frame s bs k _ _ s1 Hst HR Hcheck) as Hframe1.
    assert (Hxin : x ∈ concat bs1) by (rewrite <- Hperm; left).
    exists bs'. split; [assumption | ]. split.
    + intros z Hz. rewrite Hheap.
      destruct (decide (z = x)) as [-> | Hzx].
      * rewrite unlink_heap_self. symmetry. apply Hin.
        rewrite <- Hperm1. assumption.
      * assert (Hz1 : z ∉ concat bs1).
        { rewrite <- Hperm, not_elem_of_cons. auto. }
        assert (Hz0 : z ∉ concat bs) by (rewrite <- Hperm1; assumption).
        rewrite unlink_heap_other by assumption.
        rewrite <- (Hout z Hz0), <- (Hframe1 z Hz0).
        destruct (heap s1 !! z) as [nz | ]; [ | reflexivity]. simpl.
        apply elem_of_concat in Hxin as (i & l & Hl & Hxl).
        destruct (Forall2_lookup_r _ _ _ _ _
                    (repr_chains _ _ _ _ _ HR1) Hl) as (q & _ & Hdll).
        destruct (dll_links _ _ _ _ _ _ z Hdll Hxl Hx) as [Hnext Hprev].
        assert (Hzl : z ∉ l).
        { intros Hzl. apply Hz1, elem_of_concat. eauto. }
        destruct (decide (Some z = prev nd)) as [Heq | _].
        { symmetry in Heq. destruct (Hprev Heq); [discriminate | tauto]. }
        destruct (decide (Some z = next nd)) as [Heq | _].
        { symmetry in Heq. tauto. }
        f_equal. apply node_eta.
    + intros z Hz. apply Hin. rewrite <- Hperm1, <- Hperm. right.
      assumption.
  - rewrite (hash_remove_absent a b char_signed stale s k Hfind) in Hrun.
    injection Hrun as <-. exists bs. exact (conj HR (conj Hout Hin)).
Qed.

Lemma built_owns h0 s :
  stale_empty stale -> alloc_fresh node_alloc -> built h0 s ->
  exists bs, owns h0 s bs.
Proof.
  intros Hst Hfresh Hb.
  induction Hb as [ | s k v s' _ [bs IH] Hrun | s k s' _ [bs IH] Hrun].
  - exists []. apply owns_new.
  - eapply owns_insert; eassumption.
  - eapply owns_remove; eassumption.
Qed.

End Foreign.

(** ** Freeing the table *)

Lemma with_heap_with_heap h h' s :
  with_heap h' (with_heap h s) = with_heap h' s.
Proof. reflexivity. Qed.

Lemma foldr_delete_delete (h : gmap addr node_t) (l : list addr) x :
  foldr delete (delete x h) l = delete x (foldr delete h l).
Proof.
  induction l as [ | y l IH]; simpl; [reflexivity | ].
  rewrite IH. apply delete_delete.
Qed.

Lemma foldr_delete_app (h : gmap addr node_t) (l k : list addr) :
  foldr delete (foldr delete h l) k = foldr delete h (l ++ k).
Proof.
  induction l as [ | x l IH]; simpl; [reflexivity | ].
  rewrite foldr_delete_delete, IH. reflexivity.
Qed.

(** A heap without some of its nodes is part of that heap. *)
Lemma foldr_delete_subseteq (h : gmap addr node_t) (l : list addr) :
  foldr delete h l ⊆ h.
Proof.
  induction l as [ | x l IH]; simpl; [reflexivity | ].
  etransitivity; [apply delete_subseteq | exact IH].
Qed.

Lemma size_foldr_delete (h : gmap addr node_t) (l : list addr) :
  NoDup l -> (forall x, x ∈ l -> is_Some (h !! x)) ->
  (size (foldr delete h l) + length l = size h)%nat.
Proof.
  induction l as [ | x l IH]; simpl; intros Hnd Hin; [lia | ].
  apply NoDup_cons in Hnd as [Hx Hnd].
  rewrite map_size_delete_Some.
  - specialize (IH Hnd (fun y Hy => Hin y (list_elem_of_further _ _ _ Hy))).
    assert (size (foldr delete h l) <> 0)%nat; [ | lia].
    apply (map_size_ne_0_lookup_2 _ x).
    rewrite lookup_foldr_delete.
    destruct (decide (x ∈ l)); [contradiction | ]. apply Hin. left.
  - rewrite lookup_foldr_delete.
    destruct (decide (x ∈ l)); [contradiction | ]. apply Hin. left.
Qed.

(** The chains only depend on their own nodes. *)
Lemma chains_ext h h' t bs :
  (forall x, x ∈ concat bs -> h' !! x = h !! x) ->
  Forall2 (dll h None) t bs -> Forall2 (dll h' None) t bs.
Proof.
  intros Hsame Hch. induction Hch as [ | q l t bs Hdll Hch IH].
  - constructor.
  - constructor.
    + eapply dll_ext; [ | eassumption].
      intros x nd Hx Hnd. exists nd. rewrite Hsame; [auto | ].
      simpl. rewrite elem_of_app. auto.
    + apply IH. intros x Hx. apply Hsame. simpl. rewrite elem_of_app. auto.
Qed.

Lemma free_hash_node_ok s x nd :
  heap s !! x = Some nd ->
  free_hash_node (Some x) s = Ok (tt, with_heap (delete x (heap s)) s).
Proof.
  intros Hx. unfold free_hash_node.
  rewrite (run_bind_ok _ _ _ _ _ (load_ok _ _ _ Hx)). reflexivity.
Qed.

(** The loop of [free_list_nodes] frees the nodes of the chain, each
    once, and nothing else. *)
Lemma free_list_nodes_ok l :
  forall s pv q fuel,
    dll (heap s) pv q l -> NoDup l -> (length l <= fuel)%nat ->
    free_list_nodes fuel q s
    = Ok (tt, with_heap (foldr delete (heap s) l) s).
Proof.
  induction l as [ | x l IH]; intros s pv q fuel Hdll Hnd Hfuel.
  - simpl in Hdll. subst q. destruct fuel; simpl; rewrite with_heap_id;
      reflexivity.
  - destruct Hdll as (-> & nd & Hx & _ & Hdll).
    apply NoDup_cons in Hnd as [Hxl Hnd].
    destruct fuel as [ | fuel]; [simpl in Hfuel; lia | ].
    cbn [free_list_nodes].
    rewrite (run_bind_ok _ _ _ _ _ (get_next_ok _ _ _ Hx)).
    rewrite (run_bind_ok _ _ _ _ _ (free_hash_node_ok _ _ _ Hx)).
    rewrite (IH (with_heap (delete x (heap s)) s) (Some x) (next nd) fuel).
    + simpl. rewrite foldr_delete_delete. reflexivity.
    + simpl. eapply dll_ext; [ | eassumption].
      intros y ny Hy Hny. exists ny.
      rewrite lookup_delete_ne by (intros ->; contradiction). auto.
    + assumption.
    + simpl in Hfuel. lia.
Qed.

(** The loop of [free_hash_table] over the buckets from [l] on. *)
Lemma free_table_lists_ok bs :
  forall t s l,
    drop l (table (ht s)) = t ->
    Forall2 (dll (heap s) None) t bs -> NoDup (concat bs) ->
    free_table_lists (length t) (Z.of_nat l) s
    = Ok (tt, with_heap (foldr delete (heap s) (concat bs)) s).
Proof.
  induction bs as [ | l1 bs IH]; intros t s l Hdrop Hch Hnd.
  - apply Forall2_nil_inv_r in Hch as ->. simpl.
    rewrite with_heap_id. reflexivity.
  - apply Forall2_cons_inv_r in Hch as (q & t' & Hdll & Hch' & ->).
    simpl in Hnd. apply NoDup_app in Hnd as (Hnd1 & Hdisj & Hnd').
    assert (Hq : table (ht s) !! l = Some q).
    { rewrite <- (Nat.add_0_r l), <- lookup_drop, Hdrop. reflexivity. }
    cbn [free_table_lists length].
    rewrite (run_bind_ok _ _ _ _ _ (table_get_ok _ _ _ Hq)).
    rewrite run_bind. simpl.
    rewrite (run_bind_ok _ _ _ _ _
               (free_list_nodes_ok l1 s None q _ Hdll Hnd1
                  (Nat.le_trans _ _ _
                     (length_le_size (heap s) l1 Hnd1
                        (fun x Hx => dll_in_heap _ _ _ _ _ Hdll Hx))
                     (Nat.le_succ_diag_r _)))).
    replace (Z.of_nat l + 1) with (Z.of_nat (S l)) by lia.
    rewrite (IH t' (with_heap (foldr delete (heap s) l1) s) (S l)).
    + simpl. rewrite foldr_delete_app. reflexivity.
    + simpl. rewrite (drop_S _ _ _ Hq) in Hdrop. congruence.
    + simpl. eapply chains_ext; [ | eassumption].
      intros x Hx. rewrite lookup_foldr_delete.
      destruct (decide (x ∈ l1)) as [Hx1 | ]; [ | reflexivity].
      destruct (Hdisj x Hx1 Hx).
    + assumption.
Qed.

Section Free.

Variables (a b : Z) (char_signed : bool).

#[local] Abbreviation Repr := (Repr a b char_signed).

(** Freeing a well-formed table frees its nodes. *)
Lemma free_hash_table_ok s bs :
  Repr s bs ->
  free_hash_table s = Ok (foldr delete (heap s) (concat bs)).
Proof.
  intros HR. unfold free_hash_table.
  assert (Hcnt : Z.to_nat (m (ht s)) = length (table (ht s))).
  { rewrite <- (repr_len _ _ _ _ _ HR). lia. }
  rewrite Hcnt. change 0 with (Z.of_nat 0).
  rewrite (free_table_lists_ok bs (table (ht s)) s 0 eq_refl
             (repr_chains _ _ _ _ _ HR) (repr_nodup _ _ _ _ _ HR)).
  reflexivity.
Qed.

Lemma owns_free h0 s bs :
  owns a b char_signed h0 s bs -> foldr delete (heap s) (concat bs) = h0.
Proof.
  intros (_ & Hout & Hin). apply map_eq. intros z.
  rewrite lookup_foldr_delete.
  destruct (decide (z ∈ concat bs)); [symmetry | ]; auto.
Qed.

End Free.

(** ** Printing the table *)

Lemma string_append_assoc (s1 s2 s3 : string) :
  ((s1 ++ s2) ++ s3)%string = (s1 ++ s2 ++ s3)%string.
Proof.
  induction s1 as [ | c s1 IH]; [reflexivity | ].
  change (String c ((s1 ++ s2) ++ s3) = String c (s1 ++ s2 ++ s3))%string.
  f_equal. exact IH.
Qed.

Lemma print_nodes_app (l1 l2 : list node_t) :
  print_nodes (l1 ++ l2) = (print_nodes l1 ++ print_nodes l2)%string.
Proof.
  induction l1 as [ | nd l1 IH]; simpl; [reflexivity | ].
  rewrite IH, string_append_assoc. reflexivity.
Qed.

Lemma chain_nodes_app h (l1 l2 : list addr) :
  chain_nodes h (l1 ++ l2) = chain_nodes h l1 ++ chain_nodes h l2.
Proof. apply omap_app. Qed.

Lemma elem_of_chain_nodes h l nd :
  nd ∈ chain_nodes h l <-> exists x, x ∈ l /\ h !! x = Some nd.
Proof. apply list_elem_of_omap. Qed.

(** Distinct nodes with distinct keys give distinct entries. *)
Lemma NoDup_chain_payload h l :
  NoDup l -> unique_keys h l -> NoDup (payload <$> chain_nodes h l).
Proof.
  induction l as [ | x l IH]; intros Hnd Hkeys; [constructor | ].
  apply NoDup_cons in Hnd as [Hx Hnd].
  assert (IH' : NoDup (payload <$> chain_nodes h l)).
  { apply IH; [assumption | ].
    intros y z ny nz Hy Hz. apply Hkeys; right; assumption. }
  unfold chain_nodes in *. simpl.
  destruct (h !! x) as [nd | ] eqn:E; [ | assumption]. simpl.
  apply NoDup_cons. split; [ | assumption].
  intros Hin. apply list_elem_of_fmap in Hin as (ny & Hpay & Hin).
  apply list_elem_of_omap in Hin as (y & Hy & Hny).
  apply Hx. replace x with y; [assumption | ].
  apply (Hkeys y x ny nd); [right; assumption | left | assumption
                            | assumption | ].
  unfold payload in Hpay. congruence.
Qed.

(** The loop of [hash_print] over one chain writes its nodes in chain
    order, and only reads. *)
Lemma print_list_ok l :
  forall s pv q fuel,
    dll (heap s) pv q l -> (length l <= fuel)%nat ->
    print_list fuel q s = Ok (print_nodes (chain_nodes (heap s) l), s).
Proof.
  induction l as [ | x l IH]; intros s pv q fuel Hdll Hfuel.
  - simpl in Hdll. subst q. destruct fuel; reflexivity.
  - destruct Hdll as (-> & nd & Hx & _ & Hdll).
    destruct fuel as [ | fuel]; [simpl in Hfuel; lia | ].
    cbn [print_list].
    rewrite (run_bind_ok _ _ _ _ _ (load_ok _ _ _ Hx)).
    rewrite (run_bind_ok _ _ _ _ _
               (IH s (Some x) (next nd) fuel Hdll
                  (proj2 (Nat.succ_le_mono _ _) Hfuel))).
    unfold chain_nodes. simpl. rewrite Hx. reflexivity.
Qed.

(** The loop of [hash_print] over the buckets from [l] on. *)
Lemma print_table_ok bs :
  forall t s l,
    drop l (table (ht s)) = t ->
    Forall2 (dll (heap s) None) t bs -> NoDup (concat bs) ->
    print_table (length t) (Z.of_nat l) s
    = Ok (print_nodes (chain_nodes (heap s) (concat bs)), s).
Proof.
  induction bs as [ | l1 bs IH]; intros t s l Hdrop Hch Hnd.
  - apply Forall2_nil_inv_r in Hch as ->. reflexivity.
  - apply Forall2_cons_inv_r in Hch as (q & t' & Hdll & Hch' & ->).
    simpl in Hnd. apply NoDup_app in Hnd as (Hnd1 & _ & Hnd').
    assert (Hq : table (ht s) !! l = Some q).
    { rewrite <- (Nat.add_0_r l), <- lookup_drop, Hdrop. reflexivity. }
    cbn [print_table length].
    rewrite (run_bind_ok _ _ _ _ _ (table_get_ok _ _ _ Hq)).
    rewrite run_bind. simpl.
    rewrite (run_bind_ok _ _ _ _ _
               (print_list_ok l1 s None q _ Hdll
                  (length_le_size (heap s) l1 Hnd1
                     (fun x Hx => dll_in_heap _ _ _ _ _ Hdll Hx)))).
    replace (Z.of_nat l + 1) with (Z.of_nat (S l)) by lia.
    rewrite (run_bind_ok _ _ _ _ _ (IH t' s (S l)
               ltac:(rewrite (drop_S _ _ _ Hq) in Hdrop; congruence)
               Hch' Hnd')).
    rewrite chain_nodes_app, print_nodes_app. reflexivity.
Qed.

Section Print.

Variables (a b : Z) (char_signed : bool).

#[local] Abbreviation Repr := (Repr a b char_signed).

(** Printing a well-formed table writes its nodes bucket after bucket
    between two braces, and changes nothing. *)
Lemma hash_print_ok s bs :
  Repr s bs ->
  hash_print s
  = Ok (("{" ++ print_nodes (chain_nodes (heap s) (concat bs)) ++ "}"
         ++ newline)%string, s).
Proof.
  intros HR. unfold hash_print. rewrite run_bind. simpl.
  assert (Hcnt : Z.to_nat (m (ht s)) = length (table (ht s))).
  { rewrite <- (repr_len _ _ _ _ _ HR). lia. }
  rewrite Hcnt. change 0 with (Z.of_nat 0).
  rewrite (run_bind_ok _ _ _ _ _
             (print_table_ok bs (table (ht s)) s 0 eq_refl
                (repr_chains _ _ _ _ _ HR) (repr_nodup _ _ _ _ _ HR))).
  reflexivity.
Qed.

(** The entries of a well-formed table are those of the finite map it
    holds. *)
Lemma chain_payload_models s bs (M : gmap string string) :
  Repr s bs -> models a b char_signed s M ->
  payload <$> chain_nodes (heap s) (concat bs) ≡ₚ map_to_list M.
Proof.
  intros HR HM. apply NoDup_Permutation.
  - apply NoDup_chain_payload; apply HR.
  - apply NoDup_map_to_list.
  - intros [k v]. rewrite elem_of_map_to_list, list_elem_of_fmap.
    pose proof (models_stored a b char_signed s bs M k HR HM) as Hsto.
    split.
    + intros (nd & Hpay & Hin).
      apply elem_of_chain_nodes in Hin as (x & Hx & Hnd).
      injection Hpay as -> ->.
      destruct (M !! key nd) as [w | ]; simpl in Hsto.
      * destruct Hsto as (y & ny & Hy & Hny & Hk & <-).
        assert (y = x).
        { eapply (repr_keys _ _ _ _ _ HR); eassumption. }
        subst y. congruence.
      * destruct (Hsto x nd Hx Hnd eq_refl).
    + intros E. rewrite E in Hsto.
      destruct Hsto as (x & nd & Hx & Hnd & <- & <-).
      exists nd. split; [reflexivity | ].
      apply elem_of_chain_nodes. eauto.
Qed.

End Print.

(** ** The digest *)

Lemma wrap64_eq z : exists k, wrap64 z = z + k * 2 ^ 64.
Proof.
  exists (- ((z + 2 ^ 63) / 2 ^ 64)). unfold wrap64.
  rewrite Z.mod_eq by lia. lia.
Qed.

Lemma wrap64_congr x y : x mod 2 ^ 64 = y mod 2 ^ 64 -> wrap64 x = wrap64 y.
Proof.
  intros H. unfold wrap64.
  rewrite <- (Zplus_mod_idemp_l x), <- (Zplus_mod_idemp_l y), H.
  reflexivity.
Qed.

(** One turn of the loop of [prehash]: the shift and the two sums,
    each wrapped, are [h * 33 + c] wrapped once. *)
Lemma prehash_step h c :
  wrap64 (wrap64 (wrap64 (Z.shiftl h 5) + h) + c) = wrap64 (33 * h + c).
Proof.
  rewrite wrap64_add_l, Z.shiftl_mul_pow2 by lia.
  destruct (wrap64_eq (h * 2 ^ 5)) as [k ->].
  apply wrap64_congr.
  replace (h * 2 ^ 5 + k * 2 ^ 64 + h + c) with (33 * h + c + k * 2 ^ 64)
    by lia.
  apply Z_mod_plus_full.
Qed.

Lemma wrap64_times_33 h c : wrap64 (33 * wrap64 h + c) = wrap64 (33 * h + c).
Proof.
  destruct (wrap64_eq h) as [k ->]. apply wrap64_congr.
  replace (33 * (h + k * 2 ^ 64) + c) with (33 * h + c + 33 * k * 2 ^ 64)
    by lia.
  apply Z_mod_plus_full.
Qed.

Lemma prehash_loop_bernstein char_signed str :
  forall h,
    prehash_loop char_signed (wrap64 h) str
    = wrap64 (bernstein char_signed h str).
Proof.
  induction str as [ | c str IH]; intros h; simpl; [reflexivity | ].
  rewrite prehash_step, wrap64_times_33. apply IH.
Qed.

Lemma bernstein_app char_signed s1 s2 h :
  bernstein char_signed h (s1 ++ s2)
  = bernstein char_signed (bernstein char_signed h s1) s2.
Proof.
  revert h. induction s1 as [ | c s1 IH]; intros h; [reflexivity | ].
  change (bernstein char_signed
            (33 * h + char_to_int char_signed c) (s1 ++ s2)
          = bernstein char_signed
              (bernstein char_signed
                 (33 * h + char_to_int char_signed c) s1) s2).
  apply IH.
Qed.

(** ** Lookups on any state *)

(** What a walk has found when it returns. *)
Lemma search_list_inv fuel :
  forall q k s r s',
    search_list fuel q k s = Ok (r, s') ->
    s' = s
    /\ match r with
       | Some x => exists nd, heap s !! x = Some nd /\ key nd = k
       | None => True
       end.
Proof.
  induction fuel as [ | fuel IH]; intros [y | ] k s r s'; simpl;
    try discriminate; try (intros [= <- <-]; auto).
  intros Hrun. apply bind_inv in Hrun as (ny & s1 & Hload & Hrun).
  apply load_inv in Hload as (y' & [= <-] & Hy & ->).
  destruct (String.eqb_spec (key ny) k) as [Hk | Hk].
  - inversion Hrun; subst. eauto.
  - eapply IH. eassumption.
Qed.

Section Lookups.

Variables (a b : Z) (char_signed : bool).
Variable stale : nat -> ptr.

#[local] Abbreviation hash := (hash a b char_signed).
#[local] Abbreviation hash_search_node := (hash_search_node a b char_signed).
#[local] Abbreviation hash_search := (hash_search a b char_signed).
#[local] Abbreviation hash_contains := (hash_contains a b char_signed).
#[local] Abbreviation hash_remove := (hash_remove a b char_signed stale).

(** The node a lookup returns is a live node that carries the key. *)
Lemma hash_search_node_inv k s q s' :
  hash_search_node k s = Ok (q, s') ->
  s' = s
  /\ match q with
     | Some x => exists nd, heap s !! x = Some nd /\ key nd = k
     | None => True
     end.
Proof.
  unfold hash_search_node. intros Hrun.
  apply bind_inv in Hrun as (m0 & s1 & H1 & Hrun). inversion H1; subst.
  destruct (m (ht s1) =? 0).
  { inversion Hrun; subst. auto. }
  apply bind_inv in Hrun as (slot & s2 & H2 & Hrun).
  apply lift_inv in H2 as [_ ->].
  apply bind_inv in Hrun as (hd & s3 & H3 & Hrun).
  apply table_get_inv in H3 as (_ & _ & ->).
  apply bind_inv in Hrun as (fuel & s4 & H4 & Hrun). inversion H4; subst.
  eapply search_list_inv. eassumption.
Qed.

(** A table without a bucket array has no key. *)
Lemma hash_search_node_empty k s :
  m (ht s) = 0 -> hash_search_node k s = Ok (None, s).
Proof.
  intros Hm. unfold hash_search_node. rewrite run_bind. simpl.
  rewrite Hm. reflexivity.
Qed.

End Lookups.

(** ** Properties of the whole interface *)

Lemma mod_loop_stuck x y : x < 0 -> y <= 0 -> mod_loop x y = Fault Diverges.
Proof.
  intros Hx Hy. funelim (mod_loop x y); try lia. reflexivity.
Qed.

(** X1.  [mod(x, y)] on every pair of [int64_t] values: the residue of
    [x] in [[0, y)] for a positive [y]; for [y <= 0] a negative [x]
    never leaves the loop, a non-negative [x] is divided by zero when
    [y = 0] and gives its residue modulo [-y] when [y < 0]. *)
Theorem mod_on_every_input (x y : Z) :
  mod_c x y
  = if 0 <? y then Ok (x mod y)
    else if x <? 0 then Fault Diverges
    else if y =? 0 then Fault DivByZero
    else Ok (x mod (- y)).
Proof.
  destruct (Z.ltb_spec 0 y) as [Hy | Hy]; [apply mod_c_pos; assumption | ].
  destruct (Z.ltb_spec x 0) as [Hx | Hx].
  - unfold mod_c. rewrite mod_loop_stuck by assumption. reflexivity.
  - unfold mod_c. rewrite mod_loop_nonneg by assumption.
    destruct (Z.eqb_spec y 0) as [Hz | Hz]; [reflexivity | ].
    f_equal. rewrite <- (Z.opp_involutive y) at 1.
    rewrite Z.rem_opp_r by lia. apply Z.rem_mod_nonneg; lia.
Qed.

(** X2.  [prehash] is Bernstein's hash, seed 5381 and multiplier 33,
    reduced to [int64_t]: the shift and the two sums of the loop body
    are [hash * 33 + c], as the comment in the code says, also where
    they wrap around.  One more character multiplies the digest by 33
    and adds the character. *)
Theorem prehash_is_bernstein (char_signed : bool) (str : string) :
  prehash char_signed str = wrap64 (bernstein char_signed 5381 str)
  /\ (forall c,
        prehash char_signed (str ++ String c EmptyString)
        = wrap64 (33 * prehash char_signed str + char_to_int char_signed c))
  /\ - 2 ^ 63 <= prehash char_signed str < 2 ^ 63.
Proof.
  assert (H : forall s, prehash char_signed s
                        = wrap64 (bernstein char_signed 5381 s)).
  { intros s. unfold prehash.
    rewrite <- (wrap64_id 5381) at 1 by lia.
    apply prehash_loop_bernstein. }
  split; [apply H | ]. split.
  - intros c. rewrite !H, bernstein_app, wrap64_times_33. reflexivity.
  - rewrite H. apply wrap64_range.
Qed.

Section Further.

Variables (a b : Z) (char_signed : bool).
Variable stale : nat -> ptr.
Variable node_alloc : gmap addr node_t -> addr.

#[local] Abbreviation Repr := (Repr a b char_signed).
#[local] Abbreviation hash := (hash a b char_signed).
#[local] Abbreviation hash_search_node := (hash_search_node a b char_signed).
#[local] Abbreviation hash_search := (hash_search a b char_signed).
#[local] Abbreviation hash_contains := (hash_contains a b char_signed).
#[local] Abbreviation resize_hash_table :=
  (resize_hash_table a b char_signed stale).
#[local] Abbreviation hash_insert :=
  (hash_insert a b char_signed stale node_alloc).
#[local] Abbreviation hash_remove := (hash_remove a b char_signed stale).
#[local] Abbreviation new_hash_node := (new_hash_node node_alloc).
#[local] Abbreviation reachable :=
  (reachable a b char_signed stale node_alloc).
#[local] Abbreviation filled := (filled a b char_signed stale node_alloc).
#[local] Abbreviation built := (built a b char_signed stale node_alloc).
#[local] Abbreviation models := (models a b char_signed).

Lemma hash_contains_of_node k s q :
  hash_search_node k s = Ok (q, s) ->
  hash_contains k s = Ok (match q with Some _ => 1 | None => 0 end, s).
Proof.
  intros Hfind. unfold hash_contains.
  rewrite (run_bind_ok _ _ _ _ _ Hfind). destruct q; reflexivity.
Qed.

Lemma hash_contains_of_search k s r s' :
  hash_search k s = Ok (r, s') ->
  hash_contains k s = Ok (match r with Some _ => 1 | None => 0 end, s').
Proof.
  unfold hash_search. intros Hrun.
  apply bind_inv in Hrun as (q & s1 & Hfind & Hrun).
  destruct (hash_search_node_inv _ _ _ _ _ _ _ Hfind) as [-> _].
  destruct q as [x | ].
  - apply bind_inv in Hrun as (nd & s2 & Hload & Hret).
    apply load_inv in Hload as (_ & _ & _ & ->).
    inversion Hret; subst. apply (hash_contains_of_node k s' (Some x) Hfind).
  - inversion Hrun; subst. apply (hash_contains_of_node k s' None Hfind).
Qed.

Lemma hash_search_of_contains k s c s' :
  hash_contains k s = Ok (c, s') ->
  exists r, hash_search k s = Ok (r, s')
            /\ c = match r with Some _ => 1 | None => 0 end.
Proof.
  unfold hash_contains. intros Hrun.
  apply bind_inv in Hrun as (q & s1 & Hfind & Hret).
  destruct (hash_search_node_inv _ _ _ _ _ _ _ Hfind) as [-> Hq].
  inversion Hret; subst. unfold hash_search.
  rewrite (run_bind_ok _ _ _ _ _ Hfind).
  destruct q as [x | ].
  - destruct Hq as (nd & Hnd & _). exists (Some (value nd)).
    rewrite (run_bind_ok _ _ _ _ _ (load_ok _ _ _ Hnd)). auto.
  - exists None. auto.
Qed.

(** X3.  On every state, [hash_contains] and [hash_search] agree:
    [hash_contains] returns 1 exactly when [hash_search] returns a
    value and 0 exactly when it returns [NULL], one returns when the
    other does, and with the same state. *)
Theorem contains_agrees_with_search (k : string) (s : state) (c : Z)
    (s' : state) :
  hash_contains k s = Ok (c, s')
  <-> exists r, hash_search k s = Ok (r, s')
                /\ c = match r with Some _ => 1 | None => 0 end.
Proof.
  split; [apply hash_search_of_contains | ].
  intros (r & Hrun & ->). apply hash_contains_of_search. assumption.
Qed.

(** X4.  A table with [m == 0] has no bucket array, and [hash] with
    [m == 0] divides by zero; the test at the head of
    [hash_search_node] keeps the lookups and the removal away from
    both: on every state with [m == 0] they return, find nothing and
    change nothing. *)
Theorem lookups_without_buckets (k : string) (s : state) :
  m (ht s) = 0 ->
  hash k (m (ht s)) = Fault DivByZero
  /\ hash_search k s = Ok (None, s)
  /\ hash_contains k s = Ok (0, s)
  /\ hash_remove k s = Ok (tt, s).
Proof.
  intros Hm.
  pose proof (hash_search_node_empty a b char_signed k s Hm) as Hfind.
  split; [rewrite Hm; apply hash_zero | ]. split; [ | split].
  - unfold hash_search. rewrite (run_bind_ok _ _ _ _ _ Hfind). reflexivity.
  - apply (hash_contains_of_node k s None Hfind).
  - apply hash_remove_absent. assumption.
Qed.

(** X5.  The two counters across [hash_insert], on every state and
    whatever [malloc] hands out, once the call has returned.  A key
    that is there leaves [m] and [n] alone.  A key that is not there
    adds one to [n], which was below [INT_MAX], and [m] becomes 16
    when [n == m == 0], [2 * m] when [n == m != 0], and stays
    otherwise. *)
Theorem insert_counts (k v : string) (s : state) (u : unit) (s' : state) :
  hash_insert k v s = Ok (u, s') ->
  hash_contains k s = Ok (1, s)
  /\ m (ht s') = m (ht s) /\ n (ht s') = n (ht s)
  \/ hash_contains k s = Ok (0, s)
     /\ n (ht s) < INT_MAX
     /\ n (ht s') = n (ht s) + 1
     /\ m (ht s') = (if n (ht s) =? m (ht s)
                     then if m (ht s) =? 0 then MIN_TABLE_SIZE
                          else 2 * m (ht s)
                     else m (ht s)).
Proof.
  intros Hrun.
  destruct (hash_insert_sizes a b char_signed stale node_alloc _ _ _ _ _ Hrun)
    as [([x Hfind] & Hm & Hn) | (Hfind & Hn & Hm)].
  - left. split; [apply (hash_contains_of_node k s (Some x) Hfind) | auto].
  - right. split; [apply (hash_contains_of_node k s None Hfind) | ].
    destruct (hash_insert_room a b char_signed stale node_alloc
                _ _ _ _ _ Hrun Hfind) as [Hroom _].
    auto.
Qed.

(** X6.  The two counters across [hash_remove], on every state and
    whatever [malloc] hands out, once the call has returned.  For a
    key that is not there the state returned is the state given.  For
    a key that is there [n] is one less, and [m] is halved when
    [n / 4 <= m] and [m >= 32], and stays otherwise. *)
Theorem remove_counts (k : string) (s : state) (u : unit) (s' : state) :
  hash_remove k s = Ok (u, s') ->
  hash_contains k s = Ok (0, s) /\ s' = s
  \/ hash_contains k s = Ok (1, s)
     /\ n (ht s') = n (ht s) - 1
     /\ m (ht s') = (if Z.quot (n (ht s)) 4 <=? m (ht s)
                     then if m (ht s) <? MIN_TABLE_SIZE * 2 then m (ht s)
                          else Z.quot (m (ht s)) 2
                     else m (ht s)).
Proof.
  intros Hrun.
  destruct (hash_remove_sizes a b char_signed stale _ _ _ _ Hrun)
    as [(Hfind & ->) | ([x Hfind] & Hn & Hm)].
  - left. split; [apply (hash_contains_of_node k s None Hfind) | reflexivity].
  - right. split; [apply (hash_contains_of_node k s (Some x) Hfind) | auto].
Qed.

(** X7.  In every state reached from a new table by insertions and
    removals, [m] is 0 or 16 times a power of two, whatever [malloc]
    hands out: [m] is only ever set to 16, doubled, or halved from 32
    or more. *)
Theorem buckets_power_of_two (s : state) :
  reachable s ->
  m (ht s) = 0 \/ exists j : nat, m (ht s) = MIN_TABLE_SIZE * 2 ^ Z.of_nat j.
Proof.
  intros Hreach.
  induction Hreach as [h | s k v s' _ IH Hrun | s k s' _ IH Hrun].
  - left. reflexivity.
  - apply hash_insert_m in Hrun.
    destruct Hrun as [-> | [[_ ->] | (Hnz & -> & _)]]; [assumption | | ].
    + right. exists 0%nat. reflexivity.
    + destruct IH as [Hz | [j Hj]]; [contradiction | ].
      right. exists (S j). rewrite Hj, Nat2Z.inj_succ, Z.pow_succ_r by lia.
      lia.
  - apply hash_remove_m in Hrun.
    destruct Hrun as [-> | [Hge ->]]; [assumption | ].
    destruct IH as [Hz | [j Hj]].
    + unfold MIN_TABLE_SIZE in Hge. lia.
    + right. destruct j as [ | j].
      * rewrite Hj in Hge. unfold MIN_TABLE_SIZE in Hge. simpl in Hge. lia.
      * exists j. rewrite Hj, Nat2Z.inj_succ, Z.pow_succ_r by lia.
        replace (MIN_TABLE_SIZE * (2 * 2 ^ Z.of_nat j))
          with (MIN_TABLE_SIZE * 2 ^ Z.of_nat j * 2) by lia.
        apply Z.quot_mul. lia.
Qed.

(** X8.  In a table filled by insertions alone there are never more
    keys than buckets, and from 32 buckets on fewer than two buckets
    to a key: [0 <= n <= m], and [m] is 0, 16, or below [2 * n].
    This holds whatever [malloc] hands out. *)
Theorem filled_load (s : state) :
  filled s ->
  0 <= n (ht s) <= m (ht s)
  /\ (m (ht s) = 0 \/ m (ht s) = MIN_TABLE_SIZE \/ m (ht s) < 2 * n (ht s)).
Proof.
  intros Hf. induction Hf as [h | s k v s' _ IH Hrun].
  - simpl. lia.
  - destruct (hash_insert_sizes a b char_signed stale node_alloc
                _ _ _ _ _ Hrun)
      as [(_ & Hm & Hn) | (_ & Hn & Hm)].
    + rewrite Hm, Hn. assumption.
    + rewrite Hn, Hm. unfold MIN_TABLE_SIZE in *.
      destruct (Z.eqb_spec (n (ht s)) (m (ht s)));
        [destruct (Z.eqb_spec (m (ht s)) 0) | ]; lia.
Qed.

(** X9.  Once the count has passed the number of buckets, no
    insertion grows the table again: [hash_insert] doubles [m] only
    when it finds [n == m], so from a state with [m < n] it leaves
    [m] as it is, and [m < n] still holds.  (A removal can lead
    there: it halves [m] when [n / 4 <= m].) *)
Theorem growth_needs_equality (k v : string) (s : state) (u : unit)
    (s' : state) :
  m (ht s) < n (ht s) ->
  hash_insert k v s = Ok (u, s') ->
  m (ht s') = m (ht s) /\ m (ht s') < n (ht s')
  /\ n (ht s) <= n (ht s').
Proof.
  intros Hlt Hrun.
  destruct (hash_insert_sizes a b char_signed stale node_alloc _ _ _ _ _ Hrun)
    as [(_ & Hm & Hn) | (_ & Hn & Hm)].
  - lia.
  - destruct (Z.eqb_spec (n (ht s)) (m (ht s))); lia.
Qed.

(** X10.  [hash_insert] on the finite map: on a table built through
    the interface that holds the map [M], the call returns (given
    room for one more entry when the key is new) and the table then
    holds [M] with [k] bound to [v]: every other key is looked up as
    before, and [n] is the number of keys.  Bucket arrays are taken to
    read as empty when allocated. *)
Theorem insert_refines_map (s : state) (M : gmap string string)
    (k v : string) :
  stale_empty stale -> alloc_fresh node_alloc -> reachable s ->
  models s M -> (M !! k = None -> room_to_insert s) ->
  exists s', hash_insert k v s = Ok (tt, s') /\ models s' (<[k := v]> M).
Proof.
  intros Hst Hfresh Hreach HM Hroom.
  destruct (reachable_repr a b char_signed stale node_alloc s
              Hst Hfresh Hreach) as [bs HR].
  destruct (models_insert a b char_signed stale node_alloc s bs M k v
              Hst Hfresh HR HM Hroom) as (s' & bs' & Hrun & _ & HM').
  eauto.
Qed.

(** X11.  [hash_remove] on the finite map: on a table built through
    the interface that holds the map [M], the call returns and the
    table then holds [M] without [k]; every other key is looked up as
    before.  Bucket arrays are taken to read as empty when
    allocated. *)
Theorem remove_refines_map (s : state) (M : gmap string string)
    (k : string) :
  stale_empty stale -> alloc_fresh node_alloc -> reachable s ->
  models s M ->
  exists s', hash_remove k s = Ok (tt, s') /\ models s' (delete k M).
Proof.
  intros Hst Hfresh Hreach HM.
  destruct (reachable_repr a b char_signed stale node_alloc s
              Hst Hfresh Hreach) as [bs HR].
  destruct (models_remove a b char_signed stale s bs M k Hst HR HM)
    as (s' & bs' & Hrun & _ & HM').
  eauto.
Qed.

(** X12.  Every table built through the interface holds exactly one
    finite map: there is an [M] such that [hash_search] of every key
    returns what [M] binds it to, [hash_contains] says whether [M]
    binds it, and [n] is the number of keys of [M]; a new table holds
    the empty map.  Bucket arrays are taken to read as empty when
    allocated. *)
Theorem reachable_holds_a_map (s : state) :
  stale_empty stale -> alloc_fresh node_alloc -> reachable s ->
  (forall h, models (new_hash_table h) ∅)
  /\ exists M,
       models s M
       /\ (forall M', models s M' -> M' = M)
       /\ (forall k,
             hash_contains k s
             = Ok (match M !! k with Some _ => 1 | None => 0 end, s))
       /\ 0 <= n (ht s).
Proof.
  intros Hst Hfresh Hreach. split; [apply models_new | ].
  destruct (reachable_models_repr a b char_signed stale node_alloc s
              Hst Hfresh Hreach) as (bs & M & HR & HM).
  exists M. split; [assumption | ]. split; [ | split].
  - intros M' [Hlook' _]. apply map_eq. intros k.
    destruct HM as [Hlook _].
    specialize (Hlook k). rewrite Hlook' in Hlook. congruence.
  - intros k. apply hash_contains_of_search. apply HM.
  - destruct HM as [_ ->]. lia.
Qed.

(** X13.  [resize_hash_table] relinks and does nothing else: on a
    table built through the interface it returns for every
    [0 < newm <= INT_MAX], the heap then holds the same nodes with the
    same key and value each, the nodes that were in the heap before
    the table was made are as they were, [n] is unchanged, and the
    bucket array holds [newm] slots.  Bucket arrays are taken to read
    as empty when allocated. *)
Theorem resize_relinks (h0 : gmap addr node_t) (s : state) (newm : Z) :
  stale_empty stale -> alloc_fresh node_alloc -> built h0 s ->
  0 < newm <= INT_MAX ->
  exists s',
    resize_hash_table newm s = Ok (tt, s')
    /\ (forall x, payload <$> heap s' !! x = payload <$> heap s !! x)
    /\ (forall z nd, h0 !! z = Some nd -> heap s' !! z = Some nd)
    /\ n (ht s') = n (ht s)
    /\ m (ht s') = newm
    /\ Z.of_nat (length (table (ht s'))) = newm.
Proof.
  intros Hst Hfresh Hb Hnewm.
  destruct (built_owns a b char_signed stale node_alloc h0 s Hst Hfresh Hb)
    as (bs & HR & Hout & Hin).
  destruct (resize_hash_table_ok a b char_signed stale s bs newm
              Hst HR Hnewm) as (s' & bs' & Hrun & HR' & _ & Hpay & Hm & Hn).
  exists s'. split; [assumption | ]. split; [assumption | ].
  split; [ | split; [assumption | split; [assumption | ]]].
  - intros z nd Hz.
    assert (Hzout : z ∉ concat bs).
    { intros Hzin. rewrite (Hin z Hzin) in Hz. discriminate. }
    rewrite (resize_hash_table_frame a b char_signed stale s bs newm tt s'
               Hst HR (proj1 Hnewm) Hrun z Hzout).
    rewrite (Hout z Hzout). assumption.
  - rewrite (repr_len _ _ _ _ _ HR'). assumption.
Qed.

(** X14.  The table keeps to its own nodes: whatever calls of
    [hash_insert] and [hash_remove] have been made, every node that
    was in the heap when the table was made is still there, with the
    links, the key and the value it had, and the heap holds [n] nodes
    more than it did then.  Bucket arrays are taken to read as empty
    when allocated, and [malloc] to return an address not in use. *)
Theorem foreign_nodes_untouched (h0 : gmap addr node_t) (s : state) :
  stale_empty stale -> alloc_fresh node_alloc -> built h0 s ->
  h0 ⊆ heap s
  /\ Z.of_nat (size (heap s)) = Z.of_nat (size h0) + n (ht s).
Proof.
  intros Hst Hfresh Hb.
  destruct (built_owns a b char_signed stale node_alloc h0 s Hst Hfresh Hb)
    as (bs & Hown).
  pose proof (owns_free a b char_signed h0 s bs Hown) as Hfree.
  destruct Hown as (HR & Hout & Hin). split.
  - rewrite <- Hfree. apply foldr_delete_subseteq.
  - rewrite (repr_n _ _ _ _ _ HR), <- Hfree.
    pose proof (size_foldr_delete (heap s) (concat bs)
                  (repr_nodup _ _ _ _ _ HR)
                  (fun x Hx => chains_in_heap _ _ _ _
                                 (repr_chains _ _ _ _ _ HR) Hx)).
    lia.
Qed.

(** X15.  [free_hash_table] gives back what the table has allocated,
    and nothing else: called on a table built through the interface
    it returns (no node is freed twice, no freed node is read), and
    the heap it leaves is the heap the table was made in.  Bucket
    arrays are taken to read as empty when allocated, and [malloc] to
    return an address not in use. *)
Theorem free_gives_back (h0 : gmap addr node_t) (s : state) :
  stale_empty stale -> alloc_fresh node_alloc -> built h0 s ->
  free_hash_table s = Ok h0.
Proof.
  intros Hst Hfresh Hb.
  destruct (built_owns a b char_signed stale node_alloc h0 s Hst Hfresh Hb)
    as (bs & Hown).
  rewrite (free_hash_table_ok a b char_signed s bs (proj1 Hown)).
  f_equal. eapply owns_free. eassumption.
Qed.

(** X16.  [hash_print] writes the map and changes nothing: on a table
    built through the interface that holds the map [M] it returns,
    the state is the one given, and the text is an opening brace, one
    entry ["key":"value", ] for every binding of [M], each once, and a
    closing brace with a line feed.  Bucket arrays are taken to read
    as empty when allocated. *)
Theorem print_lists_the_map (s : state) (M : gmap string string) :
  stale_empty stale -> alloc_fresh node_alloc -> reachable s ->
  models s M ->
  exists nds : list node_t,
    payload <$> nds ≡ₚ map_to_list M
    /\ hash_print s
       = Ok (("{" ++ print_nodes nds ++ "}" ++ newline)%string, s).
Proof.
  intros Hst Hfresh Hreach HM.
  destruct (reachable_repr a b char_signed stale node_alloc s
              Hst Hfresh Hreach) as [bs HR].
  exists (chain_nodes (heap s) (concat bs)). split.
  - eapply chain_payload_models; eassumption.
  - eapply hash_print_ok. eassumption.
Qed.

(** X17.  A node that [new_hash_node] has made and [free_hash_node]
    then frees leaves the state as it was, when [malloc] returns an
    address not in use.  [free_hash_node] of [NULL] does nothing. *)
Theorem node_round_trip (k v : string) (s : state) :
  alloc_fresh node_alloc ->
  (q ← new_hash_node k v; free_hash_node q) s = Ok (tt, s)
  /\ free_hash_node None s = Ok (tt, s).
Proof.
  intros Hfresh. split; [ | reflexivity].
  rewrite run_bind. unfold new_hash_node.
  cbv beta iota zeta.
  erewrite free_hash_node_ok by (simpl; apply lookup_insert_eq).
  simpl. rewrite delete_insert_id by apply Hfresh.
  destruct s. reflexivity.
Qed.

(** X18.  [hash_insert] of a key that is there writes one field: on
    every state, once the call has returned, the state is the one
    given but for the value of one node, which carried the key; no
    link, no slot of the bucket array and no counter has changed, and
    no node was allocated. *)
Theorem overwrite_in_place (k v : string) (s : state) (u : unit)
    (s' : state) :
  hash_contains k s = Ok (1, s) ->
  hash_insert k v s = Ok (u, s') ->
  exists x nd,
    heap s !! x = Some nd /\ key nd = k
    /\ s' = with_heap (<[x := Node (next nd) (prev nd) k v]> (heap s)) s.
Proof.
  intros Hc Hrun. rewrite hash_insert_phases in Hrun.
  apply bind_inv in Hrun as (found & s1 & Hfind & Hrun).
  destruct (hash_search_node_inv _ _ _ _ _ _ _ Hfind) as [-> Hq].
  rewrite (hash_contains_of_node k s found Hfind) in Hc.
  destruct found as [x | ]; [ | discriminate].
  apply set_value_inv in Hrun as (x' & nd & [= <-] & Hx & ->).
  destruct Hq as (nd' & Hx' & Hk).
  assert (nd' = nd) by congruence. subst nd'.
  exists x, nd. rewrite <- Hk at 2. auto.
Qed.

End Further.

(** ** The further properties at concrete tables *)

Lemma models_run ops :
  forall s M s',
    reachable 3 5 true zeroed first_fit s ->
    models 3 5 true s M ->
    run zeroed ops s = Ok (tt, s') ->
    models 3 5 true s' (apply_ops ops M).
Proof.
  induction ops as [ | o ops IH]; intros s M s' Hreach HM Hrun;
    simpl in Hrun.
  - inversion Hrun; subst. assumption.
  - apply bind_inv in Hrun as ([] & s1 & Hstep & Hrun).
    destruct (reachable_repr 3 5 true zeroed first_fit s
                zeroed_empty first_fit_fresh Hreach) as [bs HR].
    destruct o as [k v | k]; simpl in Hstep.
    + apply (IH s1 _ s'); [eapply reach_insert; eassumption | | assumption].
      apply (models_insert_returned 3 5 true zeroed first_fit s bs M k v
               tt s1 zeroed_empty first_fit_fresh HR HM Hstep).
    + apply (IH s1 _ s'); [eapply reach_remove; eassumption | | assumption].
      apply (models_remove_returned 3 5 true zeroed s bs M k
               tt s1 zeroed_empty HR HM Hstep).
Qed.

Lemma table16_models :
  models 3 5 true table16 (apply_ops (inserts 16) ∅).
Proof.
  apply (models_run (inserts 16) (new_hash_table ∅) ∅ table16);
    [constructor | apply models_new | vm_compute; reflexivity].
Qed.

Lemma filled_run stale ks :
  forall s s',
    filled 3 5 true stale first_fit s ->
    run stale ((fun k => Insert k k) <$> ks) s = Ok (tt, s') ->
    filled 3 5 true stale first_fit s'.
Proof.
  induction ks as [ | k ks IH]; intros s s' Hf Hrun; simpl in Hrun.
  - inversion Hrun; subst. assumption.
  - apply bind_inv in Hrun as ([] & s1 & Hstep & Hrun).
    apply (IH s1 s'); [ | assumption].
    eapply filled_insert; eassumption.
Qed.

Lemma table17_filled : filled 3 5 true zeroed first_fit table17.
Proof.
  apply (filled_run zeroed (take 17 keys17) (new_hash_table ∅));
    [constructor | vm_compute; reflexivity].
Qed.

Lemma built_run stale h0 ops :
  forall s s',
    built 3 5 true stale first_fit h0 s ->
    run stale ops s = Ok (tt, s') ->
    built 3 5 true stale first_fit h0 s'.
Proof.
  induction ops as [ | o ops IH]; intros s s' Hb Hrun; simpl in Hrun.
  - inversion Hrun; subst. assumption.
  - apply bind_inv in Hrun as ([] & s1 & Hstep & Hrun).
    apply (IH s1 s'); [ | assumption].
    destruct o as [k v | k]; simpl in Hstep.
    + eapply built_insert; eassumption.
    + eapply built_remove; eassumption.
Qed.

Lemma guest_table_built : built 3 5 true zeroed first_fit guest_heap guest_table.
Proof.
  apply (built_run zeroed guest_heap (inserts 17 ++ [Remove "c"])
           (new_hash_table guest_heap));
    [constructor | vm_compute; reflexivity].
Qed.

Lemma table_overfull_reachable :
  reachable 3 5 true zeroed first_fit table_overfull.
Proof.
  apply (reachable_run zeroed (inserts 17 ++ [Insert "r" "r"; Remove "a"])
           (new_hash_table ∅));
    [constructor | vm_compute; reflexivity].
Qed.

(** Eighteen insertions and one removal lead to more keys than
    buckets. *)
Example table_overfull_sizes :
  m (ht table_overfull) = 16 /\ n (ht table_overfull) = 17.
Proof. split; vm_compute; reflexivity. Qed.

(** X4 at a new table. *)
Lemma lookups_without_buckets_witness :
  m (ht (new_hash_table ∅)) = 0
  /\ hash 3 5 true "a" (m (ht (new_hash_table ∅))) = Fault DivByZero
  /\ hash_search 3 5 true "a" (new_hash_table ∅) = Ok (None, new_hash_table ∅)
  /\ hash_contains 3 5 true "a" (new_hash_table ∅) = Ok (0, new_hash_table ∅)
  /\ hash_remove 3 5 true zeroed "a" (new_hash_table ∅)
     = Ok (tt, new_hash_table ∅).
Proof.
  split; [reflexivity | ].
  exact (lookups_without_buckets 3 5 true zeroed "a" (new_hash_table ∅)
           eq_refl).
Defined.

(** X5 at the full table of sixteen keys: the seventeenth key doubles
    the bucket array. *)
Lemma insert_counts_witness :
  hash_insert 3 5 true zeroed first_fit "q" "q" table16 = Ok (tt, table17)
  /\ (hash_contains 3 5 true "q" table16 = Ok (1, table16)
      /\ m (ht table17) = m (ht table16) /\ n (ht table17) = n (ht table16)
      \/ hash_contains 3 5 true "q" table16 = Ok (0, table16)
         /\ n (ht table16) < INT_MAX
         /\ n (ht table17) = n (ht table16) + 1
         /\ m (ht table17) = (if n (ht table16) =? m (ht table16)
                              then if m (ht table16) =? 0 then MIN_TABLE_SIZE
                                   else 2 * m (ht table16)
                              else m (ht table16))).
Proof.
  assert (Hrun : hash_insert 3 5 true zeroed first_fit "q" "q" table16
                 = Ok (tt, table17)) by (vm_compute; reflexivity).
  split; [exact Hrun | ].
  exact (insert_counts 3 5 true zeroed first_fit "q" "q" table16 tt table17
           Hrun).
Defined.

(** X6 at the table of seventeen keys: the removal halves the bucket
    array. *)
Lemma remove_counts_witness :
  exists s',
    hash_remove 3 5 true zeroed "a" table17 = Ok (tt, s')
    /\ (hash_contains 3 5 true "a" table17 = Ok (0, table17) /\ s' = table17
        \/ hash_contains 3 5 true "a" table17 = Ok (1, table17)
           /\ n (ht s') = n (ht table17) - 1
           /\ m (ht s')
              = (if Z.quot (n (ht table17)) 4 <=? m (ht table17)
                 then if m (ht table17) <? MIN_TABLE_SIZE * 2
                      then m (ht table17)
                      else Z.quot (m (ht table17)) 2
                 else m (ht table17))).
Proof.
  exists (state_after zeroed (inserts 17 ++ [Remove "a"])).
  assert (Hrun : hash_remove 3 5 true zeroed "a" table17
                 = Ok (tt, state_after zeroed (inserts 17 ++ [Remove "a"])))
    by (vm_compute; reflexivity).
  split; [exact Hrun | ].
  exact (remove_counts 3 5 true zeroed "a" table17 tt _ Hrun).
Defined.

(** X7 at the table of seventeen keys. *)
Lemma buckets_power_of_two_witness :
  reachable 3 5 true zeroed first_fit table17
  /\ (m (ht table17) = 0
      \/ exists j : nat, m (ht table17) = MIN_TABLE_SIZE * 2 ^ Z.of_nat j).
Proof.
  split; [exact table17_reachable | ].
  exact (buckets_power_of_two 3 5 true zeroed first_fit table17
           table17_reachable).
Defined.

(** X8 at the table of seventeen keys. *)
Lemma filled_load_witness :
  filled 3 5 true zeroed first_fit table17
  /\ 0 <= n (ht table17) <= m (ht table17)
  /\ (m (ht table17) = 0 \/ m (ht table17) = MIN_TABLE_SIZE
      \/ m (ht table17) < 2 * n (ht table17)).
Proof.
  split; [exact table17_filled | ].
  exact (filled_load 3 5 true zeroed first_fit table17 table17_filled).
Defined.

(** X9 at the table of seventeen keys in sixteen buckets. *)
Lemma growth_needs_equality_witness :
  exists s',
    m (ht table_overfull) < n (ht table_overfull)
    /\ hash_insert 3 5 true zeroed first_fit "s" "s" table_overfull
       = Ok (tt, s')
    /\ m (ht s') = m (ht table_overfull) /\ m (ht s') < n (ht s')
    /\ n (ht table_overfull) <= n (ht s').
Proof.
  exists (state_after zeroed
            (inserts 17 ++ [Insert "r" "r"; Remove "a"; Insert "s" "s"])).
  assert (Hlt : m (ht table_overfull) < n (ht table_overfull))
    by (vm_compute; reflexivity).
  assert (Hrun : hash_insert 3 5 true zeroed first_fit "s" "s" table_overfull
                 = Ok (tt, state_after zeroed
                             (inserts 17 ++ [Insert "r" "r"; Remove "a";
                                             Insert "s" "s"])))
    by (vm_compute; reflexivity).
  split; [exact Hlt | ]. split; [exact Hrun | ].
  exact (growth_needs_equality 3 5 true zeroed first_fit "s" "s"
           table_overfull tt _ Hlt Hrun).
Defined.

(** X10 at the full table of sixteen keys, with a seventeenth key. *)
Lemma insert_refines_map_witness :
  stale_empty zeroed /\ alloc_fresh first_fit
  /\ reachable 3 5 true zeroed first_fit table16
  /\ models 3 5 true table16 (apply_ops (inserts 16) ∅)
  /\ (apply_ops (inserts 16) ∅ !! "q"%string = None -> room_to_insert table16)
  /\ exists s',
       hash_insert 3 5 true zeroed first_fit "q" "17" table16 = Ok (tt, s')
       /\ models 3 5 true s' (<["q"%string := "17"%string]>
                                (apply_ops (inserts 16) ∅)).
Proof.
  split; [exact zeroed_empty | ]. split; [exact first_fit_fresh | ].
  split; [exact table16_reachable | ]. split; [exact table16_models | ].
  split; [exact (fun _ => table16_room) | ].
  exact (insert_refines_map 3 5 true zeroed first_fit table16 _ "q" "17"
           zeroed_empty first_fit_fresh table16_reachable table16_models
           (fun _ => table16_room)).
Defined.

(** X11 at the full table of sixteen keys. *)
Lemma remove_refines_map_witness :
  stale_empty zeroed /\ alloc_fresh first_fit
  /\ reachable 3 5 true zeroed first_fit table16
  /\ models 3 5 true table16 (apply_ops (inserts 16) ∅)
  /\ exists s',
       hash_remove 3 5 true zeroed "a" table16 = Ok (tt, s')
       /\ models 3 5 true s' (delete "a"%string (apply_ops (inserts 16) ∅)).
Proof.
  split; [exact zeroed_empty | ]. split; [exact first_fit_fresh | ].
  split; [exact table16_reachable | ]. split; [exact table16_models | ].
  exact (remove_refines_map 3 5 true zeroed first_fit table16 _ "a"
           zeroed_empty first_fit_fresh table16_reachable table16_models).
Defined.

(** X12 at the table of seventeen keys. *)
Lemma reachable_holds_a_map_witness :
  stale_empty zeroed /\ alloc_fresh first_fit
  /\ reachable 3 5 true zeroed first_fit table17
  /\ (forall h, models 3 5 true (new_hash_table h) ∅)
  /\ exists M,
       models 3 5 true table17 M
       /\ (forall M', models 3 5 true table17 M' -> M' = M)
       /\ (forall k,
             hash_contains 3 5 true k table17
             = Ok (match M !! k with Some _ => 1 | None => 0 end, table17))
       /\ 0 <= n (ht table17).
Proof.
  split; [exact zeroed_empty | ]. split; [exact first_fit_fresh | ].
  split; [exact table17_reachable | ].
  exact (reachable_holds_a_map 3 5 true zeroed first_fit table17
           zeroed_empty first_fit_fresh table17_reachable).
Defined.

(** X13 at a table of sixteen keys made in a heap that holds a node
    of another owner, resized to 64 slots. *)
Lemma resize_relinks_witness :
  stale_empty zeroed /\ alloc_fresh first_fit
  /\ built 3 5 true zeroed first_fit guest_heap guest_table
  /\ 0 < 64 <= INT_MAX
  /\ exists s',
       resize_hash_table 3 5 true zeroed 64 guest_table = Ok (tt, s')
       /\ (forall x, payload <$> heap s' !! x
                     = payload <$> heap guest_table !! x)
       /\ (forall z nd, guest_heap !! z = Some nd -> heap s' !! z = Some nd)
       /\ n (ht s') = n (ht guest_table)
       /\ m (ht s') = 64
       /\ Z.of_nat (length (table (ht s'))) = 64.
Proof.
  split; [exact zeroed_empty | ]. split; [exact first_fit_fresh | ].
  split; [exact guest_table_built | ].
  assert (H64 : 0 < 64 <= INT_MAX)
    by (vm_compute; split; [reflexivity | discriminate]).
  split; [exact H64 | ].
  exact (resize_relinks 3 5 true zeroed first_fit guest_heap guest_table 64
           zeroed_empty first_fit_fresh guest_table_built H64).
Defined.

(** X14 at the same table. *)
Lemma foreign_nodes_untouched_witness :
  stale_empty zeroed /\ alloc_fresh first_fit
  /\ built 3 5 true zeroed first_fit guest_heap guest_table
  /\ guest_heap ⊆ heap guest_table
  /\ Z.of_nat (size (heap guest_table))
     = Z.of_nat (size guest_heap) + n (ht guest_table).
Proof.
  split; [exact zeroed_empty | ]. split; [exact first_fit_fresh | ].
  split; [exact guest_table_built | ].
  exact (foreign_nodes_untouched 3 5 true zeroed first_fit guest_heap
           guest_table zeroed_empty first_fit_fresh guest_table_built).
Defined.

(** X15 at the same table. *)
Lemma free_gives_back_witness :
  stale_empty zeroed /\ alloc_fresh first_fit
  /\ built 3 5 true zeroed first_fit guest_heap guest_table
  /\ free_hash_table guest_table = Ok guest_heap.
Proof.
  split; [exact zeroed_empty | ]. split; [exact first_fit_fresh | ].
  split; [exact guest_table_built | ].
  exact (free_gives_back 3 5 true zeroed first_fit guest_heap guest_table
           zeroed_empty first_fit_fresh guest_table_built).
Defined.

(** X16 at the full table of sixteen keys. *)
Lemma print_lists_the_map_witness :
  stale_empty zeroed /\ alloc_fresh first_fit
  /\ reachable 3 5 true zeroed first_fit table16
  /\ models 3 5 true table16 (apply_ops (inserts 16) ∅)
  /\ exists nds : list node_t,
       payload <$> nds ≡ₚ map_to_list (apply_ops (inserts 16) ∅)
       /\ hash_print table16
          = Ok (("{" ++ print_nodes nds ++ "}" ++ newline)%string, table16).
Proof.
  split; [exact zeroed_empty | ]. split; [exact first_fit_fresh | ].
  split; [exact table16_reachable | ]. split; [exact table16_models | ].
  exact (print_lists_the_map 3 5 true zeroed first_fit table16 _
           zeroed_empty first_fit_fresh table16_reachable table16_models).
Defined.

(** X17 at the full table of sixteen keys. *)
Lemma node_round_trip_witness :
  alloc_fresh first_fit
  /\ (q ← new_hash_node first_fit "q" "17"; free_hash_node q) table16
     = Ok (tt, table16)
  /\ free_hash_node None table16 = Ok (tt, table16).
Proof.
  split; [exact first_fit_fresh | ].
  exact (node_round_trip first_fit "q" "17" table16 first_fit_fresh).
Defined.

(** X18 at the full table of sixteen keys: the key ["a"] is given a
    new value. *)
Lemma overwrite_in_place_witness :
  exists s',
    hash_contains 3 5 true "a" table16 = Ok (1, table16)
    /\ hash_insert 3 5 true zeroed first_fit "a" "z" table16 = Ok (tt, s')
    /\ exists x nd,
         heap table16 !! x = Some nd /\ key nd = "a"%string
         /\ s' = with_heap
                   (<[x := Node (next nd) (prev nd) "a" "z"]> (heap table16))
                   table16.
Proof.
  exists (state_after zeroed (inserts 16 ++ [Insert "a" "z"])).
  assert (Hc : hash_contains 3 5 true "a" table16 = Ok (1, table16))
    by (vm_compute; reflexivity).
  assert (Hrun : hash_insert 3 5 true zeroed first_fit "a" "z" table16
                 = Ok (tt, state_after zeroed
                             (inserts 16 ++ [Insert "a" "z"])))
    by (vm_compute; reflexivity).
  split; [exact Hc | ]. split; [exact Hrun | ].
  exact (overwrite_in_place 3 5 true zeroed first_fit "a" "z" table16 tt _
           Hc Hrun).
Defined.
